(** * Neon Runner: the navigation-and-survival engine of [GameEngine]

    A shallow embedding of the simulation core of [GameEngine] (the class
    that follows the React component in [src/App.tsx]) and of [src/types.ts].

    Modelling conventions.
    - A JavaScript [number] that only ever holds an integer (lanes, score,
      timers) is a [Z]; every other [number] is an exact rational [Q], so the
      theorems speak about the control logic and not about binary rounding.
    - [this.player] is created by the constructor and never cleared, so the
      [if (this.player)] guards are always taken; the fields of
      [player.position] the simulation reads are [playerX] and [playerY].
    - Rendering (scene graph, particles, glitter, camera, ground ring) has no
      influence on the simulated state and is left out.
    - The three callbacks are recorded in [events], newest first.
    - [Math.random()] is an input: every call site receives a draw of type
      [Unit01], a rational of the half-open unit interval.
    - A property access on [undefined] (a failed [Array.find]) throws; code
      that can throw returns [option], [None] being the exception. *)

From Stdlib Require Import ZArith QArith Qround Qabs Qminmax.
From Stdlib Require Import List Sorted Bool Lia Lqa.
Import ListNotations.
Open Scope Q_scope.

(** ** Numbers *)

Definition Qltb (x y : Q) : bool := negb (Qle_bool y x).

(** A result of [Math.random()]: a number [r] with [0 <= r < 1]. *)
Record Unit01 : Type := mkUnit01 {
  rval :> Q;
  rval_ok : Qle_bool 0 rval && Qltb rval 1 = true
}.

(** ** Data model ([types.ts]) *)

Inductive GameState : Type := MENU | PLAYING | GAME_OVER.

Inductive CollisionType : Type := SOLID | JUMP | DUCK | COIN.

Definition CollisionType_eqb (a b : CollisionType) : bool :=
  match a, b with
  | SOLID, SOLID | JUMP, JUMP | DUCK, DUCK | COIN, COIN => true
  | _, _ => false
  end.

Inductive AIAction : Type := RUN | ACT_JUMP | ACT_DUCK | DODGE | SCANNING.

Record AIState : Type := mkAIState {
  ai_enabled : bool;
  ai_currentLane : Z;
  ai_targetLane : Z;
  ai_action : AIAction;
  ai_confidence : Z;
  ai_nearestThreatDist : Z;
  ai_laneScores : list Q
}.

(** An element of [this.obstacles]: [position.x], [position.z] and the three
    [userData] fields.  Coins live in the same array. *)
Record Obstacle : Type := mkObstacle {
  pos_x : Q;
  pos_z : Q;
  active : bool;
  lane : Z;
  collisionType : CollisionType
}.

(** The callbacks handed to the constructor. *)
Inductive Event : Type :=
| ScoreChange (s : Z)
| GameOver (finalScore : Z)
| AIUpdate (a : AIState).

(** ** Configuration ([GameEngine.config] and [playerBaseY]) *)

Definition laneWidth : Q := 4.
Definition startSpeed : Q := 0.6.
Definition maxSpeed : Q := 2.8.
Definition speedIncrement : Q := 0.0002.
Definition jumpForce : Q := 0.38.
Definition gravity : Q := 0.020.
Definition playerBaseY : Q := 1.

(** ** Engine state *)

Record Engine : Type := mkEngine {
  state : GameState;
  score : Z;
  distanceTraveled : Q;
  gameSpeed : Q;
  currentLane : Z;
  targetX : Q;
  playerVelocityY : Q;
  isJumping : bool;
  isRolling : bool;
  rollTimer : Z;
  playerX : Q;
  playerY : Q;
  autoPilotEnabled : bool;
  lastSafeLane : Z;
  aiLaneChangeCooldown : Z;
  obstacles : list Obstacle;
  events : list Event
}.

Definition set_state (v : GameState) (e : Engine) : Engine :=
  mkEngine v (score e) (distanceTraveled e) (gameSpeed e) (currentLane e)
    (targetX e) (playerVelocityY e) (isJumping e) (isRolling e) (rollTimer e)
    (playerX e) (playerY e) (autoPilotEnabled e) (lastSafeLane e)
    (aiLaneChangeCooldown e) (obstacles e) (events e).
Definition set_score (v : Z) (e : Engine) : Engine :=
  mkEngine (state e) v (distanceTraveled e) (gameSpeed e) (currentLane e)
    (targetX e) (playerVelocityY e) (isJumping e) (isRolling e) (rollTimer e)
    (playerX e) (playerY e) (autoPilotEnabled e) (lastSafeLane e)
    (aiLaneChangeCooldown e) (obstacles e) (events e).
Definition set_distanceTraveled (v : Q) (e : Engine) : Engine :=
  mkEngine (state e) (score e) v (gameSpeed e) (currentLane e) (targetX e)
    (playerVelocityY e) (isJumping e) (isRolling e) (rollTimer e) (playerX e)
    (playerY e) (autoPilotEnabled e) (lastSafeLane e) (aiLaneChangeCooldown e)
    (obstacles e) (events e).
Definition set_gameSpeed (v : Q) (e : Engine) : Engine :=
  mkEngine (state e) (score e) (distanceTraveled e) v (currentLane e)
    (targetX e) (playerVelocityY e) (isJumping e) (isRolling e) (rollTimer e)
    (playerX e) (playerY e) (autoPilotEnabled e) (lastSafeLane e)
    (aiLaneChangeCooldown e) (obstacles e) (events e).
Definition set_currentLane (v : Z) (e : Engine) : Engine :=
  mkEngine (state e) (score e) (distanceTraveled e) (gameSpeed e) v (targetX
    e) (playerVelocityY e) (isJumping e) (isRolling e) (rollTimer e) (playerX e)
    (playerY e) (autoPilotEnabled e) (lastSafeLane e) (aiLaneChangeCooldown e)
    (obstacles e) (events e).
Definition set_targetX (v : Q) (e : Engine) : Engine :=
  mkEngine (state e) (score e) (distanceTraveled e) (gameSpeed e)
    (currentLane e) v (playerVelocityY e) (isJumping e) (isRolling e) (rollTimer
    e) (playerX e) (playerY e) (autoPilotEnabled e) (lastSafeLane e)
    (aiLaneChangeCooldown e) (obstacles e) (events e).
Definition set_playerVelocityY (v : Q) (e : Engine) : Engine :=
  mkEngine (state e) (score e) (distanceTraveled e) (gameSpeed e)
    (currentLane e) (targetX e) v (isJumping e) (isRolling e) (rollTimer e)
    (playerX e) (playerY e) (autoPilotEnabled e) (lastSafeLane e)
    (aiLaneChangeCooldown e) (obstacles e) (events e).
Definition set_isJumping (v : bool) (e : Engine) : Engine :=
  mkEngine (state e) (score e) (distanceTraveled e) (gameSpeed e)
    (currentLane e) (targetX e) (playerVelocityY e) v (isRolling e) (rollTimer e)
    (playerX e) (playerY e) (autoPilotEnabled e) (lastSafeLane e)
    (aiLaneChangeCooldown e) (obstacles e) (events e).
Definition set_isRolling (v : bool) (e : Engine) : Engine :=
  mkEngine (state e) (score e) (distanceTraveled e) (gameSpeed e)
    (currentLane e) (targetX e) (playerVelocityY e) (isJumping e) v (rollTimer e)
    (playerX e) (playerY e) (autoPilotEnabled e) (lastSafeLane e)
    (aiLaneChangeCooldown e) (obstacles e) (events e).
Definition set_rollTimer (v : Z) (e : Engine) : Engine :=
  mkEngine (state e) (score e) (distanceTraveled e) (gameSpeed e)
    (currentLane e) (targetX e) (playerVelocityY e) (isJumping e) (isRolling e) v
    (playerX e) (playerY e) (autoPilotEnabled e) (lastSafeLane e)
    (aiLaneChangeCooldown e) (obstacles e) (events e).
Definition set_playerX (v : Q) (e : Engine) : Engine :=
  mkEngine (state e) (score e) (distanceTraveled e) (gameSpeed e)
    (currentLane e) (targetX e) (playerVelocityY e) (isJumping e) (isRolling e)
    (rollTimer e) v (playerY e) (autoPilotEnabled e) (lastSafeLane e)
    (aiLaneChangeCooldown e) (obstacles e) (events e).
Definition set_playerY (v : Q) (e : Engine) : Engine :=
  mkEngine (state e) (score e) (distanceTraveled e) (gameSpeed e)
    (currentLane e) (targetX e) (playerVelocityY e) (isJumping e) (isRolling e)
    (rollTimer e) (playerX e) v (autoPilotEnabled e) (lastSafeLane e)
    (aiLaneChangeCooldown e) (obstacles e) (events e).
Definition set_autoPilotEnabled (v : bool) (e : Engine) : Engine :=
  mkEngine (state e) (score e) (distanceTraveled e) (gameSpeed e)
    (currentLane e) (targetX e) (playerVelocityY e) (isJumping e) (isRolling e)
    (rollTimer e) (playerX e) (playerY e) v (lastSafeLane e)
    (aiLaneChangeCooldown e) (obstacles e) (events e).
Definition set_lastSafeLane (v : Z) (e : Engine) : Engine :=
  mkEngine (state e) (score e) (distanceTraveled e) (gameSpeed e)
    (currentLane e) (targetX e) (playerVelocityY e) (isJumping e) (isRolling e)
    (rollTimer e) (playerX e) (playerY e) (autoPilotEnabled e) v
    (aiLaneChangeCooldown e) (obstacles e) (events e).
Definition set_aiLaneChangeCooldown (v : Z) (e : Engine) : Engine :=
  mkEngine (state e) (score e) (distanceTraveled e) (gameSpeed e)
    (currentLane e) (targetX e) (playerVelocityY e) (isJumping e) (isRolling e)
    (rollTimer e) (playerX e) (playerY e) (autoPilotEnabled e) (lastSafeLane e) v
    (obstacles e) (events e).
Definition set_obstacles (v : list Obstacle) (e : Engine) : Engine :=
  mkEngine (state e) (score e) (distanceTraveled e) (gameSpeed e)
    (currentLane e) (targetX e) (playerVelocityY e) (isJumping e) (isRolling e)
    (rollTimer e) (playerX e) (playerY e) (autoPilotEnabled e) (lastSafeLane e)
    (aiLaneChangeCooldown e) v (events e).
Definition set_events (v : list Event) (e : Engine) : Engine :=
  mkEngine (state e) (score e) (distanceTraveled e) (gameSpeed e)
    (currentLane e) (targetX e) (playerVelocityY e) (isJumping e) (isRolling e)
    (rollTimer e) (playerX e) (playerY e) (autoPilotEnabled e) (lastSafeLane e)
    (aiLaneChangeCooldown e) (obstacles e) v.

(** ** Controls *)

Definition moveLeft (e : Engine) : Engine :=
  if (-1 <? currentLane e)%Z then set_currentLane (currentLane e - 1)%Z e else e.

Definition moveRight (e : Engine) : Engine :=
  if (currentLane e <? 1)%Z then set_currentLane (currentLane e + 1)%Z e else e.

Definition setLane (l : Z) (e : Engine) : Engine := set_currentLane l e.

Definition jump (e : Engine) : Engine :=
  if negb (isJumping e)
  then set_isRolling false (set_playerVelocityY jumpForce (set_isJumping true e))
  else e.

Definition roll (e : Engine) : Engine :=
  if negb (isJumping e) && negb (isRolling e)
  then set_rollTimer 40%Z (set_isRolling true e)
  else e.

(** The remainder of [toggleAutoPilot] resets the player's visual proxy. *)
Definition toggleAutoPilot (v : bool) (e : Engine) : Engine :=
  set_autoPilotEnabled v e.

(** [gameOver]: the explosion and the hidden player are rendering, and
    [cancelAnimationFrame] is accounted for by the guard of [animate]. *)
Definition gameOver (e : Engine) : Engine :=
  set_events (GameOver (score e) :: events e) (set_state GAME_OVER e).

(** ** Obstacle and coin spawner *)

(** The draws one call of [spawnObstacleRow] can consume: one for the safe
    lane, one per lane for the placement test, and one per lane for the kind
    of the obstacle that [createObstacleAt] builds. *)
Record RowDraws : Type := mkRowDraws {
  pickDraw : Unit01;
  placeDraw : Z -> Unit01;
  typeDraw : Z -> Unit01
}.

Definition possibleLanes (last : Z) : list Z :=
  [last] ++ (if (-1 <? last)%Z then [(last - 1)%Z] else [])
         ++ (if (last <? 1)%Z then [(last + 1)%Z] else []).

(** [Math.floor(Math.random() * possibleLanes.length)] *)
Definition pickIndex (r : Q) (n : nat) : nat :=
  Z.to_nat (Qfloor (r * inject_Z (Z.of_nat n))).

(** [possibleLanes[...]]: the index is always in range for a draw of
    [Unit01] (lemma [pickIndex_lt]), so the default is never returned. *)
Definition pickSafeLane (r : Unit01) (last : Z) : Z :=
  nth (pickIndex r (length (possibleLanes last))) (possibleLanes last) last.

Definition createObstacleAt (x z : Q) (laneIdx : Z) (typeRand : Q) (e : Engine)
  : Engine :=
  let kind := if Qltb typeRand 0.25 then JUMP
              else if Qltb typeRand 0.5 then DUCK
              else SOLID in
  set_obstacles (obstacles e ++ [mkObstacle x z true laneIdx kind]) e.

Definition spawnCoin (x z : Q) (laneIdx : Z) (e : Engine) : Engine :=
  set_obstacles (obstacles e ++ [mkObstacle x z true laneIdx COIN]) e.

(** The body of the [forEach] over the three lanes. *)
Definition spawnLane (z : Q) (d : RowDraws) (safeLaneIdx : Z) (e : Engine)
  (laneIdx : Z) : Engine :=
  let x := inject_Z laneIdx * laneWidth in
  if (laneIdx =? safeLaneIdx)%Z then
    if Qltb (placeDraw d laneIdx) 0.3 then spawnCoin x z laneIdx e else e
  else
    if Qltb (placeDraw d laneIdx) 0.8
    then createObstacleAt x z laneIdx (typeDraw d laneIdx) e
    else e.

Definition spawnObstacleRow (z : Q) (d : RowDraws) (e : Engine) : Engine :=
  let safeLaneIdx := pickSafeLane (pickDraw d) (lastSafeLane e) in
  let e1 := set_lastSafeLane safeLaneIdx e in
  fold_left (spawnLane z d safeLaneIdx) [-1; 0; 1]%Z e1.

(** ** Stable sort

    [Array.prototype.sort] is stable.  [cmp_le a b] says that the comparator
    is not positive on [(a, b)]; insertion from the right keeps earlier
    elements before later ones among equals. *)
Section StableSort.
Context {A : Type}.
Variable cmp_le : A -> A -> bool.

Fixpoint insertSorted (x : A) (l : list A) : list A :=
  match l with
  | [] => [x]
  | y :: ys => if cmp_le x y then x :: l else y :: insertSorted x ys
  end.

Definition stableSort (l : list A) : list A := fold_right insertSorted [] l.
End StableSort.

(** ** Lane analyzer *)

Inductive Reflex : Type := NoAction | NeedJump | NeedDuck.

Record LaneAnalysis : Type := mkLaneAnalysis {
  la_lane : Z;
  la_isDeadly : bool;
  la_isBlockedSide : bool;
  la_action : Reflex;
  la_score : Q;
  la_distanceToThreat : Q;
  la_threatType : option CollisionType;
  la_firstSolidDist : Q
}.

Definition set_la_isDeadly (v : bool) (a : LaneAnalysis) : LaneAnalysis :=
  mkLaneAnalysis (la_lane a) v (la_isBlockedSide a) (la_action a) (la_score
    a) (la_distanceToThreat a) (la_threatType a) (la_firstSolidDist a).
Definition set_la_isBlockedSide (v : bool) (a : LaneAnalysis) : LaneAnalysis
:=
  mkLaneAnalysis (la_lane a) (la_isDeadly a) v (la_action a) (la_score a)
    (la_distanceToThreat a) (la_threatType a) (la_firstSolidDist a).
Definition set_la_action (v : Reflex) (a : LaneAnalysis) : LaneAnalysis :=
  mkLaneAnalysis (la_lane a) (la_isDeadly a) (la_isBlockedSide a) v (la_score
    a) (la_distanceToThreat a) (la_threatType a) (la_firstSolidDist a).
Definition set_la_score (v : Q) (a : LaneAnalysis) : LaneAnalysis :=
  mkLaneAnalysis (la_lane a) (la_isDeadly a) (la_isBlockedSide a) (la_action
    a) v (la_distanceToThreat a) (la_threatType a) (la_firstSolidDist a).
Definition set_la_distanceToThreat (v : Q) (a : LaneAnalysis) : LaneAnalysis
:=
  mkLaneAnalysis (la_lane a) (la_isDeadly a) (la_isBlockedSide a) (la_action
    a) (la_score a) v (la_threatType a) (la_firstSolidDist a).
Definition set_la_threatType (v : option CollisionType) (a : LaneAnalysis) :
LaneAnalysis :=
  mkLaneAnalysis (la_lane a) (la_isDeadly a) (la_isBlockedSide a) (la_action
    a) (la_score a) (la_distanceToThreat a) v (la_firstSolidDist a).
Definition set_la_firstSolidDist (v : Q) (a : LaneAnalysis) : LaneAnalysis :=
  mkLaneAnalysis (la_lane a) (la_isDeadly a) (la_isBlockedSide a) (la_action
    a) (la_score a) (la_distanceToThreat a) (la_threatType a) v.

Definition isCoin (o : Obstacle) : bool := CollisionType_eqb (collisionType o) COIN.

(** The side-swipe window of [analyzeLane]. *)
Definition inSideWindow (z : Q) : bool := Qltb (-4) z && Qltb z 5.

(** The body of the [for (const obs of laneObs)] loop; [a] carries the local
    variables of [analyzeLane]. *)
Definition scanStep (jumping rolling : bool) (a : LaneAnalysis) (obs : Obstacle)
  : LaneAnalysis :=
  let type := collisionType obs in
  let z := pos_z obs in
  let dist := Qabs z in
  let a1 := if inSideWindow z && negb (isCoin obs)
            then set_la_score (-999999) (set_la_isBlockedSide true a)
            else a in
  if isCoin obs then set_la_score (la_score a1 + 50) a1
  else if Qltb z 0 then
    let a2 := if Qltb dist (la_distanceToThreat a1)
              then set_la_threatType (Some type) (set_la_distanceToThreat dist a1)
              else a1 in
    match type with
    | SOLID =>
        let a3 := set_la_isDeadly true a2 in
        let a4 := if Qltb dist (la_firstSolidDist a3)
                  then set_la_firstSolidDist dist a3 else a3 in
        set_la_score (la_score a4 - 100000 / (dist + 1)) a4
    | JUMP =>
        let a3 := match la_action a2 with
                  | NoAction => set_la_action NeedJump a2
                  | _ => a2
                  end in
        let a4 := set_la_score (la_score a3 - 100) a3 in
        if rolling && Qltb dist 30 then set_la_score (la_score a4 - 5000) a4 else a4
    | DUCK =>
        let a3 := match la_action a2 with
                  | NoAction => set_la_action NeedDuck a2
                  | _ => a2
                  end in
        let a4 := set_la_score (la_score a3 - 100) a3 in
        if jumping && Qltb dist 30 then set_la_score (la_score a4 - 5000) a4 else a4
    | COIN => a2
    end
  else a1.

Definition laneFilter (laneIdx : Z) (range : Q) (o : Obstacle) : bool :=
  active o && (lane o =? laneIdx)%Z && Qltb (- range) (pos_z o) && Qltb (pos_z o) 10.

(** [(a, b) => b.position.z - a.position.z] is not positive. *)
Definition byZDescending (a b : Obstacle) : bool := Qle_bool (pos_z b) (pos_z a).

Definition analysisInit (laneIdx : Z) : LaneAnalysis :=
  mkLaneAnalysis laneIdx false false NoAction 5000 9999 None 9999.

Definition analyzeLane (laneIdx : Z) (range : Q) (e : Engine) : LaneAnalysis :=
  let laneObs := stableSort byZDescending
                   (filter (laneFilter laneIdx range) (obstacles e)) in
  let a := fold_left (scanStep (isJumping e) (isRolling e)) laneObs
             (analysisInit laneIdx) in
  if (laneIdx =? 0)%Z then set_la_score (la_score a + 10) a else a.

(** ** Navigator *)

(** [analysis.find(a => a.lane === l)] *)
Definition findLane (l : Z) (analysis : list LaneAnalysis) : option LaneAnalysis :=
  find (fun a => (la_lane a =? l)%Z) analysis.

(** [(a, b) => b.score - a.score] is not positive. *)
Definition byScoreDescending (a b : LaneAnalysis) : bool :=
  Qle_bool (la_score b) (la_score a).

(** [(a, b) => a.lane - b.lane] is not positive. *)
Definition byLaneAscending (a b : LaneAnalysis) : bool := (la_lane a <=? la_lane b)%Z.

(** The emergency branch: the lane and the action label it settles on. *)
Definition emergencyDecision (cur : Z) (analysis : list LaneAnalysis)
  (currentLaneStats bestLaneAnalysis : LaneAnalysis) : option (Z * AIAction) :=
  if negb (la_lane bestLaneAnalysis =? cur)%Z then
    let diff := (la_lane bestLaneAnalysis - cur)%Z in
    let direction := if (0 <? diff)%Z then 1%Z else (-1)%Z in
    let nextStepLane := (cur + direction)%Z in
    match findLane nextStepLane analysis with
    | None => None
    | Some nextStepAnalysis =>
        if negb (la_isBlockedSide nextStepAnalysis) then
          let isSafer :=
            Qltb 20 (la_firstSolidDist nextStepAnalysis) &&
            Qltb (la_firstSolidDist currentLaneStats)
                 (la_firstSolidDist nextStepAnalysis) in
          let isSafe := Qltb 30 (la_firstSolidDist nextStepAnalysis) in
          if isSafe || isSafer then Some (nextStepLane, DODGE)
          else Some (cur, SCANNING)
        else Some (cur, SCANNING)
    end
  else Some (cur, SCANNING).

(** The optimization branch: lane, action label and the engine with the
    cooldown it may have reset. *)
Definition optimizationDecision (analysis : list LaneAnalysis)
  (currentLaneStats bestLaneAnalysis : LaneAnalysis) (e : Engine)
  : option (Z * AIAction * Engine) :=
  let stay := Some (currentLane e, SCANNING, e) in
  if (aiLaneChangeCooldown e <=? 0)%Z then
    if Qltb (la_score currentLaneStats + 50) (la_score bestLaneAnalysis) &&
       Qltb 300 (la_firstSolidDist bestLaneAnalysis) then
      match findLane (la_lane bestLaneAnalysis) analysis with
      | None => None
      | Some targetStats =>
          if negb (la_isBlockedSide targetStats)
          then Some (la_lane bestLaneAnalysis, RUN, set_aiLaneChangeCooldown 20%Z e)
          else stay
      end
    else stay
  else stay.

(** The reflex of the action-execution block. *)
Definition executeReflex (effectiveLaneStats : LaneAnalysis) (aiAction : AIAction)
  (e : Engine) : AIAction * Engine :=
  let dist := la_distanceToThreat effectiveLaneStats in
  let timeToImpactFrames := dist / gameSpeed e in
  let inWindow := Qltb timeToImpactFrames 25 && Qltb 5 timeToImpactFrames in
  match la_action effectiveLaneStats with
  | NoAction => (aiAction, e)
  | NeedJump => if inWindow then (ACT_JUMP, jump e) else (aiAction, e)
  | NeedDuck => if inWindow then (ACT_DUCK, roll e) else (aiAction, e)
  end.

Definition updateAI (e0 : Engine) : option Engine :=
  let e1 := if (0 <? aiLaneChangeCooldown e0)%Z
            then set_aiLaneChangeCooldown (aiLaneChangeCooldown e0 - 1)%Z e0
            else e0 in
  let currentSpeed := gameSpeed e1 in
  let visionRange := 800 + currentSpeed * 400 in
  let analysis := map (fun l => analyzeLane l visionRange e1) [-1; 0; 1]%Z in
  match findLane (currentLane e1) analysis with
  | None => None
  | Some currentLaneStats =>
      let sorted := stableSort byScoreDescending analysis in
      match sorted with
      | [] => None
      | bestLaneAnalysis :: _ =>
          let isEmergency :=
            Qltb (la_firstSolidDist currentLaneStats) (100 + currentSpeed * 20) in
          let decision :=
            if isEmergency then
              match emergencyDecision (currentLane e1) sorted
                      currentLaneStats bestLaneAnalysis with
              | None => None
              | Some (t, act) => Some (t, act, set_aiLaneChangeCooldown 0%Z e1)
              end
            else optimizationDecision sorted currentLaneStats bestLaneAnalysis e1 in
          match decision with
          | None => None
          | Some (targetLane, aiAction, e2) =>
              let e3 := if negb (targetLane =? currentLane e2)%Z
                        then setLane targetLane e2 else e2 in
              match findLane (currentLane e3) sorted with
              | None => None
              | Some effectiveLaneStats =>
                  let '(aiAction', e4) :=
                    executeReflex effectiveLaneStats aiAction e3 in
                  Some (set_events
                          (AIUpdate
                             (mkAIState (autoPilotEnabled e4) (currentLane e4)
                                targetLane aiAction'
                                (if isEmergency then 20%Z else 100%Z)
                                (Qfloor (la_distanceToThreat currentLaneStats))
                                (map la_score (stableSort byLaneAscending sorted)))
                           :: events e4) e4)
              end
          end
      end
  end.

(** ** The frame update *)

(** Lane easing, jump arc and roll timer. *)
Definition physics (e : Engine) : Engine :=
  let e1 := set_targetX (inject_Z (currentLane e) * laneWidth) e in
  let lerpFactor := if autoPilotEnabled e1 then 0.8 else 0.3 in
  let x1 := playerX e1 + (targetX e1 - playerX e1) * lerpFactor in
  let x2 := if autoPilotEnabled e1 && Qltb (Qabs (x1 - targetX e1)) 0.2
            then targetX e1
            else if negb (autoPilotEnabled e1) && Qltb (Qabs (x1 - targetX e1)) 0.05
                 then targetX e1
                 else x1 in
  let e2 := set_playerX x2 e1 in
  if isJumping e2 then
    let e3 := set_playerY (playerY e2 + playerVelocityY e2) e2 in
    let e4 := set_playerVelocityY (playerVelocityY e3 - gravity) e3 in
    if Qle_bool (playerY e4) playerBaseY
    then set_playerVelocityY 0 (set_isJumping false (set_playerY playerBaseY e4))
    else e4
  else
    if isRolling e2 then
      let e3 := set_rollTimer (rollTimer e2 - 1)%Z e2 in
      if (rollTimer e3 <=? 0)%Z then set_isRolling false e3 else e3
    else e2.

(** The contact test of the obstacle loop, on an obstacle already moved. *)
Definition inContact (o : Obstacle) (e : Engine) : bool :=
  let dx := Qabs (pos_x o - playerX e) in
  let dz := pos_z o in
  Qltb (-1.0) dz && Qltb dz 1.0 && Qltb dx 1.2.

Definition set_active (v : bool) (o : Obstacle) : Obstacle :=
  mkObstacle (pos_x o) (pos_z o) v (lane o) (collisionType o).

Definition set_pos_z (v : Q) (o : Obstacle) : Obstacle :=
  mkObstacle (pos_x o) v (active o) (lane o) (collisionType o).

(** One iteration of the obstacle loop, up to the removal test: the obstacle
    advances, and an active obstacle in contact is collected or judged. *)
Definition collide (obs0 : Obstacle) (e : Engine) : Engine * Obstacle :=
  let obs := set_pos_z (pos_z obs0 + gameSpeed e) obs0 in
  if active obs && inContact obs e then
    match collisionType obs with
    | COIN => (set_score (score e + 500)%Z e, set_active false obs)
    | kind =>
        let safe :=
          match kind with
          | JUMP => Qltb 1.2 (playerY e)
          | DUCK => isRolling e
          | _ => false
          end in
        if negb safe then (gameOver e, obs) else (e, obs)
    end
  else (e, obs).

(** The loop runs from the last index down to the first; an obstacle whose
    [z] exceeds 15 is spliced out, which does not disturb lower indices. *)
Fixpoint scanObstacles (l : list Obstacle) (e : Engine) : Engine * list Obstacle :=
  match l with
  | [] => (e, [])
  | obs0 :: rest =>
      let '(e1, rest') := scanObstacles rest e in
      let '(e2, obs) := collide obs0 e1 in
      (e2, if Qltb 15 (pos_z obs) then rest' else obs :: rest')
  end.

Definition spawnZ : Q := -180.
Definition minGap (e : Engine) : Q := 50 + gameSpeed e * 30.

(** [this.obstacles[this.obstacles.length - 1]] *)
Fixpoint lastObstacle (l : list Obstacle) : option Obstacle :=
  match l with
  | [] => None
  | [o] => Some o
  | _ :: rest => lastObstacle rest
  end.

(** [!lastObs || lastObs.position.z > spawnZ + minGap] *)
Definition spawnDue (e : Engine) : bool :=
  match lastObstacle (obstacles e) with
  | None => true
  | Some lastObs => Qltb (spawnZ + minGap e) (pos_z lastObs)
  end.

(** [update] up to the end of the obstacle loop: clock, navigator, physics
    and collisions. *)
Definition updateWorld (e0 : Engine) : option Engine :=
  let e1 := set_gameSpeed (Qmin maxSpeed (gameSpeed e0 + speedIncrement)) e0 in
  let e2 := set_distanceTraveled (distanceTraveled e1 + gameSpeed e1) e1 in
  let e3 := set_score (Qfloor (distanceTraveled e2 * 10)) e2 in
  let e4 := set_events (ScoreChange (score e3) :: events e3) e3 in
  match (if autoPilotEnabled e4 then updateAI e4 else Some e4) with
  | None => None
  | Some e5 =>
      let e6 := physics e5 in
      let '(e7, obs') := scanObstacles (obstacles e6) e6 in
      Some (set_obstacles obs' e7)
  end.

(** [update]: the world update followed by the spawn gate. *)
Definition update (d : RowDraws) (e0 : Engine) : option Engine :=
  match updateWorld e0 with
  | None => None
  | Some e8 => Some (if spawnDue e8 then spawnObstacleRow spawnZ d e8 else e8)
  end.

(** [animate] is the frame callback: it does nothing outside [PLAYING]. *)
Definition animate (d : RowDraws) (e : Engine) : option Engine :=
  match state e with
  | PLAYING => update d e
  | _ => Some e
  end.

(** [start] resets the run and performs the first frame at once. *)
Definition start (d : RowDraws) (e : Engine) : option Engine :=
  match state e with
  | PLAYING => Some e
  | _ =>
      let e1 := set_score 0%Z e in
      let e2 := set_distanceTraveled 0 e1 in
      let e3 := set_gameSpeed startSpeed e2 in
      let e4 := set_currentLane 0%Z e3 in
      let e5 := set_lastSafeLane 0%Z e4 in
      let e6 := set_playerVelocityY 0 e5 in
      let e7 := set_isJumping false e6 in
      let e8 := set_isRolling false e7 in
      let e9 := set_aiLaneChangeCooldown 0%Z e8 in
      let e10 := set_obstacles [] e9 in
      let e11 := set_playerY 1 (set_playerX 0 e10) in
      animate d (set_state PLAYING e11)
  end.

(** The engine as the constructor leaves it. *)
Definition engine0 : Engine :=
  mkEngine MENU 0%Z 0 0 0%Z 0 0 false false 0%Z 0 1 false 0%Z 0%Z [] [].

(** ** Runs: the control surface and the frame callback

    The inputs are the methods the application calls ([start], [moveLeft],
    [moveRight], [jump], [roll], [toggleAutoPilot]) and the firing of the
    frame callback.  [setLane] is public too, but only the navigator calls
    it. *)

Inductive Input : Type :=
| Start (d : RowDraws)
| MoveLeft
| MoveRight
| DoJump
| DoRoll
| ToggleAutoPilot (v : bool)
| Frame (d : RowDraws).

Definition exec (i : Input) (e : Engine) : option Engine :=
  match i with
  | Start d => start d e
  | MoveLeft => Some (moveLeft e)
  | MoveRight => Some (moveRight e)
  | DoJump => Some (jump e)
  | DoRoll => Some (roll e)
  | ToggleAutoPilot v => Some (toggleAutoPilot v e)
  | Frame d => animate d e
  end.

Fixpoint run (inputs : list Input) (e : Engine) : option Engine :=
  match inputs with
  | [] => Some e
  | i :: rest =>
      match exec i e with
      | None => None
      | Some e' => run rest e'
      end
  end.

(** ** Concrete draws used by the examples *)

Definition draw (q : Q) (H : Qle_bool 0 q && Qltb q 1 = true) : Unit01 :=
  mkUnit01 q H.

(** Every placement test succeeds, every obstacle is a jump barrier, and the
    safe lane is the last candidate. *)
Definition drawsDense : RowDraws :=
  mkRowDraws (draw 0.9 eq_refl) (fun _ => draw 0.1 eq_refl) (fun _ => draw 0.1 eq_refl).

(** ** Specification vocabulary *)

Definition validLane (l : Z) : Prop := (-1 <= l <= 1)%Z.

Definition isStart (i : Input) : bool :=
  match i with Start _ => true | _ => false end.

Definition gameOverCount (evs : list Event) : nat :=
  length (filter (fun ev => match ev with GameOver _ => true | _ => false end) evs).

(** The survival rule of the hazard catalog, in the words of the
    specification: a jump barrier is survived above the clearance height, a
    duck barrier while rolling, a solid never; a coin is harmless. *)
Definition survives (kind : CollisionType) (y : Q) (rolling : bool) : Prop :=
  match kind with
  | JUMP => 1.2 < y
  | DUCK => rolling = true
  | SOLID => False
  | COIN => True
  end.

(** Contact of the player with an active array entry during a frame: the
    entry's longitudinal position after this frame's advance lies within the
    half-width window and its lateral distance from the player's x within the
    hitbox radius. *)
Definition contact (o : Obstacle) (e : Engine) : Prop :=
  active o = true /\
  -1 < pos_z o + gameSpeed e /\ pos_z o + gameSpeed e < 1 /\
  Qabs (pos_x o - playerX e) < 1.2.

Definition fatalContact (o : Obstacle) (e : Engine) : Prop :=
  contact o e /\ collisionType o <> COIN /\
  ~ survives (collisionType o) (playerY e) (isRolling e).

(** The same, as the test the loop performs. *)
Definition fatalb (o : Obstacle) (e : Engine) : bool :=
  active o && inContact (set_pos_z (pos_z o + gameSpeed e) o) e &&
  match collisionType o with
  | COIN => false
  | JUMP => negb (Qltb 1.2 (playerY e))
  | DUCK => negb (isRolling e)
  | SOLID => true
  end.

(** Number of fatal contacts in the array during a frame. *)
Fixpoint fatalCount (l : list Obstacle) (e : Engine) : nat :=
  match l with
  | [] => O
  | o :: rest => ((if fatalb o e then 1 else 0) + fatalCount rest e)%nat
  end.

(** What the obstacle loop may change in the engine: score, state, events. *)
Definition scanFrame (e e' : Engine) : Prop :=
  exists s sc ev, e' = set_events ev (set_state s (set_score sc e)).

(** An entry after a frame, compared with the entry it was. *)
Definition movedFrom (speed : Q) (o o' : Obstacle) : Prop :=
  pos_z o' = pos_z o + speed /\ pos_x o' = pos_x o /\
  lane o' = lane o /\ collisionType o' = collisionType o.

(** Order of two entries of the obstacle array, the first at the lower index:
    they are of one row (same position, lanes in spawn order), or the row of
    the first is more than 50 ahead of the second. *)
Definition rowOrder (a b : Obstacle) : Prop :=
  (pos_z a == pos_z b /\ (lane a < lane b)%Z) \/ pos_z b + 50 < pos_z a.

Definition onLane (o : Obstacle) : Prop :=
  pos_x o == inject_Z (lane o) * laneWidth.

(** Invariant of the states the engine can reach. *)
Record Inv (e : Engine) : Prop := mkInv {
  inv_mutex : isJumping e && isRolling e = false;
  inv_lane : validLane (currentLane e);
  inv_safe : validLane (lastSafeLane e);
  inv_speed : 0 <= gameSpeed e <= maxSpeed;
  inv_started : state e <> MENU -> startSpeed <= gameSpeed e;
  inv_rows : StronglySorted rowOrder (obstacles e);
  inv_onLane : Forall onLane (obstacles e)
}.

(** A short run used to instantiate the theorems: the first frame spawns a
    row, the player rolls, one more frame passes. *)
Definition inputsDemo : list Input := [Start drawsDense; DoRoll; Frame drawsDense].

(** The state [inputsDemo] leads to. *)
Definition engineDemo : Engine :=
  Eval vm_compute in
    match run inputsDemo engine0 with Some e => e | None => engine0 end.

(** The sentinel score of an impossible lane. *)
Definition sentinel : Q := -999999.

(** A hazard that blocks the side: not a coin, inside the side-swipe window. *)
Definition sideHazard (o : Obstacle) : bool :=
  inSideWindow (pos_z o) && negb (isCoin o).

(** Number of coins among the entries [analyzeLane] scans for a lane. *)
Definition coinsInLane (laneIdx : Z) (range : Q) (e : Engine) : nat :=
  length (filter isCoin (filter (laneFilter laneIdx range) (obstacles e))).

(** The centre-lane bonus. *)
Definition centreBonus (laneIdx : Z) : Q := if (laneIdx =? 0)%Z then 10 else 0.

(** A reachable-shaped state for the lane analyzer: a solid just passed in
    lane 1, still inside the side-swipe window, and a coin of the next row. *)
Definition engineSideBlocked : Engine :=
  mkEngine PLAYING 1791%Z 179.151 0.657 0%Z 0 0 false false 0%Z 0 1 true 1%Z 0%Z
    [mkObstacle 4 3 true 1%Z SOLID; mkObstacle 4 (-70) true 1%Z COIN] [].

(** Draws for which a row places nothing: the safe lane gets no coin and the
    other lanes no obstacle. *)
Definition drawsSparse : RowDraws :=
  mkRowDraws (draw 0.9 eq_refl) (fun _ => draw 0.95 eq_refl) (fun _ => draw 0.1 eq_refl).

(** A coin of the player's lane one frame before it enters the contact
    window, 285 frames into a run. *)
Definition engineCoin : Engine :=
  mkEngine PLAYING 1791%Z 179.151 0.657 0%Z 0 0 false false 0%Z 0 1 false 0%Z 0%Z
    [mkObstacle 0 (-1.4492) true 0%Z COIN] [].

(** A solid of the player's lane one frame before it enters the contact
    window. *)
Definition engineWall : Engine :=
  mkEngine PLAYING 1791%Z 179.151 0.657 0%Z 0 0 false false 0%Z 0 1 false 1%Z 0%Z
    [mkObstacle 0 (-1.4492) true 0%Z SOLID] [].

(** ** Further vocabulary: phases of a frame and more invariants *)

(** The first four statements of [update]: speed, distance, score and the
    score notification. *)
Definition clockTick (e0 : Engine) : Engine :=
  let e1 := set_gameSpeed (Qmin maxSpeed (gameSpeed e0 + speedIncrement)) e0 in
  let e2 := set_distanceTraveled (distanceTraveled e1 + gameSpeed e1) e1 in
  let e3 := set_score (Qfloor (distanceTraveled e2 * 10)) e2 in
  set_events (ScoreChange (score e3) :: events e3) e3.

(** The navigator phase of [update]. *)
Definition navigate (e : Engine) : option Engine :=
  if autoPilotEnabled e then updateAI e else Some e.

(** The obstacle loop with its result stored back in the array. *)
Definition scanPhase (e : Engine) : Engine :=
  set_obstacles (snd (scanObstacles (obstacles e) e))
                (fst (scanObstacles (obstacles e) e)).

(** More facts about the states the engine can reach. *)
Record Inv2 (e : Engine) : Prop := mkInv2 {
  inv_ground : playerBaseY <= playerY e;
  inv_grounded : isJumping e = false -> playerY e = playerBaseY;
  inv_roll : isRolling e = true -> (0 < rollTimer e <= 40)%Z;
  inv_dist : 0 <= distanceTraveled e;
  inv_band : Forall (fun o => spawnZ <= pos_z o <= 15) (obstacles e);
  inv_hazards : Forall (fun o => collisionType o <> COIN -> active o = true)
                       (obstacles e);
  inv_lanes : Forall (fun o => validLane (lane o)) (obstacles e)
}.

(** The part of the player state the jump arc lives in. *)
Definition jumpFields (e : Engine) : Q * Q * bool :=
  (playerY e, playerVelocityY e, isJumping e).

(** One frame of the jump arc on those fields alone. *)
Definition arcStep (s : Q * Q * bool) : Q * Q * bool :=
  let '(y, vy, jumping) := s in
  if jumping then
    if Qle_bool (y + vy) playerBaseY then (playerBaseY, 0, false)
    else (y + vy, vy - gravity, true)
  else s.

(** The jump arc right after take-off from the ground. *)
Definition arcStart : Q * Q * bool := (playerBaseY, jumpForce, true).

(** A state of the arc that is airborne, above the clearance height of the
    collision rule and not above the apex. *)
Definition arcAirborne (s : Q * Q * bool) : bool :=
  let '(y, _, jumping) := s in jumping && Qltb 1.2 y && Qle_bool y 4.8.

(** The next [n] states of the arc are all airborne. *)
Fixpoint arcAirborneFor (n : nat) (s : Q * Q * bool) : bool :=
  match n with
  | O => true
  | S m => arcAirborne (arcStep s) && arcAirborneFor m (arcStep s)
  end.

(** The lane-easing factor of [update]. *)
Definition lerpFactor (e : Engine) : Q := if autoPilotEnabled e then 0.8 else 0.3.

(** The snap distance of [update]. *)
Definition snapEpsilon (e : Engine) : Q := if autoPilotEnabled e then 0.2 else 0.05.

(** The test of the obstacle loop for an active entry in contact, on the
    entry before this frame's advance. *)
Definition hitb (o : Obstacle) (e : Engine) : bool :=
  active o && inContact (set_pos_z (pos_z o + gameSpeed e) o) e.

(** An entry the lane analyzer scans for lane [laneIdx]: active, of that lane,
    inside the lookahead range and not more than 10 behind the player. *)
Definition scanned (laneIdx : Z) (range : Q) (e : Engine) (o : Obstacle) : Prop :=
  In o (obstacles e) /\ active o = true /\ lane o = laneIdx /\
  - range < pos_z o /\ pos_z o < 10.

(** A solid ahead of the player. *)
Definition solidAhead (o : Obstacle) : bool :=
  CollisionType_eqb (collisionType o) SOLID && Qltb (pos_z o) 0.

(** The reflex a kind of barrier asks for. *)
Definition reflexOfKind (k : CollisionType) : Reflex :=
  match k with
  | JUMP => NeedJump
  | DUCK => NeedDuck
  | _ => NoAction
  end.

(** The reflex an entry asks for when it is processed: that of its kind if it
    is ahead of the player. *)
Definition reflexOf (o : Obstacle) : Reflex :=
  if Qltb (pos_z o) 0 then reflexOfKind (collisionType o) else NoAction.

(** The reflex of the first entry of a list that asks for one. *)
Fixpoint firstReflex (l : list Obstacle) : Reflex :=
  match l with
  | [] => NoAction
  | o :: rest =>
      match reflexOf o with
      | NoAction => firstReflex rest
      | x => x
      end
  end.

(** The lookahead range of [updateAI]. *)
Definition visionRange (e : Engine) : Q := 800 + gameSpeed e * 400.

(** The analysis of a lane as [updateAI] computes it in state [e]. *)
Definition laneStats (l : Z) (e : Engine) : LaneAnalysis :=
  analyzeLane l (visionRange e) e.

(** The emergency test of [updateAI]. *)
Definition isEmergency (e : Engine) : bool :=
  Qltb (la_firstSolidDist (laneStats (currentLane e) e)) (100 + gameSpeed e * 20).

(** The cooldown after the decrement at the head of [updateAI]. *)
Definition cooldownAfterTick (e : Engine) : Z :=
  if (0 <? aiLaneChangeCooldown e)%Z then (aiLaneChangeCooldown e - 1)%Z
  else aiLaneChangeCooldown e.

(** ** The application's view of the telemetry ([App]) *)

From Stdlib Require String.
Import String.StringSyntax.
Delimit Scope string_scope with string.

(** [getAIReason], on the telemetry the component last received. *)
Definition getAIReason (aiState : AIState) : String.string :=
  if (ai_confidence aiState =? 0)%Z then "PANIC: EVASIVE MANEUVERS"%string
  else match ai_action aiState with
       | DODGE => "AVOIDING SOLID OBSTACLE"%string
       | act =>
           if negb (ai_targetLane aiState =? ai_currentLane aiState)%Z
           then "OPTIMIZING PATH (COINS)"%string
           else match act with
                | ACT_JUMP => "DETECTED BARRIER - JUMPING"%string
                | ACT_DUCK => "DETECTED OVERHEAD - ROLLING"%string
                | _ => "CRUISING"%string
                end
       end.

(** [getLaneColor], the style classes of a lane marker. *)
Definition getLaneColor (aiState : AIState) (laneIdx : Z) : String.string :=
  if (laneIdx =? ai_targetLane aiState)%Z
  then "bg-cyan-400 shadow-[0_0_10px_#0ff]"%string
  else if (laneIdx =? ai_currentLane aiState)%Z then "bg-white/50"%string
       else "bg-gray-800/50"%string.

(** ** States used to instantiate the navigator theorems *)

(** Autopilot engaged in the left lane, one row far ahead: barriers in the
    left and centre lanes, a coin on the right. *)
Definition engineAuto : Engine :=
  Eval vm_compute in
    match run [Start drawsDense; MoveLeft; ToggleAutoPilot true] engine0 with
    | Some e => clockTick e
    | None => engine0
    end.

Definition engineAutoNext : Engine :=
  Eval vm_compute in
    match updateAI engineAuto with Some e => e | None => engineAuto end.

(** Autopilot in the centre lane with a solid 60 ahead and clear side lanes. *)
Definition engineEmergency : Engine :=
  mkEngine PLAYING 1200%Z 120.03 0.64 0%Z 0 0 false false 0%Z 0 1 true 1%Z 7%Z
    [mkObstacle 0 (-60) true 0%Z SOLID] [].

Definition engineEmergencyNext : Engine :=
  Eval vm_compute in
    match updateAI engineEmergency with Some e => e | None => engineEmergency end.

(** The scores passed to [onScoreChange], newest first. *)
Fixpoint scoreReports (evs : list Event) : list Z :=
  match evs with
  | [] => []
  | ScoreChange s :: rest => s :: scoreReports rest
  | _ :: rest => scoreReports rest
  end.

(** The state after the frame in which [engineWall] hits the solid. *)
Definition engineWallNext : Engine :=
  Eval vm_compute in
    match update drawsSparse engineWall with Some e => e | None => engineWall end.

(** ** World recycler

    The ring of ground segments is kept apart from [Engine]: the simulation
    never reads it.  A segment is represented by its [position.z]. *)






(** ** Touch input ([App.handleTouchEnd]) *)

(** The command a swipe from [(x0, y0)] to [(x1, y1)] is turned into; [playing]
    is the component's [gameState === PLAYING]. *)
Definition touchCommand (playing : bool) (x0 y0 x1 y1 : Q) : option Input :=
  if negb playing then None
  else
    let diffX := x1 - x0 in
    let diffY := y1 - y0 in
    if Qltb (Qabs diffY) (Qabs diffX) then
      if Qltb 30 (Qabs diffX)
      then (if Qltb 0 diffX then Some MoveRight else Some MoveLeft)
      else None
    else
      if Qltb 30 (Qabs diffY)
      then (if Qltb diffY 0 then Some DoJump else Some DoRoll)
      else None.

(** The conditions on the draws under which a row that chose safe lane [s]
    holds an entry of kind [k] in lane [l]. *)
Definition rowPlaces (d : RowDraws) (s l : Z) (k : CollisionType) : Prop :=
  (l = s /\ k = COIN /\ placeDraw d l < 0.3) \/
  (l <> s /\ placeDraw d l < 0.8 /\
   ((k = JUMP /\ typeDraw d l < 0.25) \/
    (k = DUCK /\ 0.25 <= typeDraw d l < 0.5) \/
    (k = SOLID /\ 0.5 <= typeDraw d l))).

(** A hazard (not a coin) ahead of the player. *)
Definition hazardAhead (o : Obstacle) : bool :=
  negb (isCoin o) && Qltb (pos_z o) 0.

(** Every row of the array leaves a lane without a hazard: for each entry
    there is a lane in which the entries at the same position are coins. *)
Definition rowsPassable (l : list Obstacle) : Prop :=
  forall o, In o l ->
    exists s, validLane s /\
      forall o', In o' l -> pos_z o' == pos_z o -> lane o' = s ->
                 collisionType o' = COIN.

(** ** The terminal transition *)





(** * Properties *)

(** ** Comparisons and draws *)

Lemma Qltb_iff (x y : Q) : Qltb x y = true <-> x < y.
Proof.
  unfold Qltb. rewrite negb_true_iff, <- not_true_iff_false, Qle_bool_iff.
  split; [apply Qnot_le_lt | apply Qlt_not_le].
Qed.

Lemma Qltb_false_iff (x y : Q) : Qltb x y = false <-> y <= x.
Proof.
  unfold Qltb. rewrite negb_false_iff. apply Qle_bool_iff.
Qed.

Lemma Qle_bool_false_iff (x y : Q) : Qle_bool x y = false <-> y < x.
Proof.
  rewrite <- not_true_iff_false, Qle_bool_iff.
  split; [apply Qnot_le_lt | apply Qlt_not_le].
Qed.

Lemma Unit01_range (r : Unit01) : 0 <= r /\ r < 1.
Proof.
  destruct r as [q H]; simpl. apply andb_true_iff in H.
  now rewrite Qle_bool_iff, Qltb_iff in H.
Qed.

Lemma CollisionType_eqb_eq (a b : CollisionType) :
  CollisionType_eqb a b = true <-> a = b.
Proof. destruct a, b; simpl; split; congruence. Qed.

(** ** Controls: jump and roll *)

(** C4 as stated fails: a jump issued while rolling cancels the roll. *)
Lemma C4_jump_cancels_roll :
  exists e,
    run [Start drawsDense; DoRoll] engine0 = Some e /\
    isJumping e = false /\ isRolling e = true /\
    isJumping (jump e) = true /\ isRolling (jump e) = false /\
    playerVelocityY (jump e) == jumpForce.
Proof.
  eexists. split; [vm_compute; reflexivity |].
  vm_compute. repeat split; congruence.
Qed.

(** C4 (amended): [jump] changes nothing while jumping and [roll] changes
    nothing while jumping or rolling; a jump issued while rolling (and not
    jumping) starts the jump and ends the roll, leaving the roll timer. *)
Theorem C4_jump_roll_noop (e : Engine) :
  (isJumping e = true -> jump e = e) /\
  (isJumping e = true \/ isRolling e = true -> roll e = e) /\
  (isJumping e = false -> isRolling e = true ->
     isJumping (jump e) = true /\ isRolling (jump e) = false /\
     playerVelocityY (jump e) = jumpForce /\ rollTimer (jump e) = rollTimer e).
Proof.
  unfold jump, roll. repeat split.
  - intros ->. reflexivity.
  - intros [-> | ->]; [reflexivity | now rewrite andb_false_r].
  - rewrite H. reflexivity.
  - rewrite H. reflexivity.
  - rewrite H. reflexivity.
  - rewrite H. reflexivity.
Qed.

Lemma C4_jump_roll_noop_witness :
  roll (jump engine0) = jump engine0 /\ jump (jump engine0) = jump engine0 /\
  isRolling (jump (roll engine0)) = false.
Proof.
  split; [| split].
  - apply (proj1 (proj2 (C4_jump_roll_noop (jump engine0)))). left. reflexivity.
  - apply (proj1 (C4_jump_roll_noop (jump engine0))). reflexivity.
  - apply (proj2 (proj2 (C4_jump_roll_noop (roll engine0)))); reflexivity.
Defined.

(** ** Spawner: the safe lane *)

Lemma pickIndex_spec (r : Q) (n i : nat) :
  0 <= r ->
  pickIndex r n = i <->
  inject_Z (Z.of_nat i) <= r * inject_Z (Z.of_nat n) < inject_Z (Z.of_nat i) + 1.
Proof.
  intros Hr. unfold pickIndex.
  set (x := r * inject_Z (Z.of_nat n)).
  assert (Hx : 0 <= x).
  { unfold x. apply Qmult_le_0_compat; [assumption |].
    change 0 with (inject_Z 0). rewrite <- Zle_Qle. lia. }
  assert (Hf : (0 <= Qfloor x)%Z).
  { change 0%Z with (Qfloor (inject_Z 0)) at 1. now apply Qfloor_resp_le. }
  pose proof (Qfloor_le x) as Hlo. pose proof (Qlt_floor x) as Hhi.
  rewrite inject_Z_plus in Hhi. change (inject_Z 1) with 1 in Hhi.
  split.
  - intros <-. rewrite Z2Nat.id by assumption. split; assumption.
  - intros [H1 H2].
    assert (Qfloor x = Z.of_nat i) as ->; [| apply Nat2Z.id].
    apply Z.le_antisymm.
    + apply Z.lt_succ_r. rewrite Zlt_Qlt. unfold Z.succ. rewrite inject_Z_plus.
      change (inject_Z 1) with 1. lra.
    + rewrite <- (Qfloor_Z (Z.of_nat i)). now apply Qfloor_resp_le.
Qed.

Lemma pickIndex_lt (r : Unit01) (n : nat) : (0 < n)%nat -> (pickIndex r n < n)%nat.
Proof.
  intros Hn. destruct (Unit01_range r) as [H0 H1].
  destruct (pickIndex_spec r n (pickIndex r n) H0) as [H _].
  specialize (H eq_refl). destruct H as [Hlo _].
  assert (Hnq : 0 < inject_Z (Z.of_nat n)).
  { change 0 with (inject_Z 0). rewrite <- Zlt_Qlt. lia. }
  assert (Hlt : inject_Z (Z.of_nat (pickIndex r n)) < inject_Z (Z.of_nat n)).
  { eapply Qle_lt_trans; [exact Hlo |].
    rewrite <- (Qmult_1_l (inject_Z (Z.of_nat n))) at 2.
    apply Qmult_lt_compat_r; assumption. }
  rewrite <- Zlt_Qlt in Hlt. lia.
Qed.

Lemma spawnLane_lastSafeLane z d s e l :
  lastSafeLane (spawnLane z d s e l) = lastSafeLane e.
Proof.
  unfold spawnLane, spawnCoin, createObstacleAt.
  destruct (l =? s)%Z; [destruct (Qltb _ 0.3) | destruct (Qltb _ 0.8)]; reflexivity.
Qed.

Lemma spawnObstacleRow_lastSafeLane z d e :
  lastSafeLane (spawnObstacleRow z d e) = pickSafeLane (pickDraw d) (lastSafeLane e).
Proof.
  unfold spawnObstacleRow. simpl. now rewrite !spawnLane_lastSafeLane.
Qed.



(** ** The obstacle loop *)

Lemma scanFrame_refl e : scanFrame e e.
Proof. exists (state e), (score e), (events e). now destruct e. Qed.

Lemma scanFrame_trans e1 e2 e3 : scanFrame e1 e2 -> scanFrame e2 e3 -> scanFrame e1 e3.
Proof.
  intros (s & sc & ev & ->) (s' & sc' & ev' & ->).
  exists s', sc', ev'. now destruct e1.
Qed.

Lemma scanFrame_fields e e' :
  scanFrame e e' ->
  gameSpeed e' = gameSpeed e /\ playerX e' = playerX e /\ playerY e' = playerY e /\
  isRolling e' = isRolling e /\ isJumping e' = isJumping e /\
  currentLane e' = currentLane e /\ lastSafeLane e' = lastSafeLane e /\
  autoPilotEnabled e' = autoPilotEnabled e /\ obstacles e' = obstacles e.
Proof. intros (s & sc & ev & ->). now destruct e. Qed.

Lemma collide_frame o e : scanFrame e (fst (collide o e)).
Proof.
  unfold collide.
  destruct (active _ && inContact _ e); [| apply scanFrame_refl].
  destruct (collisionType _); simpl;
    try (match goal with |- context [negb ?b] => destruct b end; simpl);
    try apply scanFrame_refl.
  all: try (exists GAME_OVER, (score e), (GameOver (score e) :: events e);
            now destruct e).
  exists (state e), (score e + 500)%Z, (events e). now destruct e.
Qed.

Lemma scanObstacles_frame l e : scanFrame e (fst (scanObstacles l e)).
Proof.
  induction l as [| o rest IH]; simpl; [apply scanFrame_refl |].
  destruct (scanObstacles rest e) as [e1 rest'].
  pose proof (collide_frame o e1) as Hc.
  destruct (collide o e1) as [e2 obs]. simpl in *.
  eapply scanFrame_trans; eassumption.
Qed.

Lemma fatalb_frame o e e' : scanFrame e e' -> fatalb o e' = fatalb o e.
Proof.
  intros (s & sc & ev & ->). now destruct e.
Qed.

Lemma collide_moved o e : movedFrom (gameSpeed e) o (snd (collide o e)).
Proof.
  unfold collide, movedFrom.
  destruct (active _ && inContact _ e); [| now simpl].
  destruct (collisionType (set_pos_z _ o)) eqn:Hk; simpl in *;
    try (match goal with |- context [negb ?b] => destruct b end; simpl);
    auto.
Qed.

(** Effect of one iteration on state and notifications. *)
Lemma collide_effect o e :
  let e' := fst (collide o e) in
  (fatalb o e = true ->
     state e' = GAME_OVER /\ events e' = GameOver (score e) :: events e /\
     score e' = score e) /\
  (fatalb o e = false -> state e' = state e /\ events e' = events e).
Proof.
  unfold collide, fatalb.
  destruct (active (set_pos_z _ o) && inContact _ e) eqn:Hc;
    simpl in Hc; rewrite Hc; simpl; [| split; [discriminate | auto]].
  destruct (collisionType o); simpl;
    try (match goal with |- context [negb ?b] => destruct b end; simpl);
    split; intros; try discriminate; auto.
Qed.

Lemma fatalCount_frame l e e' : scanFrame e e' -> fatalCount l e' = fatalCount l e.
Proof.
  intros H. induction l as [| o rest IH]; simpl; [reflexivity |].
  now rewrite IH, (fatalb_frame o e e' H).
Qed.

(** The loop notifies once per fatal contact, and the state is terminal
    exactly when there was one. *)
Lemma scanObstacles_effect l e :
  let e' := fst (scanObstacles l e) in
  gameOverCount (events e') = (gameOverCount (events e) + fatalCount l e)%nat /\
  (fatalCount l e = O -> state e' = state e) /\
  (fatalCount l e <> O -> state e' = GAME_OVER).
Proof.
  induction l as [| o rest IH]; simpl; [repeat split; auto; congruence |].
  pose proof (scanObstacles_frame rest e) as Hf.
  destruct (scanObstacles rest e) as [e1 rest']. simpl in *.
  destruct IH as (IH1 & IH2 & IH3).
  pose proof (collide_effect o e1) as [Hfat Hok].
  rewrite (fatalb_frame o e e1 Hf) in *.
  destruct (collide o e1) as [e2 obs]. simpl in *.
  destruct (fatalb o e) eqn:Hb.
  - destruct (Hfat eq_refl) as (Hs & He & _). rewrite He. simpl.
    unfold gameOverCount in *. simpl. rewrite IH1.
    repeat split; auto; lia.
  - destruct (Hok eq_refl) as (Hs & He). rewrite He, Hs, IH1. simpl.
    repeat split; auto.
Qed.

Lemma inContact_iff o e :
  inContact o e = true <->
  -1 < pos_z o /\ pos_z o < 1 /\ Qabs (pos_x o - playerX e) < 1.2.
Proof.
  unfold inContact. rewrite !andb_true_iff, !Qltb_iff.
  split; intros H; repeat split; try tauto; destruct H as [[H1 H2] H3] || destruct H as (H1 & H2 & H3); lra.
Qed.

Lemma fatalb_iff o e : fatalb o e = true <-> fatalContact o e.
Proof.
  unfold fatalb, fatalContact, contact.
  rewrite !andb_true_iff, inContact_iff. simpl.
  destruct (collisionType o); simpl;
    rewrite ?negb_true_iff, <- ?not_true_iff_false, ?Qltb_iff;
    intuition (try discriminate; try congruence).
Qed.

Lemma collide_autopilot b o e :
  collide o (set_autoPilotEnabled b e) =
  (set_autoPilotEnabled b (fst (collide o e)), snd (collide o e)).
Proof.
  unfold collide.
  replace (inContact (set_pos_z (pos_z o + gameSpeed (set_autoPilotEnabled b e)) o)
             (set_autoPilotEnabled b e))
    with (inContact (set_pos_z (pos_z o + gameSpeed e) o) e) by now destruct e.
  replace (gameSpeed (set_autoPilotEnabled b e)) with (gameSpeed e) by now destruct e.
  destruct (active _ && inContact _ e); [| reflexivity].
  destruct (collisionType _); simpl;
    try (match goal with |- context [negb ?c] => destruct c eqn:? end; simpl);
    try reflexivity.
  all: try (replace (isRolling (set_autoPilotEnabled b e)) with (isRolling e) in * by now destruct e).
  all: try (replace (playerY (set_autoPilotEnabled b e)) with (playerY e) in * by now destruct e).
  all: repeat match goal with H : _ = _ |- _ => rewrite H end; simpl; try reflexivity.
Qed.

Lemma scanObstacles_autopilot b l e :
  scanObstacles l (set_autoPilotEnabled b e) =
  (set_autoPilotEnabled b (fst (scanObstacles l e)), snd (scanObstacles l e)).
Proof.
  induction l as [| o rest IH]; simpl; [reflexivity |].
  rewrite IH. destruct (scanObstacles rest e) as [e1 rest']. simpl.
  rewrite collide_autopilot. destruct (collide o e1) as [e2 obs]. reflexivity.
Qed.

Lemma fatalCount_zero_iff l e :
  fatalCount l e <> O <-> Exists (fun o => fatalContact o e) l.
Proof.
  induction l as [| o rest IH]; simpl.
  - split; [congruence | intros H; inversion H].
  - rewrite Exists_cons, <- IH, <- fatalb_iff.
    destruct (fatalb o e); simpl; intuition (try discriminate; try lia).
Qed.

Lemma collide_safe o e :
  contact o e -> collisionType o <> COIN ->
  (survives (collisionType o) (playerY e) (isRolling e) ->
     collide o e = (e, set_pos_z (pos_z o + gameSpeed e) o)) /\
  (~ survives (collisionType o) (playerY e) (isRolling e) ->
     collide o e = (gameOver e, set_pos_z (pos_z o + gameSpeed e) o)).
Proof.
  intros (Ha & Hz1 & Hz2 & Hx) Hk. unfold collide.
  assert (Hc : inContact (set_pos_z (pos_z o + gameSpeed e) o) e = true).
  { apply inContact_iff. simpl. repeat split; assumption. }
  rewrite Hc. simpl. rewrite Ha. simpl.
  destruct (collisionType o); simpl; try congruence.
  - split; [tauto | reflexivity].
  - destruct (Qltb 1.2 (playerY e)) eqn:Hy; simpl.
    + apply Qltb_iff in Hy. split; [reflexivity | tauto].
    + apply Qltb_false_iff in Hy. split; [intros; lra | reflexivity].
  - destruct (isRolling e); simpl; split; try reflexivity; intros; congruence.
Qed.

(** C1: on contact, a jump barrier is survived iff the player is above the
    clearance height, a duck barrier iff the player is rolling, a solid never;
    a survived contact leaves the engine untouched and any other one is the
    game-over transition; the loop ends in the terminal state exactly when
    some contact was not survived; and the autopilot flag plays no part. *)
Theorem C1_contact_survival (l : list Obstacle) (e : Engine) (o : Obstacle) :
  contact o e -> collisionType o <> COIN ->
  (survives (collisionType o) (playerY e) (isRolling e) <-> fst (collide o e) = e) /\
  (~ survives (collisionType o) (playerY e) (isRolling e) <->
     fst (collide o e) = gameOver e) /\
  (state (fst (scanObstacles l e)) = GAME_OVER <->
     state e = GAME_OVER \/ Exists (fun h => fatalContact h e) l) /\
  (forall b, scanObstacles l (set_autoPilotEnabled b e) =
             (set_autoPilotEnabled b (fst (scanObstacles l e)),
              snd (scanObstacles l e))).
Proof.
  intros Hc Hk. destruct (collide_safe o e Hc Hk) as [Hs Hn].
  assert (Hne : gameOver e <> e).
  { intros H. apply (f_equal events) in H. simpl in H.
    apply (f_equal (@length Event)) in H. simpl in H. lia. }
  assert (Hdec : survives (collisionType o) (playerY e) (isRolling e) \/
                 ~ survives (collisionType o) (playerY e) (isRolling e)).
  { destruct (collisionType o); simpl; try tauto.
    - destruct (Qlt_le_dec 1.2 (playerY e)); [left; assumption | right; lra].
    - destruct (isRolling e); [left; reflexivity | right; congruence]. }
  split; [| split; [| split]].
  - split; [intros H; now rewrite (Hs H) |].
    intros H. destruct Hdec as [Hy | Hy]; [assumption |].
    rewrite (Hn Hy) in H. simpl in H. contradiction.
  - split; [intros H; now rewrite (Hn H) |].
    intros H Hy. rewrite (Hs Hy) in H. simpl in H. now apply Hne.
  - destruct (scanObstacles_effect l e) as (_ & H0 & H1).
    rewrite <- fatalCount_zero_iff.
    destruct (Nat.eq_dec (fatalCount l e) O) as [Hz | Hz].
    + rewrite (H0 Hz). intuition congruence.
    + rewrite (H1 Hz). tauto.
  - intros b. apply scanObstacles_autopilot.
Qed.

Lemma C1_contact_survival_witness :
  fst (collide (mkObstacle 0 (-0.5) true 0%Z JUMP) engine0) = gameOver engine0.
Proof.
  apply (C1_contact_survival [] engine0 (mkObstacle 0 (-0.5) true 0%Z JUMP)).
  - unfold contact. vm_compute. repeat split; reflexivity.
  - discriminate.
  - simpl. vm_compute. discriminate.
Defined.

(** ** Rows of the obstacle array *)

Lemma rowOrder_moved s a b a' b' :
  movedFrom s a a' -> movedFrom s b b' -> rowOrder a b -> rowOrder a' b'.
Proof.
  intros (Hz & _ & Hl & _) (Hz' & _ & Hl' & _). unfold rowOrder.
  rewrite Hz, Hz', Hl, Hl'. intros [[H1 H2] | H]; [left | right].
  - split; [lra | assumption].
  - lra.
Qed.

Lemma onLane_moved s a a' : movedFrom s a a' -> onLane a -> onLane a'.
Proof.
  intros (_ & Hx & Hl & _). unfold onLane. now rewrite Hx, Hl.
Qed.

Lemma scanObstacles_list l e :
  Forall (fun o' => exists o, In o l /\ movedFrom (gameSpeed e) o o')
         (snd (scanObstacles l e)) /\
  (StronglySorted rowOrder l -> StronglySorted rowOrder (snd (scanObstacles l e))).
Proof.
  induction l as [| o rest [IH1 IH2]]; simpl; [split; constructor |].
  pose proof (scanObstacles_frame rest e) as Hf.
  destruct (scanObstacles rest e) as [e1 rest']. simpl in *.
  pose proof (collide_moved o e1) as Hm.
  destruct (scanFrame_fields _ _ Hf) as (Hsp & _). rewrite Hsp in Hm.
  destruct (collide o e1) as [e2 obs]. simpl in *.
  assert (Hrest : Forall (fun o' => exists o0, (o = o0 \/ In o0 rest) /\
                                      movedFrom (gameSpeed e) o0 o') rest').
  { eapply Forall_impl; [| exact IH1]. intros a (b & Hb & Hab). eauto. }
  split.
  - destruct (Qltb 15 (pos_z obs)); [assumption |].
    constructor; [exists o; auto | assumption].
  - intros Hs. inversion Hs as [| ? ? Hs' Hall]; subst.
    specialize (IH2 Hs').
    destruct (Qltb 15 (pos_z obs)); [assumption |].
    constructor; [assumption |].
    rewrite Forall_forall in *. intros r' Hr'.
    destruct (IH1 r' Hr') as (r & Hr & Hmr).
    eapply rowOrder_moved; eauto.
Qed.

(** Two entries of the array are never in contact in the same frame. *)
Lemma contact_exclusive a b e :
  rowOrder a b -> onLane a -> onLane b -> contact a e -> contact b e -> False.
Proof.
  unfold rowOrder, onLane, contact, laneWidth.
  intros Hr Ha Hb (_ & Ha1 & Ha2 & Hax) (_ & Hb1 & Hb2 & Hbx).
  destruct Hr as [[Hz Hl] | Hz]; [| lra].
  apply Qabs_Qlt_condition in Hax, Hbx.
  assert (Hq : inject_Z (lane a) + 1 <= inject_Z (lane b)).
  { change 1 with (inject_Z 1). rewrite <- inject_Z_plus, <- Zle_Qle. lia. }
  lra.
Qed.

Lemma fatalCount_le_1 l e :
  StronglySorted rowOrder l -> Forall onLane l -> (fatalCount l e <= 1)%nat.
Proof.
  induction 1 as [| o rest Hs IH Hall]; intros Hon; simpl; [lia |].
  inversion Hon as [| ? ? Ho Hrest]; subst. specialize (IH Hrest).
  destruct (fatalb o e) eqn:Hb; [| simpl; assumption].
  assert (Hz : fatalCount rest e = O); [| rewrite Hz; lia].
  destruct (Nat.eq_dec (fatalCount rest e) O) as [| Hne]; [assumption | exfalso].
  apply fatalCount_zero_iff, Exists_exists in Hne. destruct Hne as (r & Hr & Hfr).
  apply fatalb_iff in Hb. rewrite Forall_forall in Hall, Hrest.
  eapply (contact_exclusive o r e); eauto; [apply Hb | apply Hfr].
Qed.

(** ** Stable sort *)

Lemma insertSorted_In {A} (le : A -> A -> bool) x y l :
  In y (insertSorted le x l) <-> y = x \/ In y l.
Proof.
  induction l as [| z zs IH]; simpl; [intuition congruence |].
  destruct (le x z); simpl; rewrite ?IH; intuition congruence.
Qed.

Lemma stableSort_In {A} (le : A -> A -> bool) y l :
  In y (stableSort le l) <-> In y l.
Proof.
  induction l as [| z zs IH]; simpl; [tauto |].
  rewrite insertSorted_In, IH. intuition congruence.
Qed.

Lemma insertSorted_length {A} (le : A -> A -> bool) x l :
  length (insertSorted le x l) = S (length l).
Proof.
  induction l as [| z zs IH]; simpl; [reflexivity |].
  destruct (le x z); simpl; now rewrite ?IH.
Qed.

Lemma stableSort_length {A} (le : A -> A -> bool) l :
  length (stableSort le l) = length l.
Proof.
  induction l as [| z zs IH]; simpl; [reflexivity |].
  now rewrite insertSorted_length, IH.
Qed.

(** ** Lane analysis: bookkeeping *)

Lemma scanStep_lane j r a o : la_lane (scanStep j r a o) = la_lane a.
Proof.
  unfold scanStep.
  destruct (inSideWindow _ && _), (isCoin o); simpl; try reflexivity;
    destruct (Qltb (pos_z o) 0); simpl; try reflexivity;
    destruct (Qltb (Qabs (pos_z o)) _); simpl;
    destruct (collisionType o); simpl; try reflexivity;
    repeat match goal with
           | |- context [if ?c then _ else _] => destruct c; simpl
           | |- context [match ?c with NoAction => _ | _ => _ end] => destruct c; simpl
           end; reflexivity.
Qed.

Lemma fold_scanStep_lane j r l a :
  la_lane (fold_left (scanStep j r) l a) = la_lane a.
Proof.
  revert a. induction l as [| o rest IH]; intros a; simpl; [reflexivity |].
  now rewrite IH, scanStep_lane.
Qed.

Lemma analyzeLane_lane l range e : la_lane (analyzeLane l range e) = l.
Proof.
  unfold analyzeLane. destruct (l =? 0)%Z; simpl; now rewrite fold_scanStep_lane.
Qed.

Lemma findLane_Some l analysis a :
  findLane l analysis = Some a -> In a analysis /\ la_lane a = l.
Proof.
  unfold findLane. intros H. apply find_some in H.
  now rewrite Z.eqb_eq in H.
Qed.

Lemma findLane_In l analysis :
  (exists a, In a analysis /\ la_lane a = l) -> exists a, findLane l analysis = Some a.
Proof.
  intros (a & Ha & Hl). unfold findLane.
  destruct (find _ analysis) eqn:Hf; [eauto |].
  apply (find_none _ _ Hf) in Ha. rewrite Hl, Z.eqb_refl in Ha. discriminate.
Qed.

(** ** Navigator: what a frame of [updateAI] can do *)

Lemma table_lanes le range e a :
  In a (stableSort le (map (fun l => analyzeLane l range e) [-1; 0; 1]%Z)) ->
  validLane (la_lane a).
Proof.
  rewrite stableSort_In. simpl. unfold validLane.
  intros [<- | [<- | [<- | []]]]; rewrite analyzeLane_lane; lia.
Qed.

Lemma table_find le range e l :
  validLane l ->
  exists a, findLane l (stableSort le (map (fun l => analyzeLane l range e)
                                            [-1; 0; 1]%Z)) = Some a.
Proof.
  intros Hl. apply findLane_In. exists (analyzeLane l range e).
  split; [| apply analyzeLane_lane].
  rewrite stableSort_In. simpl. unfold validLane in Hl.
  assert (l = (-1)%Z \/ l = 0%Z \/ l = 1%Z) as [-> | [-> | ->]] by lia; auto.
Qed.

Lemma emergencyDecision_lane cur sorted cs best t act :
  emergencyDecision cur sorted cs best = Some (t, act) ->
  t = cur \/ exists a, In a sorted /\ la_lane a = t.
Proof.
  unfold emergencyDecision.
  destruct (negb (la_lane best =? cur)%Z); [| intros [= <- _]; auto].
  destruct (findLane _ sorted) as [next |] eqn:Hf; [| discriminate].
  apply findLane_Some in Hf.
  destruct (negb (la_isBlockedSide next)); [| intros [= <- _]; auto].
  destruct (_ || _); intros [= <- _]; eauto.
Qed.

Lemma optimizationDecision_shape sorted cs best e t act e2 :
  optimizationDecision sorted cs best e = Some (t, act, e2) ->
  (t = currentLane e /\ e2 = e) \/
  (t = la_lane best /\ e2 = set_aiLaneChangeCooldown 20%Z e).
Proof.
  unfold optimizationDecision.
  destruct (aiLaneChangeCooldown e <=? 0)%Z; [| intros [= <- _ <-]; auto].
  destruct (_ && _); [| intros [= <- _ <-]; auto].
  destruct (findLane _ sorted) as [ts |]; [| discriminate].
  destruct (negb (la_isBlockedSide ts)); intros [= <- _ <-]; auto.
Qed.

Lemma executeReflex_shape st act e :
  snd (executeReflex st act e) = e \/
  snd (executeReflex st act e) = jump e \/
  snd (executeReflex st act e) = roll e.
Proof.
  unfold executeReflex.
  destruct (la_action st); simpl; auto; destruct (_ && _); simpl; auto.
Qed.

Lemma updateAI_shape e e' :
  updateAI e = Some e' ->
  exists c l a e4,
    (l = currentLane e \/ validLane l) /\
    (let e3 := set_currentLane l (set_aiLaneChangeCooldown c e) in
     e4 = e3 \/ e4 = jump e3 \/ e4 = roll e3) /\
    e' = set_events (AIUpdate a :: events e4) e4.
Proof.
  unfold updateAI.
  set (e1 := if (0 <? aiLaneChangeCooldown e)%Z then _ else e).
  assert (He1 : exists c1, e1 = set_aiLaneChangeCooldown c1 e).
  { unfold e1. destruct (0 <? _)%Z; [eauto |].
    exists (aiLaneChangeCooldown e). now destruct e. }
  destruct He1 as [c1 He1].
  assert (Hcur : currentLane e1 = currentLane e) by (rewrite He1; now destruct e).
  set (table := map _ _).
  destruct (findLane (currentLane e1) table) as [cs |]; [| discriminate].
  pose proof (table_lanes byScoreDescending (800 + gameSpeed e1 * 400) e1) as Hlanes.
  fold table in Hlanes.
  destruct (stableSort byScoreDescending table) as [| best sorted'] eqn:Hs;
    [discriminate |].
  set (sorted := best :: sorted') in *.
  match goal with
  | |- match ?d with _ => _ end = _ -> _ => destruct d as [[[t act] e2] |] eqn:Hd
  end; [| discriminate].
  assert (Hdec : (t = currentLane e \/ validLane t) /\
                 exists c2, e2 = set_aiLaneChangeCooldown c2 e).
  { destruct (Qltb (la_firstSolidDist cs) _).
    - destruct (emergencyDecision _ _ _ _) as [[t' act'] |] eqn:He; [| discriminate].
      injection Hd as <- <- <-.
      apply emergencyDecision_lane in He. split.
      + destruct He as [-> | (a & Ha & <-)]; [left; assumption | right; auto].
      + exists 0%Z. rewrite He1. now destruct e.
    - apply optimizationDecision_shape in Hd. rewrite Hcur in Hd.
      destruct Hd as [[-> ->] | [-> ->]].
      + split; [auto | eauto].
      + split; [right; apply Hlanes; now left |].
        exists 20%Z. rewrite He1. now destruct e. }
  destruct Hdec as [Ht [c2 He2]].
  set (e3 := if negb (t =? currentLane e2)%Z then setLane t e2 else e2).
  assert (He3 : exists l, (l = currentLane e \/ validLane l) /\
                          e3 = set_currentLane l (set_aiLaneChangeCooldown c2 e)).
  { unfold e3. destruct (negb _).
    - exists t. split; [assumption |]. unfold setLane. now rewrite He2.
    - exists (currentLane e). split; [auto |]. rewrite He2. now destruct e. }
  destruct He3 as (l & Hl & He3).
  destruct (findLane (currentLane e3) sorted) as [st |]; [| discriminate].
  pose proof (executeReflex_shape st act e3) as Hr.
  destruct (executeReflex st act e3) as [act' e4]. simpl in Hr.
  intros [= <-].
  exists c2, l. eexists. exists e4. split; [assumption |]. split; [| reflexivity].
  simpl. rewrite <- He3. assumption.
Qed.

(** In range, no lookup of [updateAI] fails. *)
Lemma updateAI_total e :
  validLane (currentLane e) -> exists e', updateAI e = Some e'.
Proof.
  intros Hv. unfold updateAI.
  set (e1 := if (0 <? aiLaneChangeCooldown e)%Z then _ else e).
  assert (Hcur : currentLane e1 = currentLane e)
    by (unfold e1; destruct (0 <? _)%Z; now destruct e).
  set (range := 800 + gameSpeed e1 * 400).
  set (table := map _ _).
  assert (Hfind0 : exists a, findLane (currentLane e1) table = Some a).
  { apply findLane_In. exists (analyzeLane (currentLane e1) range e1).
    split; [| apply analyzeLane_lane]. rewrite Hcur. unfold table. simpl.
    unfold validLane in Hv.
    assert (currentLane e = (-1)%Z \/ currentLane e = 0%Z \/ currentLane e = 1%Z)
      as [-> | [-> | ->]] by lia; auto. }
  destruct Hfind0 as [cs ->].
  pose proof (table_lanes byScoreDescending range e1) as Hlanes.
  pose proof (table_find byScoreDescending range e1) as Hfind.
  fold table in Hlanes, Hfind.
  destruct (stableSort byScoreDescending table) as [| best sorted'] eqn:Hs.
  { apply (f_equal (@length _)) in Hs. rewrite stableSort_length in Hs. discriminate. }
  set (sorted := best :: sorted') in *.
  assert (Hbest : validLane (la_lane best)) by (apply Hlanes; now left).
  match goal with
  | |- exists _, match ?d with _ => _ end = _ =>
      assert (Hd : exists t act e2, d = Some (t, act, e2) /\ validLane t)
  end.
  { destruct (Qltb (la_firstSolidDist cs) _).
    - unfold emergencyDecision. rewrite Hcur.
      destruct (negb (la_lane best =? currentLane e)%Z) eqn:Hne; [| eauto 6].
      apply negb_true_iff, Z.eqb_neq in Hne.
      set (next := (currentLane e + _)%Z).
      assert (Hnext : validLane next).
      { unfold next, validLane in *.
        destruct (Z.ltb_spec 0 (la_lane best - currentLane e)); lia. }
      destruct (Hfind next Hnext) as [na ->].
      destruct (negb (la_isBlockedSide na)); [| eauto 6].
      destruct (_ || _); eauto 6.
    - unfold optimizationDecision. rewrite Hcur.
      destruct (aiLaneChangeCooldown e1 <=? 0)%Z; [| eauto 6].
      destruct (_ && _); [| eauto 6].
      destruct (Hfind _ Hbest) as [ts ->].
      destruct (negb (la_isBlockedSide ts)); eauto 6. }
  destruct Hd as (t & act & e2 & -> & Ht).
  set (e3 := if negb (t =? currentLane e2)%Z then setLane t e2 else e2).
  assert (Hv3 : validLane (currentLane e3)).
  { unfold e3. destruct (negb (t =? currentLane e2)%Z) eqn:Hne; [now simpl |].
    apply negb_false_iff, Z.eqb_eq in Hne. now rewrite <- Hne. }
  destruct (Hfind _ Hv3) as [st ->].
  destruct (executeReflex st act e3) as [act' e4]. eauto.
Qed.

(** ** Preservation of the invariant *)

Lemma jump_mutex e :
  isJumping e && isRolling e = false -> isJumping (jump e) && isRolling (jump e) = false.
Proof.
  unfold jump. destruct (isJumping e) eqn:Hj; simpl; [| reflexivity].
  now rewrite Hj.
Qed.

Lemma roll_mutex e :
  isJumping e && isRolling e = false -> isJumping (roll e) && isRolling (roll e) = false.
Proof.
  unfold roll. destruct (isJumping e) eqn:Hj, (isRolling e) eqn:Hr; simpl;
    rewrite ?Hj, ?Hr; auto.
Qed.

Lemma physics_mutex e :
  isJumping e && isRolling e = false ->
  isJumping (physics e) && isRolling (physics e) = false.
Proof.
  unfold physics. simpl.
  destruct (isJumping e) eqn:Hj; simpl.
  - intros Hr. destruct (Qle_bool _ playerBaseY); simpl; [reflexivity |].
    now rewrite Hj.
  - intros _. destruct (isRolling e) eqn:Hr; simpl.
    + destruct (_ <=? 0)%Z; simpl; now rewrite Hj.
    + now rewrite Hj.
Qed.

Lemma physics_fields e :
  state (physics e) = state e /\ score (physics e) = score e /\
  gameSpeed (physics e) = gameSpeed e /\ currentLane (physics e) = currentLane e /\
  lastSafeLane (physics e) = lastSafeLane e /\ obstacles (physics e) = obstacles e /\
  events (physics e) = events e /\ autoPilotEnabled (physics e) = autoPilotEnabled e.
Proof.
  unfold physics. simpl.
  destruct (isJumping e); simpl.
  - destruct (Qle_bool _ playerBaseY); simpl; repeat split.
  - destruct (isRolling e); simpl; [destruct (_ <=? 0)%Z |]; simpl; repeat split.
Qed.

Lemma Inv_physics e : Inv e -> Inv (physics e).
Proof.
  intros [H1 H2 H3 H4 H5 H6 H7].
  destruct (physics_fields e) as (Hs & _ & Hg & Hc & Hl & Ho & _).
  constructor; rewrite ?Hs, ?Hg, ?Hc, ?Hl, ?Ho; auto using physics_mutex.
Qed.

Lemma updateAI_fields e e' :
  updateAI e = Some e' ->
  state e' = state e /\ score e' = score e /\ gameSpeed e' = gameSpeed e /\
  lastSafeLane e' = lastSafeLane e /\ obstacles e' = obstacles e /\
  autoPilotEnabled e' = autoPilotEnabled e /\
  distanceTraveled e' = distanceTraveled e /\
  gameOverCount (events e') = gameOverCount (events e) /\
  (isJumping e && isRolling e = false -> isJumping e' && isRolling e' = false) /\
  (validLane (currentLane e) -> validLane (currentLane e')).
Proof.
  intros H. apply updateAI_shape in H.
  destruct H as (c & l & a & e4 & Hl & He4 & ->). simpl in He4.
  set (e3 := set_currentLane l (set_aiLaneChangeCooldown c e)) in *.
  assert (Hm3 : isJumping e && isRolling e = false ->
                isJumping e3 && isRolling e3 = false) by (now destruct e).
  assert (Hf3 : state e3 = state e /\ score e3 = score e /\
                gameSpeed e3 = gameSpeed e /\ lastSafeLane e3 = lastSafeLane e /\
                obstacles e3 = obstacles e /\
                autoPilotEnabled e3 = autoPilotEnabled e /\
                distanceTraveled e3 = distanceTraveled e /\
                events e3 = events e /\ currentLane e3 = l) by (now destruct e).
  destruct Hf3 as (F1 & F2 & F3 & F4 & F5 & F6 & F7 & F8 & F9).
  assert (Hv : validLane (currentLane e) -> validLane l)
    by (destruct Hl as [-> | Hl]; auto).
  assert (Hj : isJumping e3 && isRolling e3 = false ->
               isJumping e4 && isRolling e4 = false).
  { destruct He4 as [-> | [-> | ->]]; auto using jump_mutex, roll_mutex. }
  assert (Hf4 : state e4 = state e3 /\ score e4 = score e3 /\
                gameSpeed e4 = gameSpeed e3 /\ lastSafeLane e4 = lastSafeLane e3 /\
                obstacles e4 = obstacles e3 /\
                autoPilotEnabled e4 = autoPilotEnabled e3 /\
                distanceTraveled e4 = distanceTraveled e3 /\
                events e4 = events e3 /\ currentLane e4 = currentLane e3).
  { destruct He4 as [-> | [-> | ->]]; unfold jump, roll;
      repeat match goal with |- context [if ?c then _ else _] => destruct c end;
      simpl; repeat split. }
  destruct Hf4 as (G1 & G2 & G3 & G4 & G5 & G6 & G7 & G8 & G9).
  simpl. rewrite G1, G2, G3, G4, G5, G6, G7, G8, G9, F1, F2, F3, F4, F5, F6, F7, F8, F9.
  do 8 (split; [reflexivity |]). split; auto.
Qed.

Lemma Inv_updateAI e e' : Inv e -> updateAI e = Some e' -> Inv e'.
Proof.
  intros [H1 H2 H3 H4 H5 H6 H7] H.
  destruct (updateAI_fields e e' H) as (Hs & _ & Hg & Hl & Ho & _ & _ & _ & Hm & Hv).
  constructor; rewrite ?Hs, ?Hg, ?Hl, ?Ho; auto.
Qed.

Lemma Inv_controls e :
  Inv e ->
  Inv (moveLeft e) /\ Inv (moveRight e) /\ Inv (jump e) /\ Inv (roll e) /\
  forall v, Inv (toggleAutoPilot v e).
Proof.
  intros [H1 H2 H3 H4 H5 H6 H7].
  split; [| split; [| split; [| split]]].
  - unfold moveLeft. destruct (Z.ltb_spec (-1) (currentLane e));
      constructor; simpl; auto. unfold validLane in *. lia.
  - unfold moveRight. destruct (Z.ltb_spec (currentLane e) 1);
      constructor; simpl; auto. unfold validLane in *. lia.
  - pose proof (jump_mutex e H1) as Hm. revert Hm. unfold jump.
    destruct (negb (isJumping e)); intros Hm; constructor; simpl in *; auto.
  - pose proof (roll_mutex e H1) as Hm. revert Hm. unfold roll.
    destruct (negb (isJumping e) && negb (isRolling e)); intros Hm;
      constructor; simpl in *; auto.
  - intros v. constructor; simpl; auto.
Qed.

(** ** Spawner: the rows it appends *)

Lemma spawnLane_shape z d s e l :
  exists entry,
    spawnLane z d s e l = set_obstacles (obstacles e ++ entry) e /\
    (length entry <= 1)%nat /\
    Forall (fun o => pos_z o = z /\ lane o = l /\
                     pos_x o = inject_Z l * laneWidth /\ active o = true /\
                     (l = s <-> collisionType o = COIN)) entry.
Proof.
  assert (Hnil : e = set_obstacles (obstacles e ++ []) e)
    by (rewrite app_nil_r; now destruct e).
  unfold spawnLane, spawnCoin, createObstacleAt.
  destruct (Z.eqb_spec l s) as [Heq | Hne].
  - destruct (Qltb _ 0.3); [| exists []; simpl; auto].
    eexists. split; [reflexivity |]. simpl. split; [lia |].
    constructor; [| constructor]. simpl. tauto.
  - destruct (Qltb _ 0.8); [| exists []; simpl; auto].
    eexists. split; [reflexivity |]. simpl. split; [lia |].
    constructor; [| constructor]. simpl. repeat (split; [reflexivity |]).
    split; [contradiction |].
    destruct (Qltb _ 0.25); [| destruct (Qltb _ 0.5)]; discriminate.
Qed.

Lemma spawnObstacleRow_shape z d e :
  exists news,
    spawnObstacleRow z d e =
      set_obstacles (obstacles e ++ news)
        (set_lastSafeLane (pickSafeLane (pickDraw d) (lastSafeLane e)) e) /\
    StronglySorted rowOrder news /\
    Forall (fun o => pos_z o = z /\ onLane o /\ active o = true /\
                     (lane o = pickSafeLane (pickDraw d) (lastSafeLane e) <->
                      collisionType o = COIN)) news.
Proof.
  unfold spawnObstacleRow. simpl.
  set (s := pickSafeLane _ _). set (e1 := set_lastSafeLane s e).
  destruct (spawnLane_shape z d s e1 (-1)%Z) as (n1 & -> & L1 & F1).
  destruct (spawnLane_shape z d s (set_obstacles (obstacles e1 ++ n1) e1) 0%Z)
    as (n2 & -> & L2 & F2).
  match goal with
  | |- context [spawnLane z d s ?e2 1%Z] =>
      destruct (spawnLane_shape z d s e2 1%Z) as (n3 & -> & L3 & F3)
  end.
  exists (n1 ++ n2 ++ n3). split; [| split].
  - unfold e1. destruct e. simpl. now rewrite <- !app_assoc.
  - assert (Hone : forall n : list Obstacle,
               (length n <= 1)%nat -> n = [] \/ exists o, n = [o]).
    { intros [| o [| ? ?]]; simpl; intros; [auto | eauto | lia]. }
    destruct (Hone n1 L1) as [-> | [a ->]];
      destruct (Hone n2 L2) as [-> | [b ->]];
      destruct (Hone n3 L3) as [-> | [c ->]]; simpl;
      repeat match goal with
             | H : Forall _ (_ :: _) |- _ => inversion H; clear H; subst
             | H : _ /\ _ |- _ => destruct H
             end;
      repeat first [apply SSorted_nil | apply SSorted_cons
                   | apply Forall_nil | apply Forall_cons];
      left;
      repeat match goal with H : pos_z _ = _ |- _ => rewrite H end;
      repeat match goal with H : lane _ = _ |- _ => rewrite H end;
      (split; [reflexivity | lia]).
  - rewrite !Forall_app. repeat split.
    all: match goal with
         | |- Forall _ ?n =>
             match goal with
             | H : Forall _ n |- _ =>
                 eapply Forall_impl; [| exact H]; cbv beta;
                 intros o (Hz & Hl & Hx & Ha & Hk);
                 repeat split; try assumption;
                 [unfold onLane; now rewrite Hx, Hl | rewrite Hl; apply Hk | rewrite Hl; apply Hk]
             end
         end.
Qed.

Lemma StronglySorted_app {A} (R : A -> A -> Prop) l1 l2 :
  StronglySorted R l1 -> StronglySorted R l2 ->
  (forall a b, In a l1 -> In b l2 -> R a b) ->
  StronglySorted R (l1 ++ l2).
Proof.
  induction 1 as [| x l1 Hs IH Hall]; intros H2 Hc; simpl; [assumption |].
  constructor.
  - apply IH; [assumption |]. intros a b Ha Hb. apply Hc; [now right | assumption].
  - rewrite Forall_app. split; [assumption |].
    rewrite Forall_forall. intros b Hb. apply Hc; [now left | assumption].
Qed.

Lemma lastObstacle_In l o : lastObstacle l = Some o -> In o l.
Proof.
  induction l as [| a rest IH]; simpl; [discriminate |].
  destruct rest as [| b rest']; [intros [= ->]; now left |].
  intros H. right. now apply IH.
Qed.

Lemma lastObstacle_None l : lastObstacle l = None -> l = [].
Proof.
  induction l as [| a rest IH]; simpl; [reflexivity |].
  destruct rest as [| b rest']; [discriminate |].
  intros H. specialize (IH H). discriminate.
Qed.

Lemma rowOrder_le a b : rowOrder a b -> pos_z b <= pos_z a.
Proof. intros [[H _] | H]; lra. Qed.

(** The last entry of the array trails every other one. *)
Lemma lastObstacle_trailing l lo :
  StronglySorted rowOrder l -> lastObstacle l = Some lo ->
  Forall (fun o => pos_z lo <= pos_z o) l.
Proof.
  induction 1 as [| a rest Hs IH Hall]; intros Hl; [constructor |].
  simpl in Hl. destruct rest as [| b rest'].
  - injection Hl as ->. constructor; [lra | constructor].
  - constructor; [| now apply IH].
    apply lastObstacle_In in Hl. rewrite Forall_forall in Hall.
    apply rowOrder_le. now apply Hall.
Qed.

Lemma pickSafeLane_valid (r : Unit01) last :
  validLane last -> validLane (pickSafeLane r last).
Proof.
  intros Hv. unfold pickSafeLane.
  assert (Hlen : (0 < length (possibleLanes last))%nat)
    by (unfold possibleLanes; simpl; lia).
  pose proof (nth_In (possibleLanes last) last (pickIndex_lt r _ Hlen)) as Hin.
  revert Hin. generalize (nth (pickIndex r (length (possibleLanes last)))
                              (possibleLanes last) last) as l.
  unfold possibleLanes, validLane in *. intros l.
  destruct (Z.ltb_spec (-1) last), (Z.ltb_spec last 1); simpl; lia.
Qed.

Lemma Inv_spawn d e :
  Inv e -> spawnDue e = true -> Inv (spawnObstacleRow spawnZ d e).
Proof.
  intros [H1 H2 H3 H4 H5 H6 H7] Hdue.
  destruct (spawnObstacleRow_shape spawnZ d e) as (news & -> & Hs & Hf).
  constructor; simpl; auto using pickSafeLane_valid.
  - apply StronglySorted_app; [assumption | assumption |].
    intros a b Ha Hb. right.
    rewrite Forall_forall in Hf. destruct (Hf b Hb) as (-> & _).
    unfold spawnDue in Hdue.
    destruct (lastObstacle (obstacles e)) as [lo |] eqn:Hl.
    + apply Qltb_iff in Hdue.
      pose proof (lastObstacle_trailing _ _ H6 Hl) as Ht.
      rewrite Forall_forall in Ht. specialize (Ht a Ha).
      unfold minGap, spawnZ in *. lra.
    + apply lastObstacle_None in Hl. rewrite Hl in Ha. contradiction.
  - rewrite Forall_app. split; [assumption |].
    eapply Forall_impl; [| exact Hf]. cbv beta. tauto.
Qed.

Lemma Inv_scan e :
  Inv e ->
  Inv (set_obstacles (snd (scanObstacles (obstacles e) e))
                     (set_state (state e) (fst (scanObstacles (obstacles e) e)))).
Proof.
  intros [H1 H2 H3 H4 H5 H6 H7].
  pose proof (scanObstacles_frame (obstacles e) e) as Hf.
  destruct (scanObstacles_list (obstacles e) e) as [Hm Hs].
  destruct (scanFrame_fields _ _ Hf) as (F1 & _ & _ & F4 & F5 & F6 & F7 & _).
  destruct (scanObstacles (obstacles e) e) as [e' l']. simpl in *.
  constructor; simpl; rewrite ?F1, ?F4, ?F5, ?F6, ?F7; auto.
  rewrite Forall_forall in *. intros o' Ho'.
  destruct (Hm o' Ho') as (o & Ho & Hmo).
  eapply onLane_moved; eauto.
Qed.

Lemma speed_step g :
  0 <= g <= maxSpeed ->
  0 <= Qmin maxSpeed (g + speedIncrement) <= maxSpeed /\
  g <= Qmin maxSpeed (g + speedIncrement) /\
  (startSpeed <= g -> startSpeed <= Qmin maxSpeed (g + speedIncrement)).
Proof.
  unfold maxSpeed, speedIncrement, startSpeed. intros [H0 H1].
  split; [split |]; [| | split].
  - apply Q.min_glb; lra.
  - apply Q.le_min_l.
  - apply Q.min_glb; lra.
  - intros Hs. apply Q.min_glb; lra.
Qed.

(** The world update of a frame in the [PLAYING] state. *)
Lemma updateWorld_sound e :
  Inv e -> state e = PLAYING ->
  exists w,
    updateWorld e = Some w /\ Inv w /\
    gameSpeed w = Qmin maxSpeed (gameSpeed e + speedIncrement) /\
    lastSafeLane w = lastSafeLane e /\
    ((state w = PLAYING /\
      gameOverCount (events w) = gameOverCount (events e)) \/
     (state w = GAME_OVER /\ obstacles e <> [] /\
      gameOverCount (events w) = S (gameOverCount (events e)))).
Proof.
  intros HI Hplay. unfold updateWorld.
  set (e4 := set_events _ _).
  assert (HI4 : Inv e4).
  { destruct HI as [H1 H2 H3 H4 H5 H6 H7].
    destruct (speed_step _ H4) as (S1 & S2 & S3).
    constructor; simpl; auto. }
  assert (F4 : state e4 = PLAYING /\
               gameSpeed e4 = Qmin maxSpeed (gameSpeed e + speedIncrement) /\
               gameOverCount (events e4) = gameOverCount (events e) /\
               obstacles e4 = obstacles e /\
               lastSafeLane e4 = lastSafeLane e) by now simpl.
  clearbody e4. destruct F4 as (Hs4 & Hg4 & Hc4 & Ho4 & Hl4).
  assert (H5 : exists e5, (if autoPilotEnabled e4 then updateAI e4 else Some e4) = Some e5 /\
                          Inv e5 /\ state e5 = PLAYING /\ gameSpeed e5 = gameSpeed e4 /\
                          gameOverCount (events e5) = gameOverCount (events e4) /\
                          obstacles e5 = obstacles e4 /\
                          lastSafeLane e5 = lastSafeLane e4).
  { destruct (autoPilotEnabled e4); [| eauto 9].
    destruct (updateAI_total e4 (inv_lane _ HI4)) as [e5 He5].
    exists e5. split; [assumption |]. split; [eapply Inv_updateAI; eauto |].
    destruct (updateAI_fields _ _ He5) as (A1 & _ & A3 & A4 & A5 & _ & _ & A8 & _).
    rewrite A1, A3, A4, A5, A8. auto. }
  destruct H5 as (e5 & -> & HI5 & Hs5 & Hg5 & Hc5 & Ho5 & Hl5).
  pose proof (Inv_physics _ HI5) as HI6.
  destruct (physics_fields e5) as (P1 & _ & P3 & _ & P5 & P6 & P7 & _).
  set (e6 := physics e5) in *.
  pose proof (Inv_scan _ HI6) as HI8.
  pose proof (scanObstacles_effect (obstacles e6) e6) as (C1 & C2 & C3).
  pose proof (fatalCount_le_1 _ e6 (inv_rows _ HI6) (inv_onLane _ HI6)) as Hle.
  pose proof (scanObstacles_frame (obstacles e6) e6) as Hfr.
  destruct (scanFrame_fields _ _ Hfr) as (G1 & _ & _ & _ & _ & _ & G7 & _).
  destruct (scanObstacles (obstacles e6) e6) as [e7 obs']. simpl in *.
  eexists. split; [reflexivity |]. split; [| split; [| split]].
  - destruct HI8 as [H1 H2 H3 H4 H5 H6 H7]. simpl in *.
    constructor; simpl; auto.
    intros _. rewrite G1, P3, Hg5.
    apply (inv_started _ HI4). rewrite Hs4. discriminate.
  - simpl. now rewrite G1, P3, Hg5, Hg4.
  - simpl. now rewrite G7, P5, Hl5, Hl4.
  - simpl. rewrite C1, P7, Hc5, Hc4.
    destruct (Nat.eq_dec (fatalCount (obstacles e6) e6) O) as [Hz | Hnz].
    + left. rewrite (C2 Hz), P1, Hs5, Hz. split; [reflexivity | lia].
    + right. rewrite (C3 Hnz). split; [reflexivity |]. split; [| lia].
      rewrite <- Ho4, <- Ho5, <- P6. intros Hnil. rewrite Hnil in Hnz. now apply Hnz.
Qed.

(** One frame in the [PLAYING] state. *)
Lemma update_sound d e :
  Inv e -> state e = PLAYING ->
  exists e',
    update d e = Some e' /\ Inv e' /\
    gameSpeed e' = Qmin maxSpeed (gameSpeed e + speedIncrement) /\
    ((state e' = PLAYING /\
      gameOverCount (events e') = gameOverCount (events e)) \/
     (state e' = GAME_OVER /\ obstacles e <> [] /\
      gameOverCount (events e') = S (gameOverCount (events e)))).
Proof.
  intros HI Hplay. unfold update.
  destruct (updateWorld_sound e HI Hplay) as (w & -> & HIw & Hg & _ & Hc).
  eexists. split; [reflexivity |].
  destruct (spawnDue w) eqn:Hdue; [| auto].
  split; [now apply Inv_spawn |].
  destruct (spawnObstacleRow_shape spawnZ d w) as (news & -> & _). simpl. auto.
Qed.

Lemma Inv_engine0 : Inv engine0.
Proof.
  constructor; simpl; auto; try (unfold validLane; lia); try constructor.
  - unfold maxSpeed. lra.
  - unfold maxSpeed. lra.
  - congruence.
Qed.

Lemma start_sound d e :
  Inv e -> state e <> PLAYING ->
  exists e',
    start d e = Some e' /\ Inv e' /\ state e' = PLAYING /\
    gameOverCount (events e') = gameOverCount (events e).
Proof.
  intros HI Hs. unfold start.
  assert (Hgo : forall e11, Inv e11 -> state e11 = PLAYING -> obstacles e11 = [] ->
                      events e11 = events e ->
            exists e', animate d e11 = Some e' /\ Inv e' /\ state e' = PLAYING /\
                       gameOverCount (events e') = gameOverCount (events e)).
  { intros e11 HI11 Hp Ho He. unfold animate. rewrite Hp.
    destruct (update_sound d e11 HI11 Hp) as (e' & He' & HIe' & _ & Hc).
    exists e'. split; [assumption |]. split; [assumption |]. rewrite <- He.
    destruct Hc as [[H1 H2] | (_ & H1 & _)]; [auto | contradiction]. }
  destruct HI as [H1 H2 H3 H4 H5 H6 H7].
  destruct (state e) eqn:Hst; [| congruence |];
    (apply Hgo; [| reflexivity | reflexivity | reflexivity]);
    (constructor; simpl; auto; try (unfold validLane; lia); try constructor;
     unfold startSpeed, maxSpeed; lra).
Qed.

(** Every input is executed without exception from a state satisfying the
    invariant, which it preserves; the game-over notification is issued
    exactly when the state turns from [PLAYING] to [GAME_OVER]. *)
Lemma exec_sound i e :
  Inv e ->
  exists e',
    exec i e = Some e' /\ Inv e' /\
    ((isStart i = false /\ state e' = state e /\
      gameOverCount (events e') = gameOverCount (events e)) \/
     (isStart i = false /\ state e = PLAYING /\ state e' = GAME_OVER /\
      gameOverCount (events e') = S (gameOverCount (events e))) \/
     (isStart i = true /\ state e' = PLAYING /\
      gameOverCount (events e') = gameOverCount (events e))).
Proof.
  intros HI. destruct (Inv_controls e HI) as (C1 & C2 & C3 & C4 & C5).
  destruct i as [d | | | | | v | d]; simpl.
  - destruct (state e) eqn:Hs.
    + destruct (start_sound d e HI) as (e' & He & HIe & Hp & Hc); [congruence |].
      exists e'. split; [assumption |]. split; [assumption |]. right; right. auto.
    + exists e. split; [unfold start; now rewrite Hs |]. split; [assumption |].
      right; right. auto.
    + destruct (start_sound d e HI) as (e' & He & HIe & Hp & Hc); [congruence |].
      exists e'. split; [assumption |]. split; [assumption |]. right; right. auto.
  - exists (moveLeft e). split; [reflexivity |]. split; [assumption |]. left.
    unfold moveLeft. destruct (_ <? _)%Z; auto.
  - exists (moveRight e). split; [reflexivity |]. split; [assumption |]. left.
    unfold moveRight. destruct (_ <? _)%Z; auto.
  - exists (jump e). split; [reflexivity |]. split; [assumption |]. left.
    unfold jump. destruct (negb _); auto.
  - exists (roll e). split; [reflexivity |]. split; [assumption |]. left.
    unfold roll. destruct (_ && _); auto.
  - exists (toggleAutoPilot v e). split; [reflexivity |]. split; [apply C5 |].
    left. auto.
  - unfold animate. destruct (state e) eqn:Hs;
      [exists e; split; [reflexivity |]; split; [assumption |]; left; auto | |
       exists e; split; [reflexivity |]; split; [assumption |]; left; auto].
    destruct (update_sound d e HI Hs) as (e' & He & HIe & _ & Hc).
    exists e'. split; [assumption |]. split; [assumption |].
    destruct Hc as [[H1 H2] | (H1 & _ & H2)]; [left | right; left]; auto.
Qed.

Lemma run_sound inputs e :
  Inv e -> exists e', run inputs e = Some e' /\ Inv e'.
Proof.
  revert e. induction inputs as [| i rest IH]; intros e HI; simpl; [eauto |].
  destruct (exec_sound i e HI) as (e1 & -> & HI1 & _). now apply IH.
Qed.

Lemma run_Inv inputs e : run inputs engine0 = Some e -> Inv e.
Proof.
  intros H. destruct (run_sound inputs engine0 Inv_engine0) as (e' & He & HI).
  congruence.
Qed.

(** ** Reachable states *)

(** C5: whatever the sequence of control commands and frames, manual or
    autopilot, the engine executes it and is never jumping and rolling at the
    same time. *)
Theorem C5_jump_roll_exclusive (inputs : list Input) :
  exists e, run inputs engine0 = Some e /\
            ~ (isJumping e = true /\ isRolling e = true).
Proof.
  destruct (run_sound inputs engine0 Inv_engine0) as (e & He & HI).
  exists e. split; [assumption |].
  intros [Hj Hr]. pose proof (inv_mutex e HI) as Hm.
  rewrite Hj, Hr in Hm. discriminate.
Qed.

Lemma Inv_engineWall : Inv engineWall.
Proof.
  constructor; simpl; auto; try (unfold validLane; lia).
  - unfold maxSpeed. lra.
  - intros _. unfold startSpeed. lra.
  - repeat first [apply SSorted_nil | apply SSorted_cons
                 | apply Forall_nil | apply Forall_cons].
  - repeat constructor; unfold onLane, laneWidth; simpl; lra.
Qed.

(** The terminal transition: a solid in the player's lane enters the contact
    window, the frame reports the score and then the game over, once. *)
Example frame_game_over :
  exists e',
    animate drawsSparse engineWall = Some e' /\ state e' = GAME_OVER /\
    events e' = [GameOver 1798; ScoreChange 1798] /\
    animate drawsDense e' = Some e'.
Proof.
  eexists. split; [vm_compute; reflexivity |].
  split; [reflexivity |]. split; reflexivity.
Qed.

(** C10: in every reachable [PLAYING] state the speed lies between the start
    speed and the maximum; the next frame keeps it there, never lowers it, and
    sets it to the old speed plus the increment, capped at the maximum. *)
Theorem C10_speed_bounds (inputs : list Input) (e : Engine) (d : RowDraws) :
  run inputs engine0 = Some e -> state e = PLAYING ->
  startSpeed <= gameSpeed e <= maxSpeed /\
  exists e',
    animate d e = Some e' /\
    startSpeed <= gameSpeed e' <= maxSpeed /\
    gameSpeed e <= gameSpeed e' /\
    gameSpeed e' == Qmin maxSpeed (gameSpeed e + speedIncrement) /\
    (gameSpeed e + speedIncrement <= maxSpeed ->
       gameSpeed e' == gameSpeed e + speedIncrement) /\
    (maxSpeed <= gameSpeed e + speedIncrement -> gameSpeed e' == maxSpeed).
Proof.
  intros Hrun Hp. pose proof (run_Inv inputs e Hrun) as HI.
  assert (Hlo : startSpeed <= gameSpeed e)
    by (apply (inv_started e HI); congruence).
  pose proof (inv_speed e HI) as [H0 Hhi].
  split; [split; assumption |].
  unfold animate. rewrite Hp.
  destruct (update_sound d e HI Hp) as (e' & He' & _ & Hg & _).
  exists e'. split; [assumption |]. rewrite Hg.
  destruct (speed_step (gameSpeed e) (conj H0 Hhi)) as ((_ & S1) & S2 & S3).
  split; [split; auto |]. split; [assumption |]. split; [reflexivity |].
  split; intros H.
  - now apply Q.min_r.
  - now apply Q.min_l.
Qed.

Lemma C10_speed_bounds_witness :
  startSpeed <= gameSpeed engineDemo <= maxSpeed /\
  exists e',
    animate drawsDense engineDemo = Some e' /\
    startSpeed <= gameSpeed e' <= maxSpeed /\
    gameSpeed engineDemo <= gameSpeed e' /\
    gameSpeed e' == Qmin maxSpeed (gameSpeed engineDemo + speedIncrement) /\
    (gameSpeed engineDemo + speedIncrement <= maxSpeed ->
       gameSpeed e' == gameSpeed engineDemo + speedIncrement) /\
    (maxSpeed <= gameSpeed engineDemo + speedIncrement -> gameSpeed e' == maxSpeed).
Proof.
  apply (C10_speed_bounds inputsDemo engineDemo drawsDense).
  - vm_compute. reflexivity.
  - reflexivity.
Defined.

(** ** Lane analysis: the side block *)

Lemma scanStep_blocked j r a o :
  la_isBlockedSide (scanStep j r a o) = la_isBlockedSide a || sideHazard o.
Proof.
  unfold scanStep, sideHazard.
  destruct (inSideWindow _ && _) eqn:Hw, (isCoin o) eqn:Hc; simpl;
    rewrite ?orb_true_r, ?orb_false_r; try reflexivity;
    try (rewrite andb_false_r in Hw; discriminate);
    destruct (Qltb (pos_z o) 0); simpl; try reflexivity;
    destruct (Qltb (Qabs (pos_z o)) _); simpl;
    destruct (collisionType o); simpl; try reflexivity;
    repeat match goal with
           | |- context [if ?c then _ else _] => destruct c; simpl
           | |- context [match ?c with NoAction => _ | _ => _ end] => destruct c; simpl
           end; reflexivity.
Qed.

Lemma scanStep_score_coin j r a o :
  isCoin o = true -> la_score (scanStep j r a o) = la_score a + 50.
Proof.
  intros Hc. unfold scanStep. rewrite Hc, andb_false_r. reflexivity.
Qed.

Lemma solid_penalty_nonneg z : 0 <= 100000 / (Qabs z + 1).
Proof.
  pose proof (Qabs_nonneg z). apply Qle_shift_div_l; lra.
Qed.

Lemma scanStep_score_hazard j r a o :
  isCoin o = false ->
  la_score (scanStep j r a o) <= (if sideHazard o then sentinel else la_score a).
Proof.
  intros Hc. unfold scanStep, sideHazard. rewrite Hc. simpl negb.
  rewrite andb_true_r.
  pose proof (solid_penalty_nonneg (pos_z o)) as Hp.
  destruct (inSideWindow (pos_z o)); unfold sentinel;
    (destruct (Qltb (pos_z o) 0); simpl; [| lra]);
    destruct (Qltb (Qabs (pos_z o)) _); simpl;
    destruct (collisionType o); simpl; try lra;
    repeat match goal with
           | |- context [if ?c then _ else _] => destruct c; simpl
           | |- context [match ?c with NoAction => _ | _ => _ end] => destruct c; simpl
           end; lra.
Qed.

Lemma fold_scanStep_bound j r l : forall a k,
  (la_isBlockedSide a = true -> la_score a <= sentinel + 50 * inject_Z (Z.of_nat k)) ->
  let a' := fold_left (scanStep j r) l a in
  (la_isBlockedSide a = true \/ existsb sideHazard l = true ->
   la_isBlockedSide a' = true) /\
  (la_isBlockedSide a' = true ->
   la_score a' <= sentinel + 50 * inject_Z (Z.of_nat (k + length (filter isCoin l)))).
Proof.
  induction l as [| o rest IH]; intros a k Ha; cbv zeta.
  - simpl. rewrite Nat.add_0_r.
    split; [intros [H | H]; [assumption | discriminate] | assumption].
  - change (fold_left (scanStep j r) (o :: rest) a)
      with (fold_left (scanStep j r) rest (scanStep j r a o)).
    change (existsb sideHazard (o :: rest))
      with (sideHazard o || existsb sideHazard rest).
    change (filter isCoin (o :: rest))
      with (if isCoin o then o :: filter isCoin rest else filter isCoin rest).
    destruct (isCoin o) eqn:Hc.
    + assert (Hs : sideHazard o = false)
        by (unfold sideHazard; now rewrite Hc, andb_false_r).
      destruct (IH (scanStep j r a o) (S k)) as [IH1 IH2].
      { rewrite scanStep_blocked, (scanStep_score_coin j r a o Hc), Hs, orb_false_r.
        intros Hb. specialize (Ha Hb). rewrite Nat2Z.inj_succ. unfold Z.succ.
        rewrite inject_Z_plus. change (inject_Z 1) with 1. lra. }
      rewrite scanStep_blocked, Hs, orb_false_r in IH1.
      change (length (o :: filter isCoin rest)) with (S (length (filter isCoin rest))).
      rewrite Nat.add_succ_r. rewrite Nat.add_succ_l in IH2.
      split; [| exact IH2].
      rewrite Hs. simpl. intros [H | H]; apply IH1; auto.
    + pose proof (scanStep_score_hazard j r a o Hc) as Hsc.
      destruct (IH (scanStep j r a o) k) as [IH1 IH2].
      { rewrite scanStep_blocked. intros Hb. destruct (sideHazard o).
        - assert (0 <= inject_Z (Z.of_nat k)).
          { change 0 with (inject_Z 0). rewrite <- Zle_Qle. lia. }
          lra.
        - rewrite orb_false_r in Hb. specialize (Ha Hb). lra. }
      rewrite scanStep_blocked in IH1.
      split; [| exact IH2].
      intros [H | H]; apply IH1.
      * left. now rewrite H.
      * destruct (sideHazard o); [left; apply orb_true_r | right; assumption].
Qed.

Lemma insertSorted_count {A} (le : A -> A -> bool) (p : A -> bool) x l :
  length (filter p (insertSorted le x l)) = length (filter p (x :: l)).
Proof.
  induction l as [| y ys IH]; simpl; [reflexivity |].
  destruct (le x y); simpl; [reflexivity |].
  simpl in IH. destruct (p y), (p x); simpl in *; lia.
Qed.

Lemma stableSort_count {A} (le : A -> A -> bool) (p : A -> bool) l :
  length (filter p (stableSort le l)) = length (filter p l).
Proof.
  induction l as [| y ys IH]; simpl; [reflexivity |].
  rewrite insertSorted_count. simpl. destruct (p y); simpl; now rewrite IH.
Qed.

(** C6 as stated fails: a coin processed after the blocking hazard still adds
    its bonus to the sentinel. *)
Lemma C6_score_not_sentinel :
  la_isBlockedSide (analyzeLane 1 1062.8 engineSideBlocked) = true /\
  la_score (analyzeLane 1 1062.8 engineSideBlocked) == sentinel + 50 /\
  ~ la_score (analyzeLane 1 1062.8 engineSideBlocked) == sentinel.
Proof.
  vm_compute. repeat split; discriminate.
Qed.

(** C6 (amended): an active hazard of the lane inside the side-swipe window
    [-4 < z < 5] marks the lane blocked-beside and resets the running score to
    the sentinel; what is processed afterwards still counts, so the returned
    score is at most the sentinel plus 50 per coin scanned in the lane plus
    the centre-lane bonus. *)
Theorem C6_side_block (laneIdx : Z) (range : Q) (e : Engine) (h : Obstacle) :
  4 <= range ->
  In h (obstacles e) -> active h = true -> lane h = laneIdx ->
  collisionType h <> COIN -> -4 < pos_z h < 5 ->
  la_isBlockedSide (analyzeLane laneIdx range e) = true /\
  la_score (analyzeLane laneIdx range e) <=
    sentinel + 50 * inject_Z (Z.of_nat (coinsInLane laneIdx range e))
    + centreBonus laneIdx.
Proof.
  intros Hr Hin Ha Hl Hk [Hz1 Hz2].
  unfold analyzeLane, coinsInLane, centreBonus.
  set (laneObs := stableSort byZDescending _).
  destruct (fold_scanStep_bound (isJumping e) (isRolling e) laneObs
              (analysisInit laneIdx) 0) as [H1 H2]; [discriminate |].
  assert (Hside : existsb sideHazard laneObs = true).
  { apply existsb_exists. exists h. split.
    - unfold laneObs. rewrite stableSort_In. apply filter_In. split; [assumption |].
      unfold laneFilter. rewrite Ha, Hl, Z.eqb_refl. simpl.
      apply andb_true_iff. split; apply Qltb_iff; lra.
    - unfold sideHazard, inSideWindow, isCoin.
      apply andb_true_iff. split.
      + apply andb_true_iff. split; apply Qltb_iff; lra.
      + destruct (collisionType h); simpl; congruence. }
  specialize (H1 (or_intror Hside)). specialize (H2 H1).
  unfold laneObs in H2 at 2. rewrite stableSort_count in H2. simpl in H2.
  destruct (laneIdx =? 0)%Z; simpl; split; try assumption; lra.
Qed.

Lemma C6_side_block_witness :
  la_isBlockedSide (analyzeLane 1 1062.8 engineSideBlocked) = true /\
  la_score (analyzeLane 1 1062.8 engineSideBlocked) <=
    sentinel + 50 * inject_Z (Z.of_nat (coinsInLane 1 1062.8 engineSideBlocked))
    + centreBonus 1.
Proof.
  apply (C6_side_block 1 1062.8 engineSideBlocked (mkObstacle 4 3 true 1%Z SOLID)).
  - vm_compute. discriminate.
  - simpl. left. reflexivity.
  - reflexivity.
  - reflexivity.
  - simpl. discriminate.
  - simpl. split; vm_compute; reflexivity.
Defined.

Lemma Inv_engineSideBlocked : Inv engineSideBlocked.
Proof.
  constructor; simpl; auto; try (unfold validLane; lia).
  - unfold maxSpeed. lra.
  - intros _. unfold startSpeed. lra.
  - repeat first [apply SSorted_nil | apply SSorted_cons
                 | apply Forall_nil | apply Forall_cons].
    right. simpl. lra.
  - repeat constructor; unfold onLane, laneWidth; simpl; lra.
Qed.

(** ** Spawn gate *)

Lemma spawnDue_iff e :
  spawnDue e = true <->
  obstacles e = [] \/
  exists lo, lastObstacle (obstacles e) = Some lo /\
             spawnZ + (50 + gameSpeed e * 30) < pos_z lo.
Proof.
  unfold spawnDue, minGap.
  destruct (lastObstacle (obstacles e)) as [lo |] eqn:Hl.
  - rewrite Qltb_iff. split.
    + intros H. right. exists lo. auto.
    + intros [H | (lo' & [= <-] & H)]; [| assumption].
      rewrite H in Hl. discriminate.
  - split; [| reflexivity]. intros _. left. now apply lastObstacle_None.
Qed.

(** C7 as stated fails: the first frame of a run emits a row although the
    array holds no obstacle at all, and when that row places nothing (the
    safe lane moves, no entry is added) the next frame emits another row,
    one frame's travel behind the first instead of a gap. *)
Lemma C7_rows_without_gap :
  exists e1 e2,
    start drawsSparse engine0 = Some e1 /\
    obstacles e1 = [] /\ lastSafeLane engine0 = 0%Z /\ lastSafeLane e1 = 1%Z /\
    animate drawsDense e1 = Some e2 /\
    length (obstacles e2) = 3%nat /\ lastSafeLane e2 = 0%Z /\
    Forall (fun o => pos_z o == spawnZ) (obstacles e2).
Proof.
  eexists. eexists. split; [vm_compute; reflexivity |].
  split; [reflexivity |]. split; [reflexivity |]. split; [reflexivity |].
  split; [vm_compute; reflexivity |].
  split; [reflexivity |]. split; [reflexivity |].
  repeat constructor.
Qed.

(** C7 (amended): in a frame, a row is emitted iff after the obstacle loop the
    array is empty or its last entry, which trails every other entry, lies
    beyond [spawnZ + 50 + 30 * speed]; no other quantity enters the gate.
    When a row is emitted its entries are placed at [spawnZ], and every entry
    already in the array is more than [50 + 30 * speed] ahead of them. *)
Theorem C7_spawn_gate (inputs : list Input) (e : Engine) (d : RowDraws) :
  run inputs engine0 = Some e -> state e = PLAYING ->
  exists w e',
    updateWorld e = Some w /\ update d e = Some e' /\
    (spawnDue w = true <->
       obstacles w = [] \/
       exists lo, lastObstacle (obstacles w) = Some lo /\
                  Forall (fun o => pos_z lo <= pos_z o) (obstacles w) /\
                  spawnZ + (50 + gameSpeed w * 30) < pos_z lo) /\
    (spawnDue w = false -> e' = w) /\
    (spawnDue w = true ->
       e' = spawnObstacleRow spawnZ d w /\
       exists news,
         obstacles e' = obstacles w ++ news /\
         Forall (fun n => pos_z n = spawnZ) news /\
         forall o n, In o (obstacles w) -> In n news ->
                     50 + gameSpeed e' * 30 < pos_z o - pos_z n).
Proof.
  intros Hrun Hp. pose proof (run_Inv inputs e Hrun) as HI.
  destruct (updateWorld_sound e HI Hp) as (w & Hw & HIw & _).
  exists w. eexists. split; [assumption |].
  split; [unfold update; rewrite Hw; reflexivity |].
  split; [| split].
  - rewrite spawnDue_iff. split; intros [H | (lo & Hl & H)]; auto; right; exists lo.
    + split; [assumption |]. split; [| assumption].
      now apply lastObstacle_trailing; [apply (inv_rows w HIw) |].
    + tauto.
  - intros ->. reflexivity.
  - intros Hdue. rewrite Hdue. split; [reflexivity |].
    destruct (spawnObstacleRow_shape spawnZ d w) as (news & -> & _ & Hf).
    exists news. simpl. split; [reflexivity |]. split.
    + eapply Forall_impl; [| exact Hf]. cbv beta. tauto.
    + intros o n Ho Hn. rewrite Forall_forall in Hf. destruct (Hf n Hn) as (-> & _).
      apply spawnDue_iff in Hdue. destruct Hdue as [Hnil | (lo & Hl & Hlt)].
      * rewrite Hnil in Ho. contradiction.
      * pose proof (lastObstacle_trailing _ _ (inv_rows w HIw) Hl) as Ht.
        rewrite Forall_forall in Ht. specialize (Ht o Ho). lra.
Qed.

Lemma C7_spawn_gate_witness :
  exists w e',
    updateWorld engineDemo = Some w /\ update drawsDense engineDemo = Some e' /\
    (spawnDue w = true <->
       obstacles w = [] \/
       exists lo, lastObstacle (obstacles w) = Some lo /\
                  Forall (fun o => pos_z lo <= pos_z o) (obstacles w) /\
                  spawnZ + (50 + gameSpeed w * 30) < pos_z lo) /\
    (spawnDue w = false -> e' = w) /\
    (spawnDue w = true ->
       e' = spawnObstacleRow spawnZ drawsDense w /\
       exists news,
         obstacles e' = obstacles w ++ news /\
         Forall (fun n => pos_z n = spawnZ) news /\
         forall o n, In o (obstacles w) -> In n news ->
                     50 + gameSpeed e' * 30 < pos_z o - pos_z n).
Proof.
  apply (C7_spawn_gate inputsDemo engineDemo drawsDense).
  - vm_compute. reflexivity.
  - reflexivity.
Defined.

(** ** Navigator: the lane decision *)

(** The emergency branch moves by one lane at most. *)
Lemma emergencyDecision_one_step cur sorted cs best t act :
  emergencyDecision cur sorted cs best = Some (t, act) ->
  (Z.abs (t - cur) <= 1)%Z.
Proof.
  unfold emergencyDecision.
  destruct (negb (la_lane best =? cur)%Z); [| intros [= <- _]; lia].
  destruct (findLane _ sorted) as [next |]; [| discriminate].
  destruct (negb (la_isBlockedSide next)); [| intros [= <- _]; lia].
  destruct (_ || _); intros [= <- _]; [| lia].
  destruct (0 <? la_lane best - cur)%Z; lia.
Qed.

(** C2 fails in the optimization branch: with the player in the left lane,
    no emergency and the cooldown expired, a right lane that scores more than
    50 better is entered in one frame, a change of two lanes. *)
Theorem C2_optimization_skips_lane :
  exists e e' a,
    run [Start drawsDense; MoveLeft; ToggleAutoPilot true] engine0 = Some e /\
    state e = PLAYING /\ autoPilotEnabled e = true /\
    aiLaneChangeCooldown e = 0%Z /\ currentLane e = (-1)%Z /\
    animate drawsDense e = Some e' /\
    hd_error (events e') = Some (AIUpdate a) /\
    ai_action a = RUN /\ ai_confidence a = 100%Z /\ ai_targetLane a = 1%Z /\
    currentLane e' = 1%Z /\ (Z.abs (currentLane e' - currentLane e) = 2)%Z.
Proof.
  eexists. eexists. eexists. split; [vm_compute; reflexivity |].
  do 4 (split; [reflexivity |]).
  split; [vm_compute; reflexivity |].
  split; [reflexivity |].
  do 4 (split; [reflexivity |]). reflexivity.
Qed.

(** ** Coin bonus *)

(** C3 fails on the bonus: the frame of the contact reports the score before
    the collision scan, adds 500 to the score field and retires the coin; the
    next frame recomputes the score from the distance alone, so the bonus is
    never reported. *)
Theorem C3_coin_bonus_lost :
  exists e1 e2,
    animate drawsSparse engineCoin = Some e1 /\
    state e1 = PLAYING /\
    map active (obstacles e1) = [false] /\
    events e1 = [ScoreChange 1798] /\ score e1 = 2298%Z /\
    animate drawsSparse e1 = Some e2 /\
    state e2 = PLAYING /\
    map active (obstacles e2) = [false] /\
    events e2 = [ScoreChange 1804; ScoreChange 1798] /\ score e2 = 1804%Z.
Proof.
  eexists. eexists. split; [vm_compute; reflexivity |].
  do 4 (split; [reflexivity |]).
  split; [vm_compute; reflexivity |].
  do 3 (split; [reflexivity |]). reflexivity.
Qed.

(** * Further properties of the engine *)

(** ** Phases of a frame *)

Lemma updateWorld_phases e :
  updateWorld e =
  match navigate (clockTick e) with
  | None => None
  | Some e5 => Some (scanPhase (physics e5))
  end.
Proof.
  unfold updateWorld, navigate, clockTick, scanPhase.
  destruct (if autoPilotEnabled _ then _ else _) as [e5 |]; [| reflexivity].
  destruct (scanObstacles (obstacles (physics e5)) (physics e5)). reflexivity.
Qed.

Lemma Inv_clockTick e : Inv e -> Inv (clockTick e).
Proof.
  intros [H1 H2 H3 H4 H5 H6 H7].
  destruct (speed_step _ H4) as (S1 & S2 & S3).
  constructor; simpl; auto.
Qed.

Lemma Inv_navigate e e' : Inv e -> navigate e = Some e' -> Inv e'.
Proof.
  unfold navigate. destruct (autoPilotEnabled e).
  - intros HI H. eapply Inv_updateAI; eauto.
  - now intros HI [= <-].
Qed.


(** ** Lane commands *)

(** X1: [moveLeft] and [moveRight] never leave the three lanes and move by one
    lane at most; at the outer lanes they do nothing, elsewhere each undoes
    the other. *)
Theorem lane_commands_clamped (e : Engine) :
  validLane (currentLane e) ->
  validLane (currentLane (moveLeft e)) /\ validLane (currentLane (moveRight e)) /\
  (currentLane e = (-1)%Z -> moveLeft e = e) /\
  (currentLane e = 1%Z -> moveRight e = e) /\
  ((-1 < currentLane e)%Z ->
     currentLane (moveLeft e) = (currentLane e - 1)%Z /\ moveRight (moveLeft e) = e) /\
  ((currentLane e < 1)%Z ->
     currentLane (moveRight e) = (currentLane e + 1)%Z /\ moveLeft (moveRight e) = e).
Proof.
  unfold validLane, moveLeft, moveRight. intros Hv.
  split; [| split; [| split; [| split; [| split]]]].
  - destruct (Z.ltb_spec (-1) (currentLane e)); simpl; lia.
  - destruct (Z.ltb_spec (currentLane e) 1); simpl; lia.
  - intros ->. reflexivity.
  - intros ->. reflexivity.
  - intros H. destruct (Z.ltb_spec (-1) (currentLane e)); [| lia]. simpl.
    split; [reflexivity |].
    destruct (Z.ltb_spec (currentLane e - 1) 1); [| lia].
    destruct e. simpl. now rewrite Z.sub_add.
  - intros H. destruct (Z.ltb_spec (currentLane e) 1); [| lia]. simpl.
    split; [reflexivity |].
    destruct (Z.ltb_spec (-1) (currentLane e + 1)); [| lia].
    destruct e. simpl. now rewrite Z.add_simpl_r.
Qed.

Lemma lane_commands_clamped_witness :
  moveRight (moveLeft engine0) = engine0 /\ moveLeft (moveLeft (moveLeft engine0)) = moveLeft (moveLeft engine0).
Proof.
  split.
  - apply (lane_commands_clamped engine0).
    + unfold validLane. simpl. lia.
    + simpl. lia.
  - apply (lane_commands_clamped (moveLeft (moveLeft engine0))).
    + unfold validLane. vm_compute. split; discriminate.
    + reflexivity.
Defined.

(** ** The second invariant *)

Lemma Inv2_engine0 : Inv2 engine0.
Proof.
  constructor; simpl; auto; try discriminate; unfold playerBaseY; lra.
Qed.

Lemma Inv2_jump e : Inv2 e -> Inv2 (jump e).
Proof.
  intros [H1 H2 H3 H4 H5 H6 H7]. unfold jump.
  destruct (isJumping e) eqn:Hj; simpl; constructor; simpl; auto;
    try discriminate.
  rewrite Hj. discriminate.
Qed.

Lemma Inv2_roll e : Inv2 e -> Inv2 (roll e).
Proof.
  intros [H1 H2 H3 H4 H5 H6 H7]. unfold roll.
  destruct (negb (isJumping e) && negb (isRolling e)); constructor; simpl; auto.
  intros _. lia.
Qed.

Lemma Inv2_moves e :
  Inv2 e -> Inv2 (moveLeft e) /\ Inv2 (moveRight e) /\
            forall v, Inv2 (toggleAutoPilot v e).
Proof.
  intros [H1 H2 H3 H4 H5 H6 H7]. unfold moveLeft, moveRight, toggleAutoPilot.
  split; [| split].
  - destruct (_ <? _)%Z; constructor; simpl; auto.
  - destruct (_ <? _)%Z; constructor; simpl; auto.
  - intros v. constructor; simpl; auto.
Qed.

Lemma Inv2_physics e : Inv2 e -> Inv2 (physics e).
Proof.
  intros [H1 H2 H3 H4 H5 H6 H7]. unfold physics. simpl.
  destruct (isJumping e) eqn:Hj; simpl.
  - destruct (Qle_bool (playerY e + playerVelocityY e) playerBaseY) eqn:Hy; simpl.
    + constructor; simpl; auto. apply Qle_refl.
    + apply Qle_bool_false_iff in Hy.
      constructor; simpl; auto; [lra | rewrite Hj; discriminate].
  - destruct (isRolling e) eqn:Hr; simpl.
    + specialize (H3 eq_refl).
      destruct (Z.leb_spec (rollTimer e - 1) 0); constructor; simpl; auto;
        try (rewrite Hr); try discriminate; intros _; lia.
    + constructor; simpl; auto. rewrite Hr. discriminate.
Qed.

Lemma Inv2_clockTick e : Inv e -> Inv2 e -> Inv2 (clockTick e).
Proof.
  intros HI [H1 H2 H3 H4 H5 H6 H7].
  destruct (speed_step _ (inv_speed e HI)) as ((S1 & _) & _).
  constructor; simpl; auto. lra.
Qed.

Lemma Inv2_updateAI e e' : Inv2 e -> updateAI e = Some e' -> Inv2 e'.
Proof.
  intros HI H. apply updateAI_shape in H.
  destruct H as (c & l & a & e4 & _ & He4 & ->). simpl in He4.
  assert (H3 : Inv2 (set_currentLane l (set_aiLaneChangeCooldown c e))).
  { destruct HI as [H1 H2 H3 H4 H5 H6 H7]. constructor; simpl; auto. }
  assert (H4 : Inv2 e4)
    by (destruct He4 as [-> | [-> | ->]]; auto using Inv2_jump, Inv2_roll).
  destruct H4 as [H1 H2' H3' H4' H5 H6 H7]. constructor; simpl; auto.
Qed.

Lemma Inv2_navigate e e' : Inv2 e -> navigate e = Some e' -> Inv2 e'.
Proof.
  unfold navigate. destruct (autoPilotEnabled e).
  - intros HI H. eapply Inv2_updateAI; eauto.
  - now intros HI [= <-].
Qed.

(** What one iteration of the obstacle loop does to the entry. *)
Lemma collide_entry o e :
  movedFrom (gameSpeed e) o (snd (collide o e)) /\
  (active (snd (collide o e)) = true -> active o = true) /\
  (collisionType o <> COIN -> active (snd (collide o e)) = active o).
Proof.
  split; [apply collide_moved |]. unfold collide.
  destruct (active (set_pos_z _ o) && inContact _ e) eqn:Hc; [| simpl; auto].
  simpl in Hc. apply andb_true_iff in Hc. destruct Hc as [Ha _].
  simpl collisionType.
  destruct (collisionType o); simpl;
    try (match goal with |- context [negb ?b] => destruct b end; simpl);
    split; auto; congruence.
Qed.

Lemma scanObstacles_entries l e :
  Forall (fun o' => ~ 15 < pos_z o' /\
                    exists o, In o l /\ movedFrom (gameSpeed e) o o' /\
                              (active o' = true -> active o = true) /\
                              (collisionType o <> COIN -> active o' = active o))
         (snd (scanObstacles l e)).
Proof.
  induction l as [| o rest IH]; simpl; [constructor |].
  pose proof (scanObstacles_frame rest e) as Hf.
  destruct (scanObstacles rest e) as [e1 rest']. simpl in *.
  pose proof (collide_entry o e1) as (Hm & Ha & Hk).
  destruct (scanFrame_fields _ _ Hf) as (Hsp & _). rewrite Hsp in Hm.
  destruct (collide o e1) as [e2 obs]. simpl in *.
  assert (Hrest : Forall (fun o' => ~ 15 < pos_z o' /\
      exists o0, (o = o0 \/ In o0 rest) /\ movedFrom (gameSpeed e) o0 o' /\
                 (active o' = true -> active o0 = true) /\
                 (collisionType o0 <> COIN -> active o' = active o0)) rest').
  { eapply Forall_impl; [| exact IH]. intros a (Hz & b & Hb & Hab). eauto. }
  destruct (Qltb 15 (pos_z obs)) eqn:Hz; [assumption |].
  constructor; [| assumption]. split.
  - apply Qltb_false_iff in Hz. lra.
  - exists o. auto.
Qed.

Lemma Inv2_scanPhase e : 0 <= gameSpeed e -> Inv2 e -> Inv2 (scanPhase e).
Proof.
  intros Hs [H1 H2 H3 H4 H5 H6 H7]. unfold scanPhase.
  pose proof (scanObstacles_frame (obstacles e) e) as Hf.
  pose proof (scanObstacles_entries (obstacles e) e) as He.
  destruct Hf as (s & sc & ev & Hf).
  destruct (scanObstacles (obstacles e) e) as [e' l']. simpl in *. subst e'.
  rewrite Forall_forall in *.
  constructor; simpl; auto; rewrite Forall_forall; intros o' Ho';
    destruct (He o' Ho') as (Hz & o & Ho & (Hmz & _ & Hml & Hmk) & Ha & Hk).
  - specialize (H5 o Ho). rewrite Hmz. split; [lra |].
    rewrite <- Hmz. lra.
  - rewrite Hmk. intros Hc. rewrite (Hk Hc). now apply H6.
  - rewrite Hml. now apply H7.
Qed.

(** ** Rows *)

Lemma spawnObstacleRow_entries z d e :
  let s := pickSafeLane (pickDraw d) (lastSafeLane e) in
  exists news,
    spawnObstacleRow z d e = set_obstacles (obstacles e ++ news) (set_lastSafeLane s e) /\
    (length news <= 3)%nat /\ NoDup (map lane news) /\
    Forall (fun o => validLane (lane o) /\ pos_z o = z /\
                     pos_x o = inject_Z (lane o) * laneWidth /\ active o = true /\
                     (lane o = s <-> collisionType o = COIN)) news.
Proof.
  intros s. unfold spawnObstacleRow. simpl. fold s.
  set (e1 := set_lastSafeLane s e).
  destruct (spawnLane_shape z d s e1 (-1)%Z) as (n1 & -> & L1 & F1).
  destruct (spawnLane_shape z d s (set_obstacles (obstacles e1 ++ n1) e1) 0%Z)
    as (n2 & -> & L2 & F2).
  match goal with
  | |- context [spawnLane z d s ?e2 1%Z] =>
      destruct (spawnLane_shape z d s e2 1%Z) as (n3 & -> & L3 & F3)
  end.
  exists (n1 ++ n2 ++ n3). split; [| split; [| split]].
  - unfold e1. destruct e. simpl. now rewrite <- !app_assoc.
  - rewrite !length_app. lia.
  - assert (Hone : forall n : list Obstacle,
               (length n <= 1)%nat -> n = [] \/ exists o, n = [o]).
    { intros [| o [| ? ?]]; simpl; intros; [auto | eauto | lia]. }
    destruct (Hone n1 L1) as [-> | [a ->]];
      destruct (Hone n2 L2) as [-> | [b ->]];
      destruct (Hone n3 L3) as [-> | [c ->]]; simpl;
      repeat match goal with
             | H : Forall _ (_ :: _) |- _ => inversion H; clear H; subst
             | H : _ /\ _ |- _ => destruct H
             end;
      repeat match goal with H : lane _ = _ |- _ => rewrite H end;
      repeat constructor; simpl; intuition (try discriminate).
  - rewrite !Forall_app. repeat split.
    all: match goal with
         | |- Forall _ ?n =>
             match goal with
             | H : Forall _ n |- _ =>
                 eapply Forall_impl; [| exact H]; cbv beta;
                 intros o (Hz & Hl & Hx & Ha & Hk); rewrite Hl;
                 (split; [unfold validLane; lia |]); tauto
             end
         end.
Qed.

Lemma Inv2_spawn d e : Inv2 e -> Inv2 (spawnObstacleRow spawnZ d e).
Proof.
  intros [H1 H2 H3 H4 H5 H6 H7].
  destruct (spawnObstacleRow_entries spawnZ d e) as (news & -> & _ & _ & Hf).
  constructor; simpl; auto; rewrite Forall_app; (split; [assumption |]);
    (eapply Forall_impl; [| exact Hf]); cbv beta;
    intros o (Hv & Hz & Hx & Ha & Hk); auto.
  rewrite Hz. unfold spawnZ. lra.
Qed.

Lemma Inv2_update d e e' : Inv e -> Inv2 e -> update d e = Some e' -> Inv2 e'.
Proof.
  intros HI HI2. unfold update. rewrite updateWorld_phases.
  destruct (navigate (clockTick e)) as [e5 |] eqn:Hn; [| discriminate].
  pose proof (Inv_navigate _ _ (Inv_clockTick e HI) Hn) as HI5.
  pose proof (Inv2_navigate _ _ (Inv2_clockTick e HI HI2) Hn) as HI25.
  pose proof (Inv_physics _ HI5) as HI6.
  pose proof (Inv2_physics _ HI25) as HI26.
  pose proof (Inv2_scanPhase _ (proj1 (inv_speed _ HI6)) HI26) as HI28.
  intros [= <-]. destruct (spawnDue _); [now apply Inv2_spawn | assumption].
Qed.

Lemma Inv2_exec i e e' : Inv e -> Inv2 e -> exec i e = Some e' -> Inv2 e'.
Proof.
  intros HI HI2. destruct (Inv2_moves e HI2) as (M1 & M2 & M3).
  destruct i as [d | | | | | v | d]; simpl; try (intros [= <-]; auto using Inv2_jump, Inv2_roll).
  - unfold start.
    assert (Hgo : forall e11, Inv e11 -> Inv2 e11 -> state e11 = PLAYING ->
                        animate d e11 = Some e' -> Inv2 e').
    { intros e11 A B Hp. unfold animate. rewrite Hp. now apply Inv2_update. }
    pose proof HI2 as HI2'.
    destruct HI as [A1 A2 A3 A4 A5 A6 A7], HI2 as [B1 B2 B3 B4 B5 B6 B7].
    destruct (state e) eqn:Hs; [| intros [= <-]; exact HI2' |];
      (apply Hgo; [| | reflexivity]);
      try (constructor; simpl; auto; try (unfold validLane; lia); try constructor;
           unfold startSpeed, maxSpeed, playerBaseY; try discriminate; lra).
  - unfold animate. destruct (state e); try (now intros [= <-]).
    now apply Inv2_update.
Qed.

Lemma run_Inv2 inputs e : run inputs engine0 = Some e -> Inv e /\ Inv2 e.
Proof.
  assert (H : forall e0, Inv e0 -> Inv2 e0 -> run inputs e0 = Some e -> Inv e /\ Inv2 e).
  { induction inputs as [| i rest IH]; intros e0 A B; simpl.
    - intros [= <-]. auto.
    - destruct (exec_sound i e0 A) as (e1 & He1 & A1 & _). rewrite He1.
      apply IH; [assumption |]. exact (Inv2_exec i e0 e1 A B He1). }
  apply H; [apply Inv_engine0 | apply Inv2_engine0].
Qed.

(** ** Player physics *)

(** X2: the player never sinks below the base height, and stands exactly on it
    whenever no jump is in progress. *)
Theorem player_never_below_ground (inputs : list Input) :
  exists e, run inputs engine0 = Some e /\
            playerBaseY <= playerY e /\
            (isJumping e = false -> playerY e = playerBaseY).
Proof.
  destruct (run_sound inputs engine0 Inv_engine0) as (e & He & _).
  exists e. split; [assumption |].
  destruct (run_Inv2 inputs e He) as [_ H2].
  split; [apply (inv_ground e H2) | apply (inv_grounded e H2)].
Qed.

Lemma physics_rolling e :
  isJumping e = false -> isRolling e = true ->
  isJumping (physics e) = false /\
  rollTimer (physics e) = (rollTimer e - 1)%Z /\
  isRolling (physics e) = negb (rollTimer e - 1 <=? 0)%Z.
Proof.
  intros Hj Hr. unfold physics. simpl. rewrite Hj, Hr. simpl.
  destruct (rollTimer e - 1 <=? 0)%Z; simpl; auto.
Qed.

Lemma roll_countdown (n : nat) : forall e,
  isJumping e = false -> isRolling e = true -> rollTimer e = Z.of_nat (S n) ->
  (forall k, (k <= n)%nat ->
     isRolling (Nat.iter k physics e) = true /\
     isJumping (Nat.iter k physics e) = false /\
     rollTimer (Nat.iter k physics e) = (Z.of_nat (S n) - Z.of_nat k)%Z) /\
  isRolling (Nat.iter (S n) physics e) = false.
Proof.
  intros e Hj Hr Ht.
  assert (Hk : forall k, (k <= n)%nat ->
     isRolling (Nat.iter k physics e) = true /\
     isJumping (Nat.iter k physics e) = false /\
     rollTimer (Nat.iter k physics e) = (Z.of_nat (S n) - Z.of_nat k)%Z).
  { induction k as [| k IH]; intros Hle.
    - simpl Nat.iter. rewrite Ht. repeat split; auto; lia.
    - destruct IH as (I1 & I2 & I3); [lia |].
      simpl Nat.iter.
      destruct (physics_rolling _ I2 I1) as (P1 & P2 & P3).
      rewrite P1, P2, P3, I3. split; [| split; [reflexivity | lia]].
      apply negb_true_iff, Z.leb_gt. lia. }
  split; [exact Hk |].
  destruct (Hk n (Nat.le_refl n)) as (I1 & I2 & I3).
  simpl Nat.iter. destruct (physics_rolling _ I2 I1) as (_ & _ & P3).
  rewrite P3, I3. apply negb_false_iff, Z.leb_le. lia.
Qed.

(** X3: a roll started on the ground lasts exactly 40 frames of physics: the
    player is rolling after each of the first 39 and standing again after the
    fortieth. *)
Theorem roll_lasts_40_frames (e : Engine) :
  isJumping e = false -> isRolling e = false ->
  (forall k, (k < 40)%nat -> isRolling (Nat.iter k physics (roll e)) = true) /\
  isRolling (Nat.iter 40 physics (roll e)) = false.
Proof.
  intros Hj Hr.
  assert (Hroll : roll e = set_rollTimer 40%Z (set_isRolling true e))
    by (unfold roll; now rewrite Hj, Hr).
  assert (A1 : isJumping (roll e) = false) by (rewrite Hroll; exact Hj).
  assert (A2 : isRolling (roll e) = true) by (rewrite Hroll; reflexivity).
  assert (A3 : rollTimer (roll e) = Z.of_nat 40) by (rewrite Hroll; reflexivity).
  destruct (roll_countdown 39 (roll e) A1 A2 A3) as [H1 H2].
  split; [| exact H2].
  intros k Hk. apply H1. lia.
Qed.

Lemma roll_lasts_40_frames_witness :
  (forall k, (k < 40)%nat -> isRolling (Nat.iter k physics (roll engine0)) = true) /\
  isRolling (Nat.iter 40 physics (roll engine0)) = false.
Proof.
  apply (roll_lasts_40_frames engine0); reflexivity.
Defined.

(** X4: in every reachable state a roll in progress has between 1 and 40
    frames left. *)
Theorem roll_timer_bounded (inputs : list Input) :
  exists e, run inputs engine0 = Some e /\
            (isRolling e = true -> (0 < rollTimer e <= 40)%Z).
Proof.
  destruct (run_sound inputs engine0 Inv_engine0) as (e & He & _).
  exists e. split; [assumption |].
  apply (inv_roll e (proj2 (run_Inv2 inputs e He))).
Qed.

Lemma jumpFields_physics e : jumpFields (physics e) = arcStep (jumpFields e).
Proof.
  unfold jumpFields, arcStep, physics. simpl.
  destruct (isJumping e) eqn:Hj; simpl.
  - destruct (Qle_bool (playerY e + playerVelocityY e) playerBaseY); simpl;
      [reflexivity | now rewrite Hj].
  - destruct (isRolling e); simpl; [destruct (_ <=? 0)%Z |]; simpl; now rewrite Hj.
Qed.

Lemma jumpFields_iter k e :
  jumpFields (Nat.iter k physics e) = Nat.iter k arcStep (jumpFields e).
Proof.
  induction k as [| k IH]; simpl; [reflexivity |].
  now rewrite jumpFields_physics, IH.
Qed.

Lemma arcAirborneFor_iter n : forall s k,
  (1 <= k <= n)%nat -> arcAirborneFor n s = true ->
  arcAirborne (Nat.iter k arcStep s) = true.
Proof.
  induction n as [| n IH]; intros s k Hk H; [lia |].
  simpl in H. apply andb_true_iff in H. destruct H as [H1 H2].
  destruct k as [| k]; [lia |]. rewrite Nat.iter_succ_r.
  destruct k as [| k]; [exact H1 |].
  apply IH; [lia | assumption].
Qed.

(** X5: a jump from the ground lasts exactly 39 frames of physics.  After each
    of the first 38 the player is airborne above the clearance height 1.2 of
    the jump barriers and never above 4.8; after the 39th the player stands on
    the base height again with no vertical velocity. *)
Theorem jump_arc (e : Engine) (k : nat) :
  isJumping e = false -> playerY e = playerBaseY ->
  ((1 <= k <= 38)%nat ->
     isJumping (Nat.iter k physics (jump e)) = true /\
     1.2 < playerY (Nat.iter k physics (jump e)) <= 4.8) /\
  jumpFields (Nat.iter 39 physics (jump e)) = (playerBaseY, 0, false).
Proof.
  intros Hj Hy.
  assert (Hs : jumpFields (jump e) = arcStart).
  { unfold jump, jumpFields, arcStart. rewrite Hj. simpl. now rewrite Hy. }
  split.
  - intros Hk.
    assert (Hall : arcAirborneFor 38 arcStart = true) by (vm_compute; reflexivity).
    apply (arcAirborneFor_iter 38 arcStart k) in Hall; [| lia].
    unfold arcAirborne in Hall.
    pose proof (jumpFields_iter k (jump e)) as Hf. rewrite Hs in Hf.
    unfold jumpFields in Hf.
    destruct (Nat.iter k arcStep arcStart) as [[y vy] j].
    injection Hf as Hfy _ Hfj. rewrite Hfy, Hfj.
    apply andb_true_iff in Hall. destruct Hall as [Hall H3].
    apply andb_true_iff in Hall. destruct Hall as [H1 H2].
    apply Qltb_iff in H2. apply Qle_bool_iff in H3. auto.
  - rewrite jumpFields_iter, Hs. vm_compute. reflexivity.
Qed.

Lemma jump_arc_witness :
  isJumping (Nat.iter 20 physics (jump engine0)) = true /\
  1.2 < playerY (Nat.iter 20 physics (jump engine0)) <= 4.8.
Proof.
  apply (jump_arc engine0 20); [reflexivity | reflexivity | lia].
Defined.

Lemma physics_playerX e :
  let target := inject_Z (currentLane e) * laneWidth in
  let x1 := playerX e + (target - playerX e) * lerpFactor e in
  targetX (physics e) = target /\
  playerX (physics e) =
    if Qltb (Qabs (x1 - target)) (snapEpsilon e) then target else x1.
Proof.
  unfold physics, lerpFactor, snapEpsilon. simpl.
  destruct (isJumping e); simpl.
  - destruct (Qle_bool _ playerBaseY); simpl;
      destruct (autoPilotEnabled e); simpl; split; try reflexivity;
      destruct (Qltb _ _); reflexivity.
  - destruct (isRolling e); simpl; [destruct (_ <=? 0)%Z |]; simpl;
      destruct (autoPilotEnabled e); simpl; split; try reflexivity;
      destruct (Qltb _ _); reflexivity.
Qed.

(** X6: lane easing never overshoots.  After a frame the player's x lies
    between its old value and the centre of the current lane, its distance to
    that centre has shrunk by the factor 0.2 under autopilot and 0.7 in manual
    play at least, and it is exactly the centre once within the snap
    distance. *)
Theorem lane_easing (e : Engine) :
  let target := inject_Z (currentLane e) * laneWidth in
  let x' := playerX (physics e) in
  (playerX e <= target -> playerX e <= x' <= target) /\
  (target <= playerX e -> target <= x' <= playerX e) /\
  Qabs (x' - target) <= (1 - lerpFactor e) * Qabs (playerX e - target) /\
  (Qabs (playerX e - target) * (1 - lerpFactor e) < snapEpsilon e -> x' = target).
Proof.
  intros target x'.
  destruct (physics_playerX e) as [_ Hx]. fold target in Hx. unfold x'.
  set (f := lerpFactor e) in *.
  assert (Hf : 0 < f < 1) by (unfold f, lerpFactor; destruct (autoPilotEnabled e); lra).
  set (x := playerX e) in *.
  assert (Hd : x + (target - x) * f - target == (x - target) * (1 - f)) by ring.
  assert (Habs : Qabs (x + (target - x) * f - target) == Qabs (x - target) * (1 - f)).
  { rewrite Hd, Qabs_Qmult. rewrite (Qabs_pos (1 - f)); [reflexivity | lra]. }
  rewrite Hx. clear Hx.
  assert (Hup : x <= target -> 0 <= (target - x) * f /\ 0 <= (target - x) * (1 - f))
    by (intros; split; apply Qmult_le_0_compat; lra).
  assert (Hdn : target <= x -> 0 <= (x - target) * f /\ 0 <= (x - target) * (1 - f))
    by (intros; split; apply Qmult_le_0_compat; lra).
  destruct (Qltb (Qabs (x + (target - x) * f - target)) (snapEpsilon e)) eqn:Hs.
  - split; [intros; lra |]. split; [intros; lra |]. split; [| reflexivity].
    setoid_replace (target - target) with 0 by ring.
    change (Qabs 0) with 0.
    apply Qmult_le_0_compat; [lra | apply Qabs_nonneg].
  - split; [intros H; destruct (Hup H); lra |].
    split; [intros H; destruct (Hdn H); lra |]. split.
    + rewrite Habs. lra.
    + intros Hlt. apply Qltb_false_iff in Hs. rewrite Habs in Hs. lra.
Qed.

(** ** The obstacle array *)

(** X7: in every reachable state each entry of the obstacle array lies between
    the spawn line and the removal line, sits on the centre of a valid lane,
    and is active unless it is a coin (only coins are ever retired). *)
Theorem array_entries_well_formed (inputs : list Input) :
  exists e, run inputs engine0 = Some e /\
    Forall (fun o => -180 <= pos_z o <= 15 /\ validLane (lane o) /\
                     pos_x o == inject_Z (lane o) * 4 /\
                     (collisionType o <> COIN -> active o = true))
           (obstacles e).
Proof.
  destruct (run_sound inputs engine0 Inv_engine0) as (e & He & HI).
  exists e. split; [assumption |].
  destruct (run_Inv2 inputs e He) as [_ H2].
  pose proof (inv_band e H2) as B. pose proof (inv_hazards e H2) as A.
  pose proof (inv_lanes e H2) as L. pose proof (inv_onLane e HI) as X.
  rewrite Forall_forall in *. intros o Ho.
  specialize (B o Ho). specialize (A o Ho). specialize (L o Ho). specialize (X o Ho).
  unfold spawnZ in B. unfold onLane, laneWidth in X. auto.
Qed.

Lemma StronglySorted_pick {A} (R : A -> A -> Prop) l1 a l2 b l3 :
  StronglySorted R (l1 ++ a :: l2 ++ b :: l3) -> R a b.
Proof.
  induction l1 as [| x l1 IH]; simpl; intros H.
  - inversion H as [| ? ? _ Hall]; subst.
    rewrite Forall_forall in Hall. apply Hall.
    apply in_or_app. right. now left.
  - inversion H; subst. now apply IH.
Qed.

(** X8: whatever the player's position and the speed, two different entries of
    a reachable obstacle array are never in contact with the player in the
    same frame; entries of one row are a lane apart and rows are more than 50
    apart. *)
Theorem one_contact_per_frame (inputs : list Input) (e p : Engine)
  (l1 l2 l3 : list Obstacle) (a b : Obstacle) :
  run inputs engine0 = Some e ->
  obstacles e = l1 ++ a :: l2 ++ b :: l3 ->
  ~ (contact a p /\ contact b p).
Proof.
  intros Hrun Hobs [Ha Hb]. pose proof (run_Inv inputs e Hrun) as HI.
  pose proof (inv_rows e HI) as Hs. pose proof (inv_onLane e HI) as Hl.
  rewrite Hobs in Hs, Hl. apply StronglySorted_pick in Hs.
  rewrite Forall_forall in Hl.
  apply (contact_exclusive a b p Hs); auto; apply Hl.
  - apply in_or_app. right. now left.
  - apply in_or_app. right. right. apply in_or_app. right. now left.
Qed.

Lemma one_contact_per_frame_witness :
  ~ (contact (mkObstacle (-4) (-179.399600000) true (-1) JUMP) engineDemo /\
     contact (mkObstacle 0 (-179.399600000) true 0 JUMP) engineDemo).
Proof.
  apply (one_contact_per_frame inputsDemo engineDemo engineDemo []
           [] [mkObstacle 4 (-179.399600000) true 1 COIN]).
  - vm_compute. reflexivity.
  - vm_compute. reflexivity.
Defined.

(** ** The outcome of the obstacle loop *)

Lemma hitb_iff o e : hitb o e = true <-> contact o e.
Proof.
  unfold hitb, contact. rewrite andb_true_iff, inContact_iff. simpl. tauto.
Qed.

Lemma hitb_frame o e e' : scanFrame e e' -> hitb o e' = hitb o e.
Proof. intros (s & sc & ev & ->). now destruct e. Qed.

Lemma collide_nohit o e : hitb o e = false -> fst (collide o e) = e.
Proof.
  unfold hitb, collide. simpl. intros ->. reflexivity.
Qed.

Lemma collide_snd_frame o e e' :
  scanFrame e e' -> snd (collide o e') = snd (collide o e).
Proof.
  intros (s & sc & ev & ->). unfold collide.
  replace (inContact (set_pos_z (pos_z o + gameSpeed (set_events ev (set_state s (set_score sc e)))) o)
             (set_events ev (set_state s (set_score sc e))))
    with (inContact (set_pos_z (pos_z o + gameSpeed e) o) e) by now destruct e.
  replace (gameSpeed (set_events ev (set_state s (set_score sc e))))
    with (gameSpeed e) by now destruct e.
  destruct (active _ && inContact _ e); [| reflexivity].
  destruct (collisionType _); simpl;
    repeat match goal with |- context [negb ?b] => destruct b; simpl end;
    reflexivity.
Qed.

(** The loop treats every entry as if it were alone: the array it leaves is
    the array of the treated entries without those beyond the removal line. *)
Lemma scanObstacles_map l e :
  snd (scanObstacles l e) =
  filter (fun o => negb (Qltb 15 (pos_z o))) (map (fun o => snd (collide o e)) l).
Proof.
  induction l as [| o rest IH]; simpl; [reflexivity |].
  pose proof (scanObstacles_frame rest e) as Hf.
  destruct (scanObstacles rest e) as [e1 rest']. simpl in *.
  rewrite <- (collide_snd_frame o e e1 Hf).
  destruct (collide o e1) as [e2 obs]. simpl.
  destruct (Qltb 15 (pos_z obs)); simpl; now rewrite IH.
Qed.

Lemma scanObstacles_nohits l e :
  Forall (fun o => hitb o e = false) l -> fst (scanObstacles l e) = e.
Proof.
  induction 1 as [| o rest Ho Hrest IH]; simpl; [reflexivity |].
  destruct (scanObstacles rest e) as [e1 rest']. simpl in IH. subst e1.
  pose proof (collide_nohit o e Ho) as Hc.
  destruct (collide o e) as [e2 obs]. simpl in *. assumption.
Qed.

Lemma scanObstacles_onehit l1 o l2 e :
  Forall (fun a => hitb a e = false) l1 ->
  Forall (fun a => hitb a e = false) l2 ->
  fst (scanObstacles (l1 ++ o :: l2) e) = fst (collide o e).
Proof.
  intros H1 H2. induction H1 as [| a l1 Ha Hl1 IH]; simpl.
  - pose proof (scanObstacles_nohits l2 e H2) as Hn.
    destruct (scanObstacles l2 e) as [e1 rest']. simpl in Hn. subst e1.
    destruct (collide o e) as [e2 obs]. reflexivity.
  - destruct (scanObstacles (l1 ++ o :: l2) e) as [e1 rest']. simpl in IH. subst e1.
    pose proof (collide_frame o e) as Hf.
    pose proof (collide_nohit a (fst (collide o e))) as Hc.
    rewrite (hitb_frame a e _ Hf) in Hc. specialize (Hc Ha).
    destruct (collide a (fst (collide o e))) as [e2 obs]. simpl in *. assumption.
Qed.

Lemma StronglySorted_around {A} (R : A -> A -> Prop) l1 o l2 :
  StronglySorted R (l1 ++ o :: l2) ->
  Forall (fun a => R a o) l1 /\ Forall (R o) l2.
Proof.
  induction l1 as [| x l1 IH]; simpl; intros H; inversion H as [| ? ? Hs Hall]; subst.
  - split; [constructor | assumption].
  - destruct (IH Hs) as [I1 I2]. split; [| assumption].
    constructor; [| assumption].
    rewrite Forall_forall in Hall. apply Hall. apply in_or_app. right. now left.
Qed.

Lemma scan_cases (e : Engine) :
  Inv e ->
  let e' := fst (scanObstacles (obstacles e) e) in
  let l' := snd (scanObstacles (obstacles e) e) in
  (Forall (fun o => ~ contact o e) (obstacles e) /\ e' = e) \/
  exists o,
    In o (obstacles e) /\ contact o e /\
    ((collisionType o = COIN /\ e' = set_score (score e + 500)%Z e /\
      In (set_active false (set_pos_z (pos_z o + gameSpeed e) o)) l') \/
     (collisionType o <> COIN /\
      survives (collisionType o) (playerY e) (isRolling e) /\ e' = e) \/
     (fatalContact o e /\ e' = gameOver e)).
Proof.
  intros HI e' l'.
  destruct (existsb (fun o => hitb o e) (obstacles e)) eqn:Hex.
  - right. apply existsb_exists in Hex. destruct Hex as (o & Hin & Hhit).
    exists o. split; [assumption |].
    pose proof (proj1 (hitb_iff o e) Hhit) as Hc. split; [assumption |].
    destruct (in_split _ _ Hin) as (l1 & l2 & Hl).
    pose proof (inv_rows e HI) as Hs. pose proof (inv_onLane e HI) as Hon.
    rewrite Hl in Hs, Hon. destruct (StronglySorted_around _ _ _ _ Hs) as [S1 S2].
    rewrite Forall_app in Hon. destruct Hon as [On1 On2].
    inversion On2 as [| ? ? Ono On2']; subst.
    assert (N1 : Forall (fun a => hitb a e = false) l1).
    { rewrite Forall_forall in *. intros a Ha.
      destruct (hitb a e) eqn:Hh; [| reflexivity]. exfalso.
      apply hitb_iff in Hh. eapply (contact_exclusive a o e); eauto. }
    assert (N2 : Forall (fun a => hitb a e = false) l2).
    { rewrite Forall_forall in *. intros a Ha.
      destruct (hitb a e) eqn:Hh; [| reflexivity]. exfalso.
      apply hitb_iff in Hh. eapply (contact_exclusive o a e); eauto. }
    assert (He' : e' = fst (collide o e)).
    { unfold e'. rewrite Hl. now apply scanObstacles_onehit. }
    destruct (CollisionType_eqb (collisionType o) COIN) eqn:Hk.
    + apply CollisionType_eqb_eq in Hk. left. split; [assumption |].
      assert (Hcol : collide o e = (set_score (score e + 500)%Z e,
                                    set_active false (set_pos_z (pos_z o + gameSpeed e) o))).
      { unfold collide. unfold hitb in Hhit. simpl in Hhit |- *.
        rewrite Hhit. simpl. now rewrite Hk. }
      split; [now rewrite He', Hcol |].
      unfold l'. rewrite scanObstacles_map. apply filter_In. split.
      * apply in_map_iff. exists o. now rewrite Hcol.
      * simpl. apply negb_true_iff, Qltb_false_iff.
        destruct Hc as (_ & _ & Hz & _). lra.
    + assert (Hne : collisionType o <> COIN).
      { intros H. apply CollisionType_eqb_eq in H. congruence. }
      right. destruct (collide_safe o e Hc Hne) as [Hs1 Hs2].
      destruct (fatalb o e) eqn:Hfat.
      * right. apply fatalb_iff in Hfat. split; [assumption |].
        destruct Hfat as (_ & _ & Hns). now rewrite He', (Hs2 Hns).
      * left. split; [assumption |].
        assert (Hsv : survives (collisionType o) (playerY e) (isRolling e)).
        { apply not_true_iff_false in Hfat. rewrite fatalb_iff in Hfat.
          unfold fatalContact in Hfat.
          destruct (collisionType o) eqn:Hk'; simpl; try congruence.
          - apply Hfat. simpl. split; [exact Hc | split; [discriminate | tauto]].
          - destruct (Qlt_le_dec 1.2 (playerY e)); [assumption |]. exfalso.
            apply Hfat. simpl. split; [exact Hc | split; [discriminate | lra]].
          - destruct (isRolling e) eqn:Hr; [reflexivity |]. exfalso.
            apply Hfat. simpl. split; [exact Hc | split; discriminate]. }
        split; [assumption |]. now rewrite He', (Hs1 Hsv).
  - left. assert (Hno : Forall (fun o => hitb o e = false) (obstacles e)).
    { rewrite Forall_forall. intros o Ho.
      destruct (hitb o e) eqn:Hh; [| reflexivity].
      assert (existsb (fun o => hitb o e) (obstacles e) = true)
        by (apply existsb_exists; eauto). congruence. }
    split; [| now apply scanObstacles_nohits].
    eapply Forall_impl; [| exact Hno]. cbv beta. intros o Hh Hc.
    apply hitb_iff in Hc. congruence.
Qed.

(** X9: on an array that satisfies the row invariant the obstacle loop has one
    of four outcomes.  Nothing is in contact and the engine is untouched; or
    exactly one entry is in contact and, according to its kind, a coin adds
    500 to the score field and stays in the array retired, a survived barrier
    changes nothing, and any other hazard is the game over, reported with the
    score as it stood before the loop. *)
Theorem scan_outcome (e : Engine) :
  Inv e ->
  let e' := fst (scanObstacles (obstacles e) e) in
  let l' := snd (scanObstacles (obstacles e) e) in
  (Forall (fun o => ~ contact o e) (obstacles e) /\ e' = e) \/
  exists o,
    In o (obstacles e) /\ contact o e /\
    ((collisionType o = COIN /\ e' = set_score (score e + 500)%Z e /\
      In (set_active false (set_pos_z (pos_z o + gameSpeed e) o)) l') \/
     (collisionType o <> COIN /\
      survives (collisionType o) (playerY e) (isRolling e) /\ e' = e) \/
     (fatalContact o e /\ e' = gameOver e)).
Proof.
  exact (scan_cases e).
Qed.

Lemma scan_outcome_witness :
  let e' := fst (scanObstacles (obstacles engineWall) engineWall) in
  let l' := snd (scanObstacles (obstacles engineWall) engineWall) in
  (Forall (fun o => ~ contact o engineWall) (obstacles engineWall) /\ e' = engineWall) \/
  exists o,
    In o (obstacles engineWall) /\ contact o engineWall /\
    ((collisionType o = COIN /\ e' = set_score (score engineWall + 500)%Z engineWall /\
      In (set_active false (set_pos_z (pos_z o + gameSpeed engineWall) o)) l') \/
     (collisionType o <> COIN /\
      survives (collisionType o) (playerY engineWall) (isRolling engineWall) /\
      e' = engineWall) \/
     (fatalContact o engineWall /\ e' = gameOver engineWall)).
Proof.
  apply (scan_outcome engineWall). exact Inv_engineWall.
Defined.

(** ** Lane analysis: what the summary says *)

Lemma stableSort_filter_scanned laneIdx range e o :
  In o (stableSort byZDescending (filter (laneFilter laneIdx range) (obstacles e))) <->
  scanned laneIdx range e o.
Proof.
  rewrite stableSort_In, filter_In. unfold laneFilter, scanned.
  rewrite !andb_true_iff, Z.eqb_eq, !Qltb_iff. tauto.
Qed.

Lemma fold_scanStep_blocked j r l : forall a,
  la_isBlockedSide (fold_left (scanStep j r) l a) =
  la_isBlockedSide a || existsb sideHazard l.
Proof.
  induction l as [| o rest IH]; intros a; simpl; [now rewrite orb_false_r |].
  now rewrite IH, scanStep_blocked, orb_assoc.
Qed.

(** X10: the lane analysis flags a lane blocked-beside exactly when the lane
    holds an active hazard, not a coin, with [-4 < z < 5] inside the lookahead
    range. *)
Theorem lane_blocked_iff (laneIdx : Z) (range : Q) (e : Engine) :
  la_isBlockedSide (analyzeLane laneIdx range e) = true <->
  exists h, In h (obstacles e) /\ active h = true /\ lane h = laneIdx /\
            collisionType h <> COIN /\ -4 < pos_z h < 5 /\ - range < pos_z h.
Proof.
  assert (Hb : la_isBlockedSide (analyzeLane laneIdx range e) =
               existsb sideHazard
                 (stableSort byZDescending
                    (filter (laneFilter laneIdx range) (obstacles e)))).
  { unfold analyzeLane. destruct (laneIdx =? 0)%Z; simpl;
      now rewrite fold_scanStep_blocked. }
  rewrite Hb, existsb_exists. split.
  - intros (h & Hin & Hs). exists h.
    apply stableSort_filter_scanned in Hin.
    destruct Hin as (H1 & H2 & H3 & H4 & H5).
    unfold sideHazard, inSideWindow, isCoin in Hs.
    rewrite !andb_true_iff, !Qltb_iff, negb_true_iff in Hs.
    destruct Hs as [[Hz1 Hz2] Hk].
    repeat (split; [assumption |]). split; [| split; [split |]]; try assumption.
    intros Hc. rewrite Hc in Hk. discriminate.
  - intros (h & H1 & H2 & H3 & Hk & [Hz1 Hz2] & H4). exists h. split.
    + apply stableSort_filter_scanned. unfold scanned. repeat split; auto. lra.
    + unfold sideHazard, inSideWindow, isCoin.
      rewrite !andb_true_iff, !Qltb_iff, negb_true_iff.
      split; [split; assumption |].
      destruct (collisionType h); simpl; congruence.
Qed.

Lemma scanStep_solid j r a o :
  la_isDeadly (scanStep j r a o) = la_isDeadly a || solidAhead o /\
  la_firstSolidDist (scanStep j r a o) =
    (if solidAhead o && Qltb (Qabs (pos_z o)) (la_firstSolidDist a)
     then Qabs (pos_z o) else la_firstSolidDist a).
Proof.
  unfold scanStep, solidAhead, isCoin.
  destruct (collisionType o); simpl;
    destruct (inSideWindow (pos_z o)); simpl;
    destruct (Qltb (pos_z o) 0); simpl; rewrite ?orb_false_r, ?orb_true_r;
    try (split; reflexivity);
    destruct (Qltb (Qabs (pos_z o)) (la_distanceToThreat _)); simpl;
    repeat match goal with
           | |- context [if ?c then _ else _] => destruct c eqn:?; simpl
           | |- context [match ?c with NoAction => _ | _ => _ end] => destruct c; simpl
           end; split; reflexivity.
Qed.

Lemma fold_scanStep_solid j r l : forall a,
  let a' := fold_left (scanStep j r) l a in
  la_isDeadly a' = la_isDeadly a || existsb solidAhead l /\
  la_firstSolidDist a' <= la_firstSolidDist a /\
  (forall o, In o l -> solidAhead o = true ->
             la_firstSolidDist a' <= Qabs (pos_z o)) /\
  (la_firstSolidDist a' = la_firstSolidDist a \/
   exists o, In o l /\ solidAhead o = true /\
             la_firstSolidDist a' = Qabs (pos_z o)).
Proof.
  induction l as [| o rest IH]; intros a; cbv zeta.
  - simpl. rewrite orb_false_r. repeat split; auto; try apply Qle_refl.
    intros o [].
  - change (fold_left (scanStep j r) (o :: rest) a)
      with (fold_left (scanStep j r) rest (scanStep j r a o)).
    destruct (IH (scanStep j r a o)) as (I1 & I2 & I3 & I4).
    destruct (scanStep_solid j r a o) as [S1 S2].
    rewrite S1 in I1. rewrite S2 in I2, I4.
    split; [simpl; now rewrite I1, orb_assoc |].
    destruct (solidAhead o) eqn:Hso; simpl in *.
    + destruct (Qltb (Qabs (pos_z o)) (la_firstSolidDist a)) eqn:Hlt.
      * apply Qltb_iff in Hlt.
        split; [lra |]. split.
        -- intros o' [<- | Hin] Hs'; [assumption | now apply I3].
        -- right. destruct I4 as [I4 | (o' & Hin & Hs' & I4)]; eauto 6.
      * apply Qltb_false_iff in Hlt.
        split; [assumption |]. split.
        -- intros o' [<- | Hin] Hs'; [lra | now apply I3].
        -- destruct I4 as [I4 | (o' & Hin & Hs' & I4)]; eauto 6.
    + split; [assumption |]. split.
      * intros o' [<- | Hin] Hs'; [congruence | now apply I3].
      * destruct I4 as [I4 | (o' & Hin & Hs' & I4)]; eauto 6.
Qed.

(** X11: the lane analysis reports a lane deadly exactly when it scans an active
    solid ahead of the player, and its first-solid distance is the least
    distance of those solids, or 9999 when there is none. *)
Theorem lane_first_solid (laneIdx : Z) (range : Q) (e : Engine) :
  let a := analyzeLane laneIdx range e in
  let solid o := scanned laneIdx range e o /\ collisionType o = SOLID /\ pos_z o < 0 in
  (la_isDeadly a = true <-> exists o, solid o) /\
  (la_isDeadly a = false -> la_firstSolidDist a = 9999) /\
  la_firstSolidDist a <= 9999 /\
  (forall o, solid o -> la_firstSolidDist a <= Qabs (pos_z o)) /\
  (la_firstSolidDist a = 9999 \/
   exists o, solid o /\ la_firstSolidDist a = Qabs (pos_z o)).
Proof.
  intros a solid.
  set (laneObs := stableSort byZDescending
                    (filter (laneFilter laneIdx range) (obstacles e))).
  destruct (fold_scanStep_solid (isJumping e) (isRolling e) laneObs
              (analysisInit laneIdx)) as (F1 & F2 & F3 & F4).
  assert (Ha : la_isDeadly a =
               la_isDeadly (fold_left (scanStep (isJumping e) (isRolling e)) laneObs
                              (analysisInit laneIdx)) /\
               la_firstSolidDist a =
               la_firstSolidDist (fold_left (scanStep (isJumping e) (isRolling e)) laneObs
                              (analysisInit laneIdx))).
  { unfold a, analyzeLane. fold laneObs. destruct (laneIdx =? 0)%Z; simpl; auto. }
  destruct Ha as [-> ->]. simpl in F1, F2, F4.
  assert (Hsolid : forall o, In o laneObs /\ solidAhead o = true <-> solid o).
  { intros o. unfold laneObs, solid, solidAhead.
    rewrite stableSort_filter_scanned, andb_true_iff, CollisionType_eqb_eq, Qltb_iff.
    tauto. }
  assert (Hex : existsb solidAhead laneObs = true <-> exists o, solid o).
  { rewrite existsb_exists. split; intros (o & Ho); exists o; now apply Hsolid. }
  split; [now rewrite F1 |]. split; [| split; [assumption | split]].
  - rewrite F1. intros Hd. destruct F4 as [F4 | (o & Hin & Hs & _)]; [assumption |].
    assert (existsb solidAhead laneObs = true) by (apply existsb_exists; eauto).
    congruence.
  - intros o Ho. apply Hsolid in Ho. destruct Ho. now apply F3.
  - destruct F4 as [F4 | (o & Hin & Hs & F4)]; [now left | right].
    exists o. split; [| assumption]. apply Hsolid. auto.
Qed.

Lemma insertSorted_sorted {A} (le : A -> A -> bool) x l :
  (forall a b, le a b = true \/ le b a = true) ->
  (forall a b c, le a b = true -> le b c = true -> le a c = true) ->
  StronglySorted (fun a b => le a b = true) l ->
  StronglySorted (fun a b => le a b = true) (insertSorted le x l).
Proof.
  intros Htot Htr. induction 1 as [| y ys Hs IH Hall]; simpl.
  - repeat constructor.
  - destruct (le x y) eqn:Hxy.
    + constructor; [now constructor |]. constructor; [assumption |].
      eapply Forall_impl; [| exact Hall]. cbv beta. eauto.
    + constructor; [assumption |].
      rewrite Forall_forall in *. intros z Hz.
      apply insertSorted_In in Hz. destruct Hz as [-> | Hz]; [| auto].
      destruct (Htot x y); [congruence | assumption].
Qed.

Lemma stableSort_sorted {A} (le : A -> A -> bool) l :
  (forall a b, le a b = true \/ le b a = true) ->
  (forall a b c, le a b = true -> le b c = true -> le a c = true) ->
  StronglySorted (fun a b => le a b = true) (stableSort le l).
Proof.
  intros Htot Htr. induction l as [| x xs IH]; simpl; [constructor |].
  now apply insertSorted_sorted.
Qed.

Lemma byZDescending_sorted l :
  StronglySorted (fun a b => pos_z b <= pos_z a) (stableSort byZDescending l).
Proof.
  pose proof (stableSort_sorted byZDescending l) as H.
  assert (Hs : StronglySorted (fun a b => byZDescending a b = true)
                 (stableSort byZDescending l)).
  { apply H; unfold byZDescending; intros a b.
    - rewrite !Qle_bool_iff. destruct (Qlt_le_dec (pos_z a) (pos_z b)); [right | left]; lra.
    - intros c. rewrite !Qle_bool_iff. lra. }
  clear H. induction Hs as [| a rest Hs IH Hall]; constructor; [assumption |].
  eapply Forall_impl; [| exact Hall]. cbv beta. unfold byZDescending.
  intros b. now rewrite Qle_bool_iff.
Qed.

Lemma scanStep_action j r a o :
  la_action (scanStep j r a o) =
  match la_action a with
  | NoAction => reflexOf o
  | x => x
  end.
Proof.
  destruct a as [ln dd bs act sc dt tt fs].
  unfold scanStep, reflexOf, reflexOfKind, isCoin. simpl.
  destruct (collisionType o); simpl;
    destruct (inSideWindow (pos_z o)); simpl;
    destruct (Qltb (pos_z o) 0); simpl;
    try (destruct act; reflexivity);
    destruct (Qltb (Qabs (pos_z o)) _); simpl;
    destruct act; simpl;
    repeat match goal with
           | |- context [if ?c then _ else _] => destruct c; simpl
           end; reflexivity.
Qed.

Lemma fold_scanStep_action j r l : forall a,
  la_action (fold_left (scanStep j r) l a) =
  match la_action a with
  | NoAction => firstReflex l
  | x => x
  end.
Proof.
  induction l as [| o rest IH]; intros a; simpl.
  - destruct (la_action a); reflexivity.
  - rewrite IH, scanStep_action.
    destruct (la_action a); reflexivity.
Qed.

Lemma analyzeLane_action laneIdx range e :
  la_action (analyzeLane laneIdx range e) =
  firstReflex (stableSort byZDescending
                 (filter (laneFilter laneIdx range) (obstacles e))).
Proof.
  unfold analyzeLane. destruct (laneIdx =? 0)%Z; simpl;
    now rewrite fold_scanStep_action.
Qed.

Lemma firstReflex_none l :
  firstReflex l = NoAction <-> Forall (fun o => reflexOf o = NoAction) l.
Proof.
  induction l as [| o rest IH]; simpl; [split; auto |].
  destruct (reflexOf o) eqn:Ho.
  - rewrite IH. split; [now constructor | now inversion 1].
  - split; [discriminate | inversion 1; congruence].
  - split; [discriminate | inversion 1; congruence].
Qed.

Lemma firstReflex_nearest l b :
  StronglySorted (fun a c => pos_z c <= pos_z a) l ->
  In b l -> reflexOf b <> NoAction ->
  (forall o, In o l -> reflexOf o <> NoAction -> reflexOf o <> reflexOf b ->
             pos_z o < pos_z b) ->
  firstReflex l = reflexOf b.
Proof.
  induction 1 as [| x xs Hs IH Hall]; intros Hin Hb Hfar; [contradiction |].
  simpl. destruct (reflexOf x) eqn:Hx.
  - destruct Hin as [-> | Hin]; [congruence |].
    apply IH; auto. intros o Ho. apply Hfar. now right.
  - destruct (reflexOf b) eqn:Hrb; try congruence.
    exfalso. destruct Hin as [-> | Hin]; [congruence |].
    assert (pos_z x < pos_z b)
      by (apply Hfar; [now left | rewrite Hx; discriminate | rewrite Hx; discriminate]).
    rewrite Forall_forall in Hall. specialize (Hall b Hin). lra.
  - destruct (reflexOf b) eqn:Hrb; try congruence.
    exfalso. destruct Hin as [-> | Hin]; [congruence |].
    assert (pos_z x < pos_z b)
      by (apply Hfar; [now left | rewrite Hx; discriminate | rewrite Hx; discriminate]).
    rewrite Forall_forall in Hall. specialize (Hall b Hin). lra.
Qed.

(** X12: the reflex the lane analysis asks for is that of the nearest barrier
    ahead: if a jump or duck barrier is scanned ahead of the player and every
    scanned barrier of the other kind ahead is strictly farther, the required
    action is the one of that barrier. *)
Theorem lane_action_nearest_barrier (laneIdx : Z) (range : Q) (e : Engine)
  (b : Obstacle) :
  scanned laneIdx range e b -> pos_z b < 0 ->
  collisionType b = JUMP \/ collisionType b = DUCK ->
  (forall o, scanned laneIdx range e o -> pos_z o < 0 ->
             collisionType o = JUMP \/ collisionType o = DUCK ->
             collisionType o <> collisionType b -> pos_z o < pos_z b) ->
  la_action (analyzeLane laneIdx range e) = reflexOfKind (collisionType b).
Proof.
  intros Hb Hz Hk Hfar. rewrite analyzeLane_action.
  assert (Hrb : reflexOf b = reflexOfKind (collisionType b)).
  { unfold reflexOf. apply Qltb_iff in Hz. now rewrite Hz. }
  rewrite <- Hrb.
  assert (Hbar : forall o, reflexOf o <> NoAction ->
            pos_z o < 0 /\ (collisionType o = JUMP \/ collisionType o = DUCK) /\
            reflexOf o = reflexOfKind (collisionType o)).
  { intros o. unfold reflexOf. destruct (Qltb (pos_z o) 0) eqn:Ho; [| congruence].
    apply Qltb_iff in Ho. destruct (collisionType o); simpl; intros H; try congruence; auto. }
  apply firstReflex_nearest.
  - apply byZDescending_sorted.
  - now apply stableSort_filter_scanned.
  - rewrite Hrb. destruct Hk as [-> | ->]; discriminate.
  - intros o Ho Hro Hne. apply stableSort_filter_scanned in Ho.
    destruct (Hbar o Hro) as (Hzo & Hko & Heq).
    apply Hfar; auto. intros Hc. apply Hne. now rewrite Heq, Hrb, Hc.
Qed.

Lemma lane_action_nearest_barrier_witness :
  la_action (analyzeLane 0 1040.16 engineDemo) = NeedJump.
Proof.
  apply (lane_action_nearest_barrier 0 1040.16 engineDemo
           (mkObstacle 0 (-179.399600000) true 0 JUMP)).
  - unfold scanned. vm_compute. repeat split; auto.
  - vm_compute. reflexivity.
  - left. reflexivity.
  - intros o (Hin & _ & Hl & _) _ [Hk | Hk] Hne; simpl in Hne; [congruence |].
    exfalso. simpl in Hin.
    destruct Hin as [<- | [<- | [<- | []]]]; simpl in *; discriminate.
Defined.

(** X13: the lane analysis asks for no reflex exactly when it scans no jump or
    duck barrier ahead of the player. *)
Theorem lane_action_none_iff (laneIdx : Z) (range : Q) (e : Engine) :
  la_action (analyzeLane laneIdx range e) = NoAction <->
  forall o, scanned laneIdx range e o -> pos_z o < 0 ->
            collisionType o <> JUMP /\ collisionType o <> DUCK.
Proof.
  rewrite analyzeLane_action, firstReflex_none, Forall_forall. split.
  - intros H o Ho Hz. apply stableSort_filter_scanned in Ho.
    specialize (H o Ho). unfold reflexOf in H.
    apply Qltb_iff in Hz. rewrite Hz in H.
    destruct (collisionType o); simpl in H; split; congruence.
  - intros H o Ho. apply stableSort_filter_scanned in Ho. unfold reflexOf.
    destruct (Qltb (pos_z o) 0) eqn:Hz; [| reflexivity].
    apply Qltb_iff in Hz. destruct (H o Ho Hz) as [H1 H2].
    destruct (collisionType o); simpl; congruence.
Qed.

(** ** Navigator: the decision of a frame *)

Lemma table_element le range e a :
  In a (stableSort le (map (fun l => analyzeLane l range e) [-1; 0; 1]%Z)) ->
  a = analyzeLane (la_lane a) range e.
Proof.
  rewrite stableSort_In. simpl.
  intros [<- | [<- | [<- | []]]]; now rewrite analyzeLane_lane.
Qed.

Lemma findLane_table le range e t a :
  findLane t (stableSort le (map (fun l => analyzeLane l range e) [-1; 0; 1]%Z)) = Some a ->
  a = analyzeLane t range e.
Proof.
  intros H. apply findLane_Some in H. destruct H as [Hin <-].
  now apply table_element in Hin.
Qed.

Lemma stableSort_head_max {A} (le : A -> A -> bool) l b rest :
  (forall a b, le a b = true \/ le b a = true) ->
  (forall a b c, le a b = true -> le b c = true -> le a c = true) ->
  stableSort le l = b :: rest ->
  forall a, In a l -> le b a = true.
Proof.
  intros Htot Htr Hs a Ha.
  pose proof (stableSort_sorted le l Htot Htr) as Hsorted.
  apply (stableSort_In le) in Ha. rewrite Hs in Ha, Hsorted.
  inversion Hsorted as [| ? ? _ Hall]; subst.
  destruct Ha as [<- | Ha].
  - destruct (Htot b b); assumption.
  - rewrite Forall_forall in Hall. now apply Hall.
Qed.

Lemma lane_sort_restores x y z :
  la_lane x = (-1)%Z -> la_lane y = 0%Z -> la_lane z = 1%Z ->
  stableSort byLaneAscending (stableSort byScoreDescending [x; y; z]) = [x; y; z].
Proof.
  intros Hx Hy Hz. unfold stableSort at 2. simpl fold_right.
  unfold byScoreDescending, insertSorted.
  repeat match goal with
         | |- context [Qle_bool ?a ?b] => destruct (Qle_bool a b)
         end;
    simpl; unfold byLaneAscending; rewrite ?Hx, ?Hy, ?Hz; simpl;
    rewrite ?Hx, ?Hy, ?Hz; reflexivity.
Qed.

Lemma emergencyDecision_inv cur sorted cs best t act :
  emergencyDecision cur sorted cs best = Some (t, act) ->
  t = cur \/
  exists next,
    findLane t sorted = Some next /\ (Z.abs (t - cur) = 1)%Z /\
    la_isBlockedSide next = false /\
    (30 < la_firstSolidDist next \/
     (20 < la_firstSolidDist next /\
      la_firstSolidDist cs < la_firstSolidDist next)).
Proof.
  unfold emergencyDecision.
  destruct (negb (la_lane best =? cur)%Z); [| intros [= <- _]; auto].
  destruct (findLane _ sorted) as [next |] eqn:Hf; [| discriminate].
  destruct (la_isBlockedSide next) eqn:Hb; simpl; [intros [= <- _]; auto |].
  destruct (_ || _) eqn:Hs; intros [= <- _]; [| auto].
  right. exists next. split; [assumption |].
  split; [destruct (0 <? la_lane best - cur)%Z; lia |]. split; [exact Hb |].
  apply orb_true_iff in Hs. destruct Hs as [Hs | Hs].
  - left. now apply Qltb_iff.
  - right. apply andb_true_iff in Hs. now rewrite !Qltb_iff in Hs.
Qed.

Lemma optimizationDecision_inv sorted cs best e t act e2 :
  optimizationDecision sorted cs best e = Some (t, act, e2) ->
  (t = currentLane e /\ e2 = e) \/
  (t = la_lane best /\ e2 = set_aiLaneChangeCooldown 20%Z e /\
   (aiLaneChangeCooldown e <= 0)%Z /\
   la_score cs + 50 < la_score best /\ 300 < la_firstSolidDist best /\
   exists ts, findLane (la_lane best) sorted = Some ts /\ la_isBlockedSide ts = false).
Proof.
  unfold optimizationDecision.
  destruct (Z.leb_spec (aiLaneChangeCooldown e) 0); [| intros [= <- _ <-]; auto].
  destruct (_ && _) eqn:Hc; [| intros [= <- _ <-]; auto].
  destruct (findLane _ sorted) as [ts |] eqn:Hf; [| discriminate].
  destruct (la_isBlockedSide ts) eqn:Hb; simpl; intros [= <- _ <-]; [auto |].
  right. apply andb_true_iff in Hc. rewrite !Qltb_iff in Hc.
  repeat (split; [tauto || reflexivity || assumption |]). eauto.
Qed.

(** What a frame of the navigator does: the telemetry it publishes, and its
    lane decision with the conditions under which it was taken. *)
Lemma updateAI_outcome e e' :
  updateAI e = Some e' ->
  let cur := currentLane e in
  let new := currentLane e' in
  (exists a,
     events e' = AIUpdate a :: events e /\
     ai_enabled a = autoPilotEnabled e /\
     ai_currentLane a = new /\ ai_targetLane a = new /\
     ai_confidence a = (if isEmergency e then 20 else 100)%Z /\
     ai_nearestThreatDist a = Qfloor (la_distanceToThreat (laneStats cur e)) /\
     ai_laneScores a = map (fun l => la_score (laneStats l e)) [-1; 0; 1]%Z) /\
  ((isEmergency e = true /\ aiLaneChangeCooldown e' = 0%Z /\
    (new = cur \/
     ((Z.abs (new - cur) = 1)%Z /\
      la_isBlockedSide (laneStats new e) = false /\
      (30 < la_firstSolidDist (laneStats new e) \/
       (20 < la_firstSolidDist (laneStats new e) /\
        la_firstSolidDist (laneStats cur e) < la_firstSolidDist (laneStats new e)))))) \/
   (isEmergency e = false /\
    ((new = cur /\ aiLaneChangeCooldown e' = cooldownAfterTick e) \/
     (aiLaneChangeCooldown e' = 20%Z /\ (aiLaneChangeCooldown e <= 1)%Z /\
      la_isBlockedSide (laneStats new e) = false /\
      300 < la_firstSolidDist (laneStats new e) /\
      la_score (laneStats cur e) + 50 < la_score (laneStats new e) /\
      forall l, validLane l -> la_score (laneStats l e) <= la_score (laneStats new e))))).
Proof.
  unfold updateAI.
  set (e1 := if (0 <? aiLaneChangeCooldown e)%Z then _ else e).
  assert (He1 : e1 = set_aiLaneChangeCooldown (cooldownAfterTick e) e).
  { unfold e1, cooldownAfterTick. destruct (0 <? _)%Z; now destruct e. }
  clearbody e1. subst e1.
  change (gameSpeed (set_aiLaneChangeCooldown (cooldownAfterTick e) e)) with (gameSpeed e).
  change (currentLane (set_aiLaneChangeCooldown (cooldownAfterTick e) e)) with (currentLane e).
  change (map (fun l => analyzeLane l (800 + gameSpeed e * 400)
                          (set_aiLaneChangeCooldown (cooldownAfterTick e) e)) [-1; 0; 1]%Z)
    with (map (fun l => analyzeLane l (visionRange e) e) [-1; 0; 1]%Z).
  set (table := map _ _).
  destruct (findLane (currentLane e) table) as [cs |] eqn:Hcs; [| discriminate].
  assert (Hcs' : cs = laneStats (currentLane e) e).
  { apply findLane_Some in Hcs. destruct Hcs as [Hin <-].
    unfold table in Hin. simpl in Hin.
    destruct Hin as [<- | [<- | [<- | []]]]; unfold laneStats; now rewrite analyzeLane_lane. }
  assert (Hfind : forall t a, findLane t (stableSort byScoreDescending table) = Some a ->
                              a = laneStats t e)
    by (intros t a; apply findLane_table).
  assert (Hmax : forall b rest, stableSort byScoreDescending table = b :: rest ->
                   b = laneStats (la_lane b) e /\
                   forall l, validLane l -> la_score (laneStats l e) <= la_score b).
  { intros b rest Hs. split.
    - apply (table_element byScoreDescending (visionRange e) e). fold table.
      rewrite Hs. now left.
    - intros l Hl. apply Qle_bool_iff.
      apply (stableSort_head_max byScoreDescending table b rest); auto.
      + intros x y. unfold byScoreDescending. rewrite !Qle_bool_iff.
        destruct (Qlt_le_dec (la_score x) (la_score y)); [right | left]; lra.
      + intros x y z. unfold byScoreDescending. rewrite !Qle_bool_iff. lra.
      + unfold table, laneStats, validLane in *. simpl.
        assert (l = (-1)%Z \/ l = 0%Z \/ l = 1%Z) as [-> | [-> | ->]] by lia; auto. }
  assert (Hscores : map la_score (stableSort byLaneAscending
                                    (stableSort byScoreDescending table)) =
                    map (fun l => la_score (laneStats l e)) [-1; 0; 1]%Z).
  { unfold table. simpl map at 2.
    rewrite lane_sort_restores by apply analyzeLane_lane. reflexivity. }
  destruct (stableSort byScoreDescending table) as [| best sorted'] eqn:Hs;
    [discriminate |].
  destruct (Hmax best sorted' eq_refl) as [Hbest Hbmax]. clear Hmax.
  set (sorted := best :: sorted') in *.
  subst cs. fold (isEmergency e).
  match goal with
  | |- match ?d with _ => _ end = _ -> _ => destruct d as [[[t act] e2] |] eqn:Hd
  end; [| discriminate].
  set (e3 := if negb (t =? currentLane e2)%Z then setLane t e2 else e2).
  destruct (findLane (currentLane e3) sorted) as [st |]; [| discriminate].
  pose proof (executeReflex_shape st act e3) as Hr.
  destruct (executeReflex st act e3) as [act' e4]. simpl in Hr.
  intros [= <-]. cbv zeta.
  change (insertSorted byLaneAscending best (stableSort byLaneAscending sorted'))
    with (stableSort byLaneAscending sorted).
  rewrite Hscores.
  assert (Hcd2 : exists c2, e2 = set_aiLaneChangeCooldown c2 e /\
     ((isEmergency e = true /\ c2 = 0%Z /\
       (t = currentLane e \/
        ((Z.abs (t - currentLane e) = 1)%Z /\
         la_isBlockedSide (laneStats t e) = false /\
         (30 < la_firstSolidDist (laneStats t e) \/
          (20 < la_firstSolidDist (laneStats t e) /\
           la_firstSolidDist (laneStats (currentLane e) e)
             < la_firstSolidDist (laneStats t e)))))) \/
      (isEmergency e = false /\
       ((t = currentLane e /\ c2 = cooldownAfterTick e) \/
        (c2 = 20%Z /\ (aiLaneChangeCooldown e <= 1)%Z /\
         la_isBlockedSide (laneStats t e) = false /\
         300 < la_firstSolidDist (laneStats t e) /\
         la_score (laneStats (currentLane e) e) + 50 < la_score (laneStats t e) /\
         forall l, validLane l -> la_score (laneStats l e) <= la_score (laneStats t e)))))).
  { destruct (isEmergency e) eqn:Hem.
    - destruct (emergencyDecision _ _ _ _) as [[t' act0] |] eqn:He; [| discriminate].
      injection Hd as <- <- <-. exists 0%Z. split; [now destruct e |].
      left. split; [reflexivity |]. split; [reflexivity |].
      apply emergencyDecision_inv in He.
      destruct He as [-> | (next & Hn & Habs & Hb & Hsafe)]; [now left | right].
      apply Hfind in Hn. subst next. auto.
    - apply optimizationDecision_inv in Hd. simpl in Hd.
      destruct Hd as [[-> ->] | (-> & -> & Hc & Hsc & Hfs & ts & Hts & Hb)].
      + exists (cooldownAfterTick e). split; [reflexivity |]. right.
        split; [reflexivity |]. left. auto.
      + exists 20%Z. split; [now destruct e |]. right. split; [reflexivity |]. right.
        apply Hfind in Hts. subst ts. rewrite <- Hbest in *.
        split; [reflexivity |].
        split; [unfold cooldownAfterTick in Hc;
                destruct (Z.ltb_spec 0 (aiLaneChangeCooldown e)); lia |].
        auto. }
  destruct Hcd2 as (c2 & He2 & Hdec).
  assert (H3 : e3 = set_currentLane t (set_aiLaneChangeCooldown c2 e)).
  { unfold e3. destruct (Z.eqb_spec t (currentLane e2)) as [Heq | Hne]; simpl.
    - rewrite He2 in *. simpl in Heq. subst t. now destruct e.
    - unfold setLane. now rewrite He2. }
  assert (H4 : currentLane e4 = t /\ aiLaneChangeCooldown e4 = c2 /\
               autoPilotEnabled e4 = autoPilotEnabled e /\ events e4 = events e).
  { destruct Hr as [-> | [-> | ->]]; rewrite H3; unfold jump, roll;
      repeat match goal with |- context [if ?c then _ else _] => destruct c end;
      simpl; auto. }
  destruct H4 as (G1 & G2 & G3 & G4). simpl. rewrite G1, G2, G3, G4.
  split.
  - eexists. split; [reflexivity |]. simpl.
    repeat split; reflexivity.
  - exact Hdec.
Qed.

(** X14: the navigator never steers into a lane it has flagged blocked-beside:
    whenever a frame of the navigator changes the lane, the analysis of the
    new lane has the flag off. *)
Theorem navigator_avoids_blocked_lane (e e' : Engine) :
  updateAI e = Some e' -> currentLane e' <> currentLane e ->
  la_isBlockedSide (laneStats (currentLane e') e) = false.
Proof.
  intros H Hne. destruct (updateAI_outcome e e' H) as [_ Hd]. cbv zeta in Hd.
  destruct Hd as [(_ & _ & [Hs | (_ & Hb & _)]) | (_ & [[Hs _] | (_ & _ & Hb & _)])];
    congruence.
Qed.

Lemma navigator_avoids_blocked_lane_witness :
  la_isBlockedSide (laneStats (currentLane engineAutoNext) engineAuto) = false.
Proof.
  apply (navigator_avoids_blocked_lane engineAuto engineAutoNext).
  - vm_compute. reflexivity.
  - vm_compute. discriminate.
Defined.

(** X15: in an emergency (a solid of the current lane closer than
    [100 + 20 * speed]) the navigator moves by one lane at most and clears the
    cooldown; it moves only into a lane whose first solid is farther than 30,
    or farther than 20 and farther than the one of the current lane. *)
Theorem navigator_emergency_step (e e' : Engine) :
  updateAI e = Some e' -> isEmergency e = true ->
  (Z.abs (currentLane e' - currentLane e) <= 1)%Z /\
  aiLaneChangeCooldown e' = 0%Z /\
  (currentLane e' <> currentLane e ->
   30 < la_firstSolidDist (laneStats (currentLane e') e) \/
   (20 < la_firstSolidDist (laneStats (currentLane e') e) /\
    la_firstSolidDist (laneStats (currentLane e) e)
      < la_firstSolidDist (laneStats (currentLane e') e))).
Proof.
  intros H Hem. destruct (updateAI_outcome e e' H) as [_ Hd]. cbv zeta in Hd.
  destruct Hd as [(_ & Hc & Hd) | (Hf & _)]; [| congruence].
  split; [| split; [assumption |]].
  - destruct Hd as [-> | (Habs & _)]; lia.
  - intros Hne. destruct Hd as [Heq | (_ & _ & Hs)]; [contradiction | assumption].
Qed.

Lemma navigator_emergency_step_witness :
  (Z.abs (currentLane engineEmergencyNext - currentLane engineEmergency) <= 1)%Z /\
  aiLaneChangeCooldown engineEmergencyNext = 0%Z /\
  (currentLane engineEmergencyNext <> currentLane engineEmergency ->
   30 < la_firstSolidDist (laneStats (currentLane engineEmergencyNext) engineEmergency) \/
   (20 < la_firstSolidDist (laneStats (currentLane engineEmergencyNext) engineEmergency) /\
    la_firstSolidDist (laneStats (currentLane engineEmergency) engineEmergency)
      < la_firstSolidDist (laneStats (currentLane engineEmergencyNext) engineEmergency))).
Proof.
  apply (navigator_emergency_step engineEmergency engineEmergencyNext).
  - vm_compute. reflexivity.
  - vm_compute. reflexivity.
Defined.

(** X16: outside an emergency the cooldown gates lane changes.  With more than
    one tick of cooldown left the navigator keeps its lane and counts down;
    when it does change lane it restarts the cooldown at 20, and the new lane
    has the best score of the three, better than the current one by more than
    50, with its first solid farther than 300. *)
Theorem navigator_cooldown (e e' : Engine) :
  updateAI e = Some e' -> isEmergency e = false ->
  ((1 < aiLaneChangeCooldown e)%Z ->
   currentLane e' = currentLane e /\
   aiLaneChangeCooldown e' = (aiLaneChangeCooldown e - 1)%Z) /\
  (currentLane e' <> currentLane e ->
   aiLaneChangeCooldown e' = 20%Z /\
   300 < la_firstSolidDist (laneStats (currentLane e') e) /\
   la_score (laneStats (currentLane e) e) + 50
     < la_score (laneStats (currentLane e') e) /\
   forall l, validLane l ->
             la_score (laneStats l e) <= la_score (laneStats (currentLane e') e)).
Proof.
  intros H Hem. destruct (updateAI_outcome e e' H) as [_ Hd]. cbv zeta in Hd.
  destruct Hd as [(Ht & _) | (_ & Hd)]; [congruence |].
  split.
  - intros Hc. destruct Hd as [[Hs Hcd] | (_ & Hle & _)]; [| lia].
    split; [assumption |]. rewrite Hcd. unfold cooldownAfterTick.
    destruct (Z.ltb_spec 0 (aiLaneChangeCooldown e)); [reflexivity | lia].
  - intros Hne. destruct Hd as [[Hs _] | (Hcd & _ & _ & Hfs & Hsc & Hmax)];
      [contradiction | auto].
Qed.

Lemma navigator_cooldown_witness :
  aiLaneChangeCooldown engineAutoNext = 20%Z /\
  300 < la_firstSolidDist (laneStats (currentLane engineAutoNext) engineAuto) /\
  la_score (laneStats (currentLane engineAuto) engineAuto) + 50
    < la_score (laneStats (currentLane engineAutoNext) engineAuto) /\
  forall l, validLane l ->
            la_score (laneStats l engineAuto)
              <= la_score (laneStats (currentLane engineAutoNext) engineAuto).
Proof.
  apply (navigator_cooldown engineAuto engineAutoNext).
  - vm_compute. reflexivity.
  - vm_compute. reflexivity.
  - vm_compute. discriminate.
Defined.

(** X17: every frame of the navigator publishes exactly one telemetry record.
    It carries the autopilot flag, the lane after the decision as both current
    and target lane, confidence 20 in an emergency and 100 otherwise, and the
    three lane scores in lane order.  On such a record the status line of the
    application is never the panic text nor the path-optimizing text, and no
    lane marker gets the distinct current-lane style. *)
Theorem telemetry_well_formed (e e' : Engine) :
  updateAI e = Some e' ->
  exists a,
    events e' = AIUpdate a :: events e /\
    ai_enabled a = autoPilotEnabled e /\
    ai_currentLane a = currentLane e' /\ ai_targetLane a = ai_currentLane a /\
    ai_confidence a = (if isEmergency e then 20 else 100)%Z /\
    ai_laneScores a = map (fun l => la_score (laneStats l e)) [-1; 0; 1]%Z /\
    getAIReason a <> "PANIC: EVASIVE MANEUVERS"%string /\
    getAIReason a <> "OPTIMIZING PATH (COINS)"%string /\
    forall laneIdx, getLaneColor a laneIdx <> "bg-white/50"%string.
Proof.
  intros H. destruct (updateAI_outcome e e' H) as [(a & He & A1 & A2 & A3 & A4 & _ & A6) _].
  exists a. split; [assumption |]. split; [assumption |]. split; [assumption |].
  assert (Ht : ai_targetLane a = ai_currentLane a) by congruence.
  split; [assumption |]. split; [assumption |]. split; [assumption |].
  assert (Hc : (ai_confidence a =? 0)%Z = false)
    by (rewrite A4; destruct (isEmergency e); reflexivity).
  unfold getAIReason, getLaneColor. rewrite Hc, Ht, Z.eqb_refl. simpl.
  split; [| split].
  - destruct (ai_action a); discriminate.
  - destruct (ai_action a); discriminate.
  - intros l. destruct (l =? ai_currentLane a)%Z; discriminate.
Qed.

Lemma telemetry_well_formed_witness :
  exists a,
    events engineAutoNext = AIUpdate a :: events engineAuto /\
    ai_enabled a = autoPilotEnabled engineAuto /\
    ai_currentLane a = currentLane engineAutoNext /\
    ai_targetLane a = ai_currentLane a /\
    ai_confidence a = (if isEmergency engineAuto then 20 else 100)%Z /\
    ai_laneScores a = map (fun l => la_score (laneStats l engineAuto)) [-1; 0; 1]%Z /\
    getAIReason a <> "PANIC: EVASIVE MANEUVERS"%string /\
    getAIReason a <> "OPTIMIZING PATH (COINS)"%string /\
    forall laneIdx, getLaneColor a laneIdx <> "bg-white/50"%string.
Proof.
  apply (telemetry_well_formed engineAuto engineAutoNext).
  vm_compute. reflexivity.
Defined.

(** ** The engine as a whole *)

(** X18: no sequence of commands and frames makes the engine throw: every
    lookup of the navigator succeeds, because the current lane and the safe
    lane of the spawner never leave the three lanes. *)
Theorem engine_never_throws (inputs : list Input) :
  exists e, run inputs engine0 = Some e /\
            validLane (currentLane e) /\ validLane (lastSafeLane e).
Proof.
  destruct (run_sound inputs engine0 Inv_engine0) as (e & He & HI).
  exists e. split; [assumption |].
  split; [apply (inv_lane e HI) | apply (inv_safe e HI)].
Qed.

(** X19: [start] forgets the previous run.  Outside [PLAYING], the state it
    leaves depends on the old state only through the autopilot flag, the
    callbacks already issued and the idle roll timer: score, distance, speed,
    lanes, jump and roll flags, player position and every obstacle of the old
    run leave no trace. *)
Theorem start_forgets_previous_run (d : RowDraws) (e e' : Engine) :
  state e <> PLAYING -> state e' <> PLAYING ->
  autoPilotEnabled e = autoPilotEnabled e' ->
  rollTimer e = rollTimer e' -> events e = events e' ->
  start d e = start d e'.
Proof.
  destruct e as [st sc di sp cl tx vy ju ro rt px py ap ls cd ob ev].
  destruct e' as [st' sc' di' sp' cl' tx' vy' ju' ro' rt' px' py' ap' ls' cd' ob' ev'].
  simpl. intros Hs Hs' <- <- <-.
  assert (Hw : updateWorld (mkEngine PLAYING 0 0 startSpeed 0 tx 0 false false rt 0 1 ap 0 0 [] ev)
             = updateWorld (mkEngine PLAYING 0 0 startSpeed 0 tx' 0 false false rt 0 1 ap 0 0 [] ev))
    by (destruct ap; vm_compute; reflexivity).
  assert (Hu : update d (mkEngine PLAYING 0 0 startSpeed 0 tx 0 false false rt 0 1 ap 0 0 [] ev)
             = update d (mkEngine PLAYING 0 0 startSpeed 0 tx' 0 false false rt 0 1 ap 0 0 [] ev))
    by (unfold update; now rewrite Hw).
  destruct st, st'; try congruence; exact Hu.
Qed.

Lemma start_forgets_previous_run_witness :
  start drawsDense (set_state GAME_OVER engineWall) = start drawsDense engine0.
Proof.
  apply (start_forgets_previous_run drawsDense (set_state GAME_OVER engineWall) engine0).
  - simpl. discriminate.
  - simpl. discriminate.
  - reflexivity.
  - reflexivity.
  - reflexivity.
Defined.

Lemma physics_distance e :
  distanceTraveled (physics e) = distanceTraveled e.
Proof.
  unfold physics. simpl.
  destruct (isJumping e); simpl.
  - destruct (Qle_bool _ playerBaseY); reflexivity.
  - destruct (isRolling e); simpl; [destruct (_ <=? 0)%Z |]; reflexivity.
Qed.

Lemma navigate_fields e e' :
  navigate e = Some e' ->
  state e' = state e /\ score e' = score e /\
  distanceTraveled e' = distanceTraveled e /\
  scoreReports (events e') = scoreReports (events e) /\
  exists pre, events e' = pre ++ events e.
Proof.
  unfold navigate. destruct (autoPilotEnabled e).
  - intros H. destruct (updateAI_fields e e' H) as (A1 & A2 & _ & _ & _ & _ & A7 & _).
    destruct (updateAI_outcome e e' H) as [(a & He & _) _].
    rewrite He. simpl. repeat split; auto. now exists [AIUpdate a].
  - intros [= <-]. repeat split; auto. now exists [].
Qed.

(** The trace of a frame on a state that satisfies the row invariant. *)
Lemma frame_trace d e e' :
  Inv e -> state e = PLAYING -> update d e = Some e' ->
  distanceTraveled e' =
    distanceTraveled e + Qmin maxSpeed (gameSpeed e + speedIncrement) /\
  scoreReports (events e') =
    Qfloor (distanceTraveled e' * 10) :: scoreReports (events e) /\
  (state e' = PLAYING \/ state e' = GAME_OVER) /\
  (state e' = GAME_OVER ->
   exists pre, events e' =
     GameOver (Qfloor (distanceTraveled e' * 10)) :: pre ++
     ScoreChange (Qfloor (distanceTraveled e' * 10)) :: events e).
Proof.
  intros HI Hp. unfold update. rewrite updateWorld_phases.
  destruct (navigate (clockTick e)) as [e5 |] eqn:Hn; [| discriminate].
  destruct (navigate_fields _ _ Hn) as (N1 & N2 & N3 & N4 & pre & N5).
  pose proof (Inv_physics _ (Inv_navigate _ _ (Inv_clockTick e HI) Hn)) as HI6.
  destruct (physics_fields e5) as (P1 & P2 & _ & _ & _ & _ & P7 & _).
  pose proof (physics_distance e5) as P8.
  set (e6 := physics e5) in *.
  assert (F6 : state e6 = PLAYING /\
               distanceTraveled e6 =
                 distanceTraveled e + Qmin maxSpeed (gameSpeed e + speedIncrement) /\
               score e6 = Qfloor (distanceTraveled e6 * 10) /\
               events e6 = pre ++ ScoreChange (score e6) :: events e /\
               scoreReports (events e6) = score e6 :: scoreReports (events e)).
  { rewrite P1, P2, P7, P8, N1, N2, N3, N4, N5. simpl. auto. }
  clearbody e6. destruct F6 as (S6 & D6 & C6 & E6 & R6).
  assert (Hscan : exists e7,
            fst (scanObstacles (obstacles e6) e6) = e7 /\
            distanceTraveled e7 = distanceTraveled e6 /\
            scoreReports (events e7) = scoreReports (events e6) /\
            ((state e7 = PLAYING) \/
             (state e7 = GAME_OVER /\ events e7 = GameOver (score e6) :: events e6))).
  { eexists. split; [reflexivity |].
    destruct (scan_cases e6 HI6) as [[_ ->] | (o & _ & _ & Hcase)]; [auto |].
    destruct Hcase as [(_ & -> & _) | [(_ & _ & ->) | (_ & ->)]]; simpl; auto. }
  destruct Hscan as (e7 & He7 & D7 & R7 & S7).
  unfold scanPhase. rewrite He7.
  set (e8 := set_obstacles _ e7).
  assert (F8 : distanceTraveled e8 = distanceTraveled e7 /\ events e8 = events e7 /\
               state e8 = state e7) by now simpl.
  clearbody e8. destruct F8 as (D8 & E8 & S8).
  assert (Hfin : forall e9, distanceTraveled e9 = distanceTraveled e8 ->
                            events e9 = events e8 -> state e9 = state e8 ->
            distanceTraveled e9 =
              distanceTraveled e + Qmin maxSpeed (gameSpeed e + speedIncrement) /\
            scoreReports (events e9) =
              Qfloor (distanceTraveled e9 * 10) :: scoreReports (events e) /\
            (state e9 = PLAYING \/ state e9 = GAME_OVER) /\
            (state e9 = GAME_OVER ->
             exists pre', events e9 =
               GameOver (Qfloor (distanceTraveled e9 * 10)) :: pre' ++
               ScoreChange (Qfloor (distanceTraveled e9 * 10)) :: events e)).
  { intros e9 -> -> ->. rewrite D8, E8, S8, D7, R7, R6, C6, D6.
    split; [reflexivity |]. split; [reflexivity |].
    destruct S7 as [S7 | [S7 G7]]; rewrite S7.
    - split; [now left | discriminate].
    - split; [now right |]. intros _. exists pre.
      rewrite G7, E6, C6, D6. reflexivity. }
  intros [= <-]. destruct (spawnDue e8); [| now apply Hfin].
  destruct (spawnObstacleRow_shape spawnZ d e8) as (news & -> & _).
  now apply Hfin.
Qed.

(** X20: a frame in the [PLAYING] state adds the frame's speed to the distance
    and reports the score exactly once, as the integer part of ten times the
    distance; the report is never below the one the old distance would
    give, nor below zero. *)
Theorem frame_reports_distance_score (inputs : list Input) (e : Engine) (d : RowDraws) :
  run inputs engine0 = Some e -> state e = PLAYING ->
  exists e',
    animate d e = Some e' /\
    distanceTraveled e' == distanceTraveled e + gameSpeed e' /\
    scoreReports (events e') =
      Qfloor (distanceTraveled e' * 10) :: scoreReports (events e) /\
    (0 <= Qfloor (distanceTraveled e * 10)
       <= Qfloor (distanceTraveled e' * 10))%Z.
Proof.
  intros Hrun Hp. destruct (run_Inv2 inputs e Hrun) as [HI HI2].
  destruct (update_sound d e HI Hp) as (e' & He' & _ & Hg & _).
  exists e'. unfold animate. rewrite Hp. split; [assumption |].
  destruct (frame_trace d e e' HI Hp He') as (D & R & _).
  split; [rewrite D, Hg; reflexivity |]. split; [assumption |].
  pose proof (inv_dist e HI2) as H0.
  destruct (speed_step _ (inv_speed e HI)) as ((S1 & _) & _).
  split.
  - change 0%Z with (Qfloor 0). apply Qfloor_resp_le. lra.
  - apply Qfloor_resp_le. rewrite D. lra.
Qed.

Lemma frame_reports_distance_score_witness :
  exists e',
    animate drawsDense engineDemo = Some e' /\
    distanceTraveled e' == distanceTraveled engineDemo + gameSpeed e' /\
    scoreReports (events e') =
      Qfloor (distanceTraveled e' * 10) :: scoreReports (events engineDemo) /\
    (0 <= Qfloor (distanceTraveled engineDemo * 10)
       <= Qfloor (distanceTraveled e' * 10))%Z.
Proof.
  apply (frame_reports_distance_score inputsDemo engineDemo drawsDense).
  - vm_compute. reflexivity.
  - reflexivity.
Defined.

(** X21: the final score is the distance score.  On a state that satisfies the
    row invariant, the frame that ends the run calls [onGameOver] last and
    once, with the very score it has just passed to [onScoreChange]: no coin
    bonus can be part of it. *)
Theorem final_score_is_distance_score (e e' : Engine) (d : RowDraws) :
  Inv e -> state e = PLAYING -> update d e = Some e' -> state e' = GAME_OVER ->
  exists pre,
    events e' = GameOver (Qfloor (distanceTraveled e' * 10)) :: pre ++
                ScoreChange (Qfloor (distanceTraveled e' * 10)) :: events e /\
    gameOverCount (events e') = S (gameOverCount (events e)).
Proof.
  intros HI Hp Hu Hg.
  destruct (frame_trace d e e' HI Hp Hu) as (_ & _ & _ & Hev).
  destruct (Hev Hg) as (pre & Hpre). exists pre. split; [assumption |].
  destruct (update_sound d e HI Hp) as (e'' & He'' & _ & _ & Hc).
  rewrite Hu in He''. injection He'' as <-.
  destruct Hc as [[Hs _] | (_ & _ & Hc)]; [congruence | assumption].
Qed.

Lemma final_score_is_distance_score_witness :
  exists pre,
    events engineWallNext =
      GameOver (Qfloor (distanceTraveled engineWallNext * 10)) :: pre ++
      ScoreChange (Qfloor (distanceTraveled engineWallNext * 10)) :: events engineWall /\
    gameOverCount (events engineWallNext) = S (gameOverCount (events engineWall)).
Proof.
  apply (final_score_is_distance_score engineWall engineWallNext drawsSparse).
  - exact Inv_engineWall.
  - reflexivity.
  - vm_compute. reflexivity.
  - reflexivity.
Defined.

(** ** World recycler *)







(** ** Touch input *)

(** X23: a swipe is ignored outside [PLAYING] and inside a dead zone of 30 in
    both axes; otherwise it becomes exactly one command, horizontal when the
    horizontal travel is strictly the larger one and vertical otherwise. *)
Theorem swipe_classification (x0 y0 x1 y1 : Q) :
  let dx := x1 - x0 in
  let dy := y1 - y0 in
  let cmd := touchCommand true x0 y0 x1 y1 in
  touchCommand false x0 y0 x1 y1 = None /\
  (cmd = None <-> Qabs dx <= 30 /\ Qabs dy <= 30) /\
  (cmd = Some MoveRight <-> 30 < dx /\ Qabs dy < dx) /\
  (cmd = Some MoveLeft <-> dx < -30 /\ Qabs dy < - dx) /\
  (cmd = Some DoJump <-> dy < -30 /\ Qabs dx <= - dy) /\
  (cmd = Some DoRoll <-> 30 < dy /\ Qabs dx <= dy).
Proof.
  intros dx dy cmd. split; [reflexivity |].
  unfold cmd, touchCommand. simpl negb. cbv iota. fold dx dy.
  assert (Hax : (0 <= dx /\ Qabs dx == dx) \/ (dx < 0 /\ Qabs dx == - dx)).
  { destruct (Qlt_le_dec dx 0); [right | left]; split; auto.
    - apply Qabs_neg. lra.
    - now apply Qabs_pos. }
  assert (Hay : (0 <= dy /\ Qabs dy == dy) \/ (dy < 0 /\ Qabs dy == - dy)).
  { destruct (Qlt_le_dec dy 0); [right | left]; split; auto.
    - apply Qabs_neg. lra.
    - now apply Qabs_pos. }
  destruct (Qltb (Qabs dy) (Qabs dx)) eqn:H1;
    [destruct (Qltb 30 (Qabs dx)) eqn:H2; [destruct (Qltb 0 dx) eqn:H3 |]
    | destruct (Qltb 30 (Qabs dy)) eqn:H2; [destruct (Qltb dy 0) eqn:H3 |]];
    rewrite ?Qltb_iff, ?Qltb_false_iff in *;
    destruct Hax as [[Hx Hx'] | [Hx Hx']]; destruct Hay as [[Hy Hy'] | [Hy Hy']];
    rewrite ?Hx', ?Hy' in *;
    repeat split; intros; try discriminate; try reflexivity; try lra;
    repeat match goal with H : _ /\ _ |- _ => destruct H end; try lra.
Qed.

(** ** Spawner: the contents of a row *)

Lemma spawnLane_entries z d s e l :
  exists entry,
    spawnLane z d s e l = set_obstacles (obstacles e ++ entry) e /\
    forall o, In o entry <->
              exists k, o = mkObstacle (inject_Z l * laneWidth) z true l k /\
                        rowPlaces d s l k.
Proof.
  assert (Hnil : e = set_obstacles (obstacles e ++ []) e)
    by (rewrite app_nil_r; now destruct e).
  unfold spawnLane, spawnCoin, createObstacleAt, rowPlaces.
  destruct (Z.eqb_spec l s) as [Heq | Hne].
  - destruct (Qltb (placeDraw d l) 0.3) eqn:Hp.
    + apply Qltb_iff in Hp. eexists. split; [reflexivity |].
      intros o. simpl. split.
      * intros [<- | []]. exists COIN. auto.
      * intros (k & -> & [(_ & -> & _) | (Hc & _)]); [now left | contradiction].
    + apply Qltb_false_iff in Hp. exists []. split; [assumption |].
      intros o. simpl. split; [contradiction |].
      intros (k & _ & [(_ & _ & Hlt) | (Hc & _)]); [lra | contradiction].
  - destruct (Qltb (placeDraw d l) 0.8) eqn:Hp.
    + apply Qltb_iff in Hp. eexists. split; [reflexivity |].
      intros o. simpl.
      destruct (Qltb (typeDraw d l) 0.25) eqn:H1;
        [| destruct (Qltb (typeDraw d l) 0.5) eqn:H2];
        rewrite ?Qltb_iff, ?Qltb_false_iff in *; split.
      * intros [<- | []]. exists JUMP. split; [reflexivity |].
        right. split; [assumption |]. split; [assumption |]. left. auto.
      * intros (k & -> & [(Hc & _) | (_ & _ & [(-> & _) | [(-> & Hk) | (-> & Hk)]])]);
          [contradiction | now left | lra | lra].
      * intros [<- | []]. exists DUCK. split; [reflexivity |].
        right. split; [assumption |]. split; [assumption |]. right; left.
        split; [reflexivity |]. split; assumption.
      * intros (k & -> & [(Hc & _) | (_ & _ & [(-> & Hk) | [(-> & Hk) | (-> & Hk)]])]);
          [contradiction | lra | now left | lra].
      * intros [<- | []]. exists SOLID. split; [reflexivity |].
        right. split; [assumption |]. split; [assumption |]. right; right.
        split; [reflexivity | assumption].
      * intros (k & -> & [(Hc & _) | (_ & _ & [(-> & Hk) | [(-> & Hk) | (-> & Hk)]])]);
          [contradiction | lra | lra | now left].
    + apply Qltb_false_iff in Hp. exists []. split; [assumption |].
      intros o. simpl. split; [contradiction |].
      intros (k & _ & [(Hc & _) | (_ & Hlt & _)]); [contradiction | lra].
Qed.

(** X24: the contents of a row.  A row appends to the array, for each of the
    three lanes at most one entry, active, at the row's [z] and on the lane's
    centre: a coin in the safe lane when that lane's placement draw is below
    0.3, and in every other lane, when its placement draw is below 0.8, a jump
    barrier, duck barrier or solid according to the kind draw (below 0.25,
    below 0.5, the rest).  The safe lane never receives a hazard. *)
Theorem row_contents (z : Q) (d : RowDraws) (e : Engine) :
  let e' := spawnObstacleRow z d e in
  let safe := lastSafeLane e' in
  exists news,
    obstacles e' = obstacles e ++ news /\
    (length news <= 3)%nat /\ NoDup (map lane news) /\
    forall o, In o news <->
              exists l k, validLane l /\
                          o = mkObstacle (inject_Z l * laneWidth) z true l k /\
                          rowPlaces d safe l k.
Proof.
  intros e' safe.
  assert (Hsafe : safe = pickSafeLane (pickDraw d) (lastSafeLane e))
    by apply spawnObstacleRow_lastSafeLane.
  destruct (spawnObstacleRow_entries z d e) as (news & Hrow & Hlen & Hnd & _).
  exists news. unfold e'. rewrite Hrow. simpl.
  split; [reflexivity |]. split; [assumption |]. split; [assumption |].
  assert (Hnews : obstacles (spawnObstacleRow z d e) = obstacles e ++ news)
    by now rewrite Hrow.
  unfold spawnObstacleRow in Hnews. simpl in Hnews. rewrite <- Hsafe in Hnews.
  set (e1 := set_lastSafeLane safe e) in *.
  destruct (spawnLane_entries z d safe e1 (-1)%Z) as (n1 & E1 & F1).
  rewrite E1 in Hnews.
  destruct (spawnLane_entries z d safe (set_obstacles (obstacles e1 ++ n1) e1) 0%Z)
    as (n2 & E2 & F2).
  rewrite E2 in Hnews.
  match type of Hnews with
  | context [spawnLane z d safe ?e2 1%Z] =>
      destruct (spawnLane_entries z d safe e2 1%Z) as (n3 & E3 & F3)
  end.
  rewrite E3 in Hnews. simpl in Hnews. rewrite <- !app_assoc in Hnews.
  apply app_inv_head in Hnews. subst news.
  intros o. rewrite !in_app_iff, F1, F2, F3. unfold validLane. split.
  - intros [(k & H) | [(k & H) | (k & H)]];
      [exists (-1)%Z, k | exists 0%Z, k | exists 1%Z, k]; (split; [lia | exact H]).
  - intros (l & k & Hl & H).
    assert (l = (-1)%Z \/ l = 0%Z \/ l = 1%Z) as [-> | [-> | ->]] by lia; eauto.
Qed.

(** ** Lane analysis: the nearest threat *)

Lemma scanStep_threat j r a o :
  la_distanceToThreat (scanStep j r a o) =
  (if hazardAhead o && Qltb (Qabs (pos_z o)) (la_distanceToThreat a)
   then Qabs (pos_z o) else la_distanceToThreat a).
Proof.
  destruct a as [ln dd bs act sc dt tt fs].
  unfold scanStep, hazardAhead, isCoin. simpl.
  destruct (collisionType o); simpl;
    destruct (inSideWindow (pos_z o)); simpl;
    destruct (Qltb (pos_z o) 0); simpl; try reflexivity;
    destruct (Qltb (Qabs (pos_z o)) dt); simpl;
    repeat match goal with
           | |- context [if ?c then _ else _] => destruct c; simpl
           | |- context [match ?c with NoAction => _ | _ => _ end] => destruct c; simpl
           end; reflexivity.
Qed.

Lemma fold_scanStep_threat j r l : forall a,
  let a' := fold_left (scanStep j r) l a in
  la_distanceToThreat a' <= la_distanceToThreat a /\
  (forall o, In o l -> hazardAhead o = true ->
             la_distanceToThreat a' <= Qabs (pos_z o)) /\
  (la_distanceToThreat a' = la_distanceToThreat a \/
   exists o, In o l /\ hazardAhead o = true /\
             la_distanceToThreat a' = Qabs (pos_z o)).
Proof.
  induction l as [| o rest IH]; intros a; cbv zeta.
  - simpl. repeat split; auto; try apply Qle_refl. intros o [].
  - change (fold_left (scanStep j r) (o :: rest) a)
      with (fold_left (scanStep j r) rest (scanStep j r a o)).
    destruct (IH (scanStep j r a o)) as (I2 & I3 & I4).
    rewrite scanStep_threat in I2, I4.
    destruct (hazardAhead o) eqn:Hso; simpl in *.
    + destruct (Qltb (Qabs (pos_z o)) (la_distanceToThreat a)) eqn:Hlt.
      * apply Qltb_iff in Hlt.
        split; [lra |]. split.
        -- intros o' [<- | Hin] Hs'; [assumption | now apply I3].
        -- right. destruct I4 as [I4 | (o' & Hin & Hs' & I4)]; eauto 6.
      * apply Qltb_false_iff in Hlt.
        split; [assumption |]. split.
        -- intros o' [<- | Hin] Hs'; [lra | now apply I3].
        -- destruct I4 as [I4 | (o' & Hin & Hs' & I4)]; eauto 6.
    + split; [assumption |]. split.
      * intros o' [<- | Hin] Hs'; [congruence | now apply I3].
      * destruct I4 as [I4 | (o' & Hin & Hs' & I4)]; eauto 6.
Qed.

(** X25: the threat distance of the lane analysis is the distance of the
    nearest scanned hazard ahead of the player, whatever its kind, or 9999
    when no hazard is ahead; coins and entries behind the player do not
    count. *)
Theorem lane_nearest_threat (laneIdx : Z) (range : Q) (e : Engine) :
  let a := analyzeLane laneIdx range e in
  let threat o := scanned laneIdx range e o /\ collisionType o <> COIN /\ pos_z o < 0 in
  la_distanceToThreat a <= 9999 /\
  (forall o, threat o -> la_distanceToThreat a <= Qabs (pos_z o)) /\
  (la_distanceToThreat a = 9999 \/
   exists o, threat o /\ la_distanceToThreat a = Qabs (pos_z o)).
Proof.
  intros a threat.
  set (laneObs := stableSort byZDescending
                    (filter (laneFilter laneIdx range) (obstacles e))).
  destruct (fold_scanStep_threat (isJumping e) (isRolling e) laneObs
              (analysisInit laneIdx)) as (F2 & F3 & F4).
  assert (Ha : la_distanceToThreat a =
               la_distanceToThreat
                 (fold_left (scanStep (isJumping e) (isRolling e)) laneObs
                    (analysisInit laneIdx))).
  { unfold a, analyzeLane. fold laneObs. destruct (laneIdx =? 0)%Z; simpl; auto. }
  rewrite Ha. simpl in F2, F4.
  assert (Hthreat : forall o, In o laneObs /\ hazardAhead o = true <-> threat o).
  { intros o. unfold laneObs, threat, hazardAhead, isCoin.
    rewrite stableSort_filter_scanned, andb_true_iff, negb_true_iff, Qltb_iff.
    rewrite <- not_true_iff_false, CollisionType_eqb_eq. tauto. }
  split; [assumption |]. split.
  - intros o Ho. apply Hthreat in Ho. destruct Ho. now apply F3.
  - destruct F4 as [F4 | (o & Hin & Hs & F4)]; [now left | right].
    exists o. split; [| assumption]. apply Hthreat. auto.
Qed.

(** ** Navigator: the reflex window *)

(** X26: the reflex of the navigator fires inside a window of travel time.  At
    a positive speed, when the lane asks for a jump (a roll) and the threat
    distance lies strictly between 5 and 25 frames of travel, [jump] ([roll])
    is called and the action label says so; in every other case nothing is
    called and the label is kept. *)
Theorem reflex_window (st : LaneAnalysis) (act : AIAction) (e : Engine) :
  0 < gameSpeed e ->
  let dist := la_distanceToThreat st in
  let inWindow := 5 * gameSpeed e < dist /\ dist < 25 * gameSpeed e in
  (la_action st = NeedJump -> inWindow ->
     executeReflex st act e = (ACT_JUMP, jump e)) /\
  (la_action st = NeedDuck -> inWindow ->
     executeReflex st act e = (ACT_DUCK, roll e)) /\
  (la_action st = NoAction \/ ~ inWindow -> executeReflex st act e = (act, e)).
Proof.
  intros Hs dist inWindow. unfold executeReflex. fold dist.
  assert (Hw : Qltb (dist / gameSpeed e) 25 && Qltb 5 (dist / gameSpeed e) = true
               <-> inWindow).
  { rewrite andb_true_iff, !Qltb_iff. unfold inWindow. split; intros [H1 H2].
    - split.
      + apply (Qmult_lt_r _ _ (gameSpeed e)) in H2; [| assumption].
        setoid_replace (dist / gameSpeed e * gameSpeed e) with dist in H2;
          [assumption | field; lra].
      + apply (Qmult_lt_r _ _ (gameSpeed e)) in H1; [| assumption].
        setoid_replace (dist / gameSpeed e * gameSpeed e) with dist in H1;
          [assumption | field; lra].
    - split.
      + apply Qlt_shift_div_r; assumption.
      + apply Qlt_shift_div_l; assumption. }
  destruct (Qltb (dist / gameSpeed e) 25 && Qltb 5 (dist / gameSpeed e)) eqn:Hb.
  - assert (Hin : inWindow) by now apply Hw.
    split; [intros -> _; reflexivity |]. split; [intros -> _; reflexivity |].
    intros [-> | Hn]; [reflexivity | contradiction].
  - assert (Hout : ~ inWindow) by (intros H; apply Hw in H; discriminate).
    split; [intros _ H; contradiction |]. split; [intros _ H; contradiction |].
    intros _. destruct (la_action st); reflexivity.
Qed.

Lemma reflex_window_witness :
  executeReflex (laneStats 0 engineEmergency) SCANNING engineEmergency
  = (SCANNING, engineEmergency).
Proof.
  apply (reflex_window (laneStats 0 engineEmergency) SCANNING engineEmergency).
  - vm_compute. reflexivity.
  - left. vm_compute. reflexivity.
Defined.

(** ** The size of the obstacle array *)

Lemma rowOrder_fourth a b c d :
  validLane (lane a) -> validLane (lane d) ->
  rowOrder a b -> rowOrder b c -> rowOrder c d -> pos_z d + 50 < pos_z a.
Proof.
  unfold rowOrder, validLane.
  intros Ha Hd [[E1 L1] | G1] [[E2 L2] | G2] [[E3 L3] | G3]; try lra; lia.
Qed.

Lemma array_depth (k : nat) : forall l a,
  StronglySorted rowOrder (a :: l) -> Forall (fun o => validLane (lane o)) (a :: l) ->
  (3 * k <= length l)%nat ->
  exists o, In o (a :: l) /\ pos_z o + 50 * inject_Z (Z.of_nat k) <= pos_z a.
Proof.
  induction k as [| k IH]; intros l a Hs Hv Hlen.
  - exists a. split; [now left |]. change (inject_Z (Z.of_nat 0)) with 0. lra.
  - destruct l as [| b [| c [| d rest]]]; simpl in Hlen; try lia.
    inversion Hs as [| ? ? Hs1 Ha1]; subst.
    inversion Hs1 as [| ? ? Hs2 Ha2]; subst.
    inversion Hs2 as [| ? ? Hs3 Ha3]; subst.
    inversion Hv as [| ? ? Va Hv1]; subst.
    inversion Hv1 as [| ? ? Vb Hv2]; subst.
    inversion Hv2 as [| ? ? Vc Hv3]; subst.
    inversion Hv3 as [| ? ? Vd Hv4].
    inversion Ha1 as [| ? ? Rab _]; inversion Ha2 as [| ? ? Rbc _];
      inversion Ha3 as [| ? ? Rcd _]; subst.
    pose proof (rowOrder_fourth a b c d Va Vd Rab Rbc Rcd) as Hdrop.
    destruct (IH rest d Hs3 Hv3) as (o & Hin & Ho); [lia |].
    exists o. split; [right; right; right; assumption |].
    rewrite Nat2Z.inj_succ. unfold Z.succ. rewrite inject_Z_plus.
    change (inject_Z 1) with 1. lra.
Qed.

(** X27: the obstacle array never holds more than 12 entries: rows are more
    than 50 apart between the spawn line at -180 and the removal line at 15,
    and a row has three entries at most. *)
Theorem array_at_most_12 (inputs : list Input) :
  exists e, run inputs engine0 = Some e /\ (length (obstacles e) <= 12)%nat.
Proof.
  destruct (run_sound inputs engine0 Inv_engine0) as (e & He & HI).
  exists e. split; [assumption |].
  destruct (run_Inv2 inputs e He) as [_ H2].
  pose proof (inv_rows e HI) as Hs. pose proof (inv_lanes e H2) as Hv.
  pose proof (inv_band e H2) as Hb.
  destruct (obstacles e) as [| a l]; [simpl; lia |].
  destruct (Nat.le_gt_cases (length (a :: l)) 12) as [Hle | Hgt]; [assumption |].
  exfalso. simpl in Hgt.
  destruct (array_depth 4 l a Hs Hv) as (o & Hin & Ho); [lia |].
  rewrite Forall_forall in Hb.
  pose proof (Hb a (or_introl eq_refl)) as [_ Ba].
  pose proof (Hb o Hin) as [Bo _].
  unfold spawnZ in Bo. change (inject_Z (Z.of_nat 4)) with 4 in Ho. lra.
Qed.

(** ** Every row can be passed *)

Lemma jump_obstacles e : obstacles (jump e) = obstacles e.
Proof. unfold jump. destruct (isJumping e); reflexivity. Qed.

Lemma roll_obstacles e : obstacles (roll e) = obstacles e.
Proof. unfold roll. destruct (negb (isJumping e) && negb (isRolling e)); reflexivity. Qed.

Lemma physics_obstacles e : obstacles (physics e) = obstacles e.
Proof.
  unfold physics. simpl.
  destruct (isJumping e); simpl.
  - destruct (Qle_bool _ playerBaseY); reflexivity.
  - destruct (isRolling e); simpl; [destruct (_ <=? 0)%Z |]; reflexivity.
Qed.

Lemma navigate_obstacles e e' : navigate e = Some e' -> obstacles e' = obstacles e.
Proof.
  unfold navigate. destruct (autoPilotEnabled e); [| now intros [= <-]].
  intros H. apply updateAI_shape in H.
  destruct H as (c & l & a & e4 & _ & He4 & ->). simpl in *.
  destruct He4 as [-> | [-> | ->]];
    rewrite ?jump_obstacles, ?roll_obstacles; reflexivity.
Qed.

Lemma passable_scan e :
  rowsPassable (obstacles e) -> rowsPassable (obstacles (scanPhase e)).
Proof.
  intros HP. unfold scanPhase.
  pose proof (scanObstacles_entries (obstacles e) e) as He.
  simpl. rewrite Forall_forall in He.
  intros o' Ho'. destruct (He o' Ho') as (_ & o & Ho & (Hz & _ & Hl & Hk) & _).
  destruct (HP o Ho) as (s & Hv & Hs). exists s. split; [assumption |].
  intros p' Hp' Hzz Hls.
  destruct (He p' Hp') as (_ & p & Hp & (Hz2 & _ & Hl2 & Hk2) & _).
  rewrite Hk2. apply (Hs p Hp); [| congruence].
  rewrite Hz, Hz2 in Hzz. lra.
Qed.

Lemma passable_spawn d e :
  StronglySorted rowOrder (obstacles e) -> 0 <= gameSpeed e ->
  validLane (lastSafeLane e) -> spawnDue e = true ->
  rowsPassable (obstacles e) ->
  rowsPassable (obstacles (spawnObstacleRow spawnZ d e)).
Proof.
  intros Hsorted Hspeed Hsafe Hdue HP.
  assert (Hold : forall a, In a (obstacles e) -> spawnZ + 50 < pos_z a).
  { intros a Ha. unfold spawnDue in Hdue.
    destruct (lastObstacle (obstacles e)) as [lo |] eqn:Hl.
    - apply Qltb_iff in Hdue.
      pose proof (lastObstacle_trailing _ _ Hsorted Hl) as Ht.
      rewrite Forall_forall in Ht. specialize (Ht a Ha).
      unfold minGap in Hdue. nra.
    - apply lastObstacle_None in Hl. rewrite Hl in Ha. contradiction. }
  destruct (spawnObstacleRow_entries spawnZ d e) as (news & -> & _ & _ & Hf).
  simpl. rewrite Forall_forall in Hf.
  intros o Ho. apply in_app_or in Ho. destruct Ho as [Ho | Ho].
  - destruct (HP o Ho) as (s & Hv & Hs). exists s. split; [assumption |].
    intros o' Ho' Hz Hl. apply in_app_or in Ho'. destruct Ho' as [Ho' | Ho'].
    + now apply Hs.
    + destruct (Hf o' Ho') as (_ & Hz' & _). specialize (Hold o Ho).
      rewrite Hz' in Hz. lra.
  - exists (pickSafeLane (pickDraw d) (lastSafeLane e)).
    split; [now apply pickSafeLane_valid |].
    intros o' Ho' Hz Hl. apply in_app_or in Ho'. destruct Ho' as [Ho' | Ho'].
    + destruct (Hf o Ho) as (_ & Hzo & _). specialize (Hold o' Ho').
      rewrite Hzo in Hz. lra.
    + destruct (Hf o' Ho') as (_ & _ & _ & _ & Hk). now apply Hk.
Qed.

Lemma passable_update d e e' :
  Inv e -> rowsPassable (obstacles e) -> update d e = Some e' ->
  rowsPassable (obstacles e').
Proof.
  intros HI HP. unfold update. rewrite updateWorld_phases.
  destruct (navigate (clockTick e)) as [e5 |] eqn:Hn; [| discriminate].
  pose proof (Inv_navigate _ _ (Inv_clockTick e HI) Hn) as HI5.
  pose proof (Inv_physics _ HI5) as HI6.
  assert (HP6 : rowsPassable (obstacles (physics e5)))
    by (rewrite physics_obstacles, (navigate_obstacles _ _ Hn); exact HP).
  pose proof (passable_scan _ HP6) as HP8.
  pose proof (Inv_scan _ HI6) as HI8.
  intros [= <-]. destruct (spawnDue _) eqn:Hdue; [| assumption].
  pose proof (inv_rows _ HI8) as Hs. pose proof (inv_speed _ HI8) as [Hsp _].
  pose proof (inv_safe _ HI8) as Hv.
  apply passable_spawn; auto.
Qed.

Lemma passable_exec i e e' :
  Inv e -> rowsPassable (obstacles e) -> exec i e = Some e' ->
  rowsPassable (obstacles e').
Proof.
  intros HI HP.
  destruct i as [d | | | | | v | d]; simpl.
  - unfold start.
    assert (Hgo : forall e11, Inv e11 -> obstacles e11 = [] -> state e11 = PLAYING ->
                        animate d e11 = Some e' -> rowsPassable (obstacles e')).
    { intros e11 A B Hp. unfold animate. rewrite Hp. apply passable_update; [assumption |].
      rewrite B. intros o []. }
    destruct HI as [A1 A2 A3 A4 A5 A6 A7].
    destruct (state e) eqn:Hs; [| intros [= <-]; exact HP |];
      (apply Hgo; [| reflexivity | reflexivity]);
      constructor; simpl; auto; try (unfold validLane; lia); try constructor;
        unfold startSpeed, maxSpeed; try discriminate; lra.
  - intros [= <-]. unfold moveLeft. now destruct (_ <? _)%Z.
  - intros [= <-]. unfold moveRight. now destruct (_ <? _)%Z.
  - intros [= <-]. now rewrite jump_obstacles.
  - intros [= <-]. now rewrite roll_obstacles.
  - intros [= <-]. exact HP.
  - unfold animate. destruct (state e); try (now intros [= <-]).
    now apply passable_update.
Qed.

(** X28: every row the engine ever holds can be passed: for each entry of the
    obstacle array there is one of the three lanes in which the array has no
    hazard at that entry's position (coins only). *)
Theorem rows_leave_a_free_lane (inputs : list Input) :
  exists e, run inputs engine0 = Some e /\ rowsPassable (obstacles e).
Proof.
  assert (H : forall e0, Inv e0 -> rowsPassable (obstacles e0) ->
                         exists e, run inputs e0 = Some e /\ rowsPassable (obstacles e)).
  { induction inputs as [| i rest IH]; intros e0 A B; simpl; [eauto |].
    destruct (exec_sound i e0 A) as (e1 & He1 & A1 & _). rewrite He1.
    apply IH; [assumption |]. exact (passable_exec i e0 e1 A B He1). }
  apply H; [apply Inv_engine0 |]. intros o [].
Qed.

(** ** The terminal transition *)









